(** * MemoryStorage: the in-memory transaction pool of bcos-txpool

    A shallow embedding of
    [bcos-txpool/bcos-txpool/txpool/storage/MemoryStorage.cpp].

    The pool is a record of the member variables of [MemoryStorage]; every
    member function is a function from the state (and its arguments) to the
    new state and its result.  The transaction table is a finite map from
    hashes to transactions; a loop over the table walks a snapshot of its
    keys and reads, at each key, the transaction the table holds at that
    moment (the C++ loops go through [it.second], a pointer to the shared
    transaction object).  External calls (submit callbacks, the unsealed
    notifier, the nonce checkers, [m_onReady]) are recorded, in order, in an
    event log carried by the state.  The clock [utcTime()] is an argument.

    Locks are not modelled: each member function runs alone. *)

From Stdlib Require Import ZArith Lia.
From stdpp Require Import base gmap strings list fin_maps.

Open Scope Z_scope.

(** ** Data model *)

(** [crypto::HashType]: a 32-byte value; [HashType()] is all zeroes. *)
Abbreviation HashType := N (only parsing).
Definition emptyHash : HashType := 0%N.

(** [protocol::BlockNumber] is [int64_t]; [-1] is the unset batch id. *)
Abbreviation BlockNumber := Z (only parsing).
Definition noBatchId : BlockNumber := -1.

Abbreviation NonceType := string (only parsing).
Abbreviation NodeID := N (only parsing).

(** A submit callback is an opaque function object; the model names it. *)
Abbreviation TxSubmitCallback := N (only parsing).

Inductive TransactionStatus : Type :=
| StatusNone
| AlreadyInTxPool
| TxPoolIsFull
| NonceCheckFail
| BlockLimitCheckFail
| TransactionPoolTimeout
| Malform
| OtherStatus (code : N).

#[global] Instance TransactionStatus_eq_dec : EqDecision TransactionStatus.
Proof. solve_decision. Defined.

(** [size_t] and [uint64_t] arithmetic wraps at [2^64]. *)
Definition wrap64 (z : Z) : Z := z mod 2 ^ 64.

(** [protocol::Transaction], as far as the pool reads and writes it: one
    field for each accessor [MemoryStorage.cpp] calls.  The class is declared
    in the protocol headers; the fields are those the specification lists in
    its data model. *)
Record Transaction : Type := mkTx {
  hash : HashType;
  nonce : NonceType;
  sender : string;
  to : string;
  importTime : Z;
  sealed : bool;
  batchId : BlockNumber;
  batchHash : HashType;
  synced : bool;
  knownNodes : gset NodeID;
  submitCallback : option TxSubmitCallback;
  systemTx : bool;
  attribute : N;
  invalid : bool
}.

(** The setters of [protocol::Transaction] that the pool calls. *)
Definition setSealed (b : bool) (t : Transaction) : Transaction :=
  mkTx (hash t) (nonce t) (sender t) (to t) (importTime t) b (batchId t)
       (batchHash t) (synced t) (knownNodes t) (submitCallback t)
       (systemTx t) (attribute t) (invalid t).

Definition setBatchId (b : BlockNumber) (t : Transaction) : Transaction :=
  mkTx (hash t) (nonce t) (sender t) (to t) (importTime t) (sealed t) b
       (batchHash t) (synced t) (knownNodes t) (submitCallback t)
       (systemTx t) (attribute t) (invalid t).

Definition setBatchHash (h : HashType) (t : Transaction) : Transaction :=
  mkTx (hash t) (nonce t) (sender t) (to t) (importTime t) (sealed t)
       (batchId t) h (synced t) (knownNodes t) (submitCallback t)
       (systemTx t) (attribute t) (invalid t).

Definition setSynced (b : bool) (t : Transaction) : Transaction :=
  mkTx (hash t) (nonce t) (sender t) (to t) (importTime t) (sealed t)
       (batchId t) (batchHash t) b (knownNodes t) (submitCallback t)
       (systemTx t) (attribute t) (invalid t).

Definition setSubmitCallback (cb : option TxSubmitCallback) (t : Transaction)
  : Transaction :=
  mkTx (hash t) (nonce t) (sender t) (to t) (importTime t) (sealed t)
       (batchId t) (batchHash t) (synced t) (knownNodes t) cb
       (systemTx t) (attribute t) (invalid t).

(** Modelled from the spec: [Transaction::appendKnownNode] is declared in the
    transaction header, which is not part of the sources at hand; the
    specification describes it as marking the peer in the transaction's
    [knownNodes] set. *)
Definition appendKnownNode (p : NodeID) (t : Transaction) : Transaction :=
  mkTx (hash t) (nonce t) (sender t) (to t) (importTime t) (sealed t)
       (batchId t) (batchHash t) (synced t) ({[p]} ∪ knownNodes t)
       (submitCallback t) (systemTx t) (attribute t) (invalid t).

(** Modelled from the spec: [Transaction::takeSubmitCallback] is declared in
    the transaction header; the specification describes the callback as a
    consume-once slot: the taker swaps it out and the slot is left empty. *)
Definition takeSubmitCallback (t : Transaction)
  : option TxSubmitCallback * Transaction :=
  (submitCallback t, setSubmitCallback None t).

Record TransactionSubmitResult : Type := mkResult {
  r_txHash : HashType;
  r_status : TransactionStatus;
  r_nonce : NonceType;
  r_sender : string;
  r_to : string
}.

Record TransactionMetaData : Type := mkMeta {
  md_hash : HashType;
  md_to : string;
  md_attribute : N
}.

(** Calls that leave the pool, in the order they are made. *)
Inductive Event : Type :=
| EvOnReady
| EvUnsealedTxsNotifier (unsealedTxsSize : Z)
| EvSubmitCallback (cb : TxSubmitCallback) (res : TransactionSubmitResult)
| EvLedgerNonceBatchInsert (batch : BlockNumber) (nonces : list NonceType)
| EvPoolNonceBatchRemove (nonces : list NonceType).

(** [TxPoolConfig] and the constants of the storage header.  The validator
    is an external collaborator: its two queries are functions of the
    transaction.  [MAX_TRAVERSE_TXS_COUNT] is a constant of the header. *)
Record TxPoolConfig : Type := mkConfig {
  poolLimit : Z;
  verify : Transaction → TransactionStatus;
  submittedToChain : Transaction → TransactionStatus;
  MAX_TRAVERSE_TXS_COUNT : Z
}.

(** The member variables of [MemoryStorage] that [MemoryStorage.cpp] uses.
    [m_sealedTxsSize] is a [size_t], [m_blockNumber] a [BlockNumber]. *)
Record MemoryStorage : Type := mkStorage {
  m_txsTable : gmap N Transaction;
  m_invalidTxs : gset N;
  m_invalidNonces : gset string;
  m_missedTxs : gset N;
  m_sealedTxsSize : Z;
  m_blockNumber : BlockNumber;
  m_blockNumberUpdatedTime : Z;
  m_txsExpirationTime : Z;
  m_tpsStatstartTime : Z;
  m_onChainTxsCount : Z;
  (** whether [m_unsealedTxsNotifier] has been registered *)
  m_unsealedTxsNotifier : bool;
  (** [m_txsCleanUpSwitch]: absent, or the value the predicate returns *)
  m_txsCleanUpSwitch : option bool;
  events : list Event
}.

(** Updates of single members. *)
Definition set_txsTable (m : gmap N Transaction) (s : MemoryStorage) : MemoryStorage :=
  mkStorage m (m_invalidTxs s) (m_invalidNonces s) (m_missedTxs s)
    (m_sealedTxsSize s) (m_blockNumber s) (m_blockNumberUpdatedTime s)
    (m_txsExpirationTime s) (m_tpsStatstartTime s) (m_onChainTxsCount s)
    (m_unsealedTxsNotifier s) (m_txsCleanUpSwitch s) (events s).

Definition set_invalid (txs : gset N) (nonces : gset string) (s : MemoryStorage)
  : MemoryStorage :=
  mkStorage (m_txsTable s) txs nonces (m_missedTxs s)
    (m_sealedTxsSize s) (m_blockNumber s) (m_blockNumberUpdatedTime s)
    (m_txsExpirationTime s) (m_tpsStatstartTime s) (m_onChainTxsCount s)
    (m_unsealedTxsNotifier s) (m_txsCleanUpSwitch s) (events s).

Definition set_missedTxs (missed : gset N) (s : MemoryStorage) : MemoryStorage :=
  mkStorage (m_txsTable s) (m_invalidTxs s) (m_invalidNonces s) missed
    (m_sealedTxsSize s) (m_blockNumber s) (m_blockNumberUpdatedTime s)
    (m_txsExpirationTime s) (m_tpsStatstartTime s) (m_onChainTxsCount s)
    (m_unsealedTxsNotifier s) (m_txsCleanUpSwitch s) (events s).

Definition set_sealedTxsSize (n : Z) (s : MemoryStorage) : MemoryStorage :=
  mkStorage (m_txsTable s) (m_invalidTxs s) (m_invalidNonces s) (m_missedTxs s)
    n (m_blockNumber s) (m_blockNumberUpdatedTime s)
    (m_txsExpirationTime s) (m_tpsStatstartTime s) (m_onChainTxsCount s)
    (m_unsealedTxsNotifier s) (m_txsCleanUpSwitch s) (events s).

Definition set_blockNumber (n : BlockNumber) (s : MemoryStorage) : MemoryStorage :=
  mkStorage (m_txsTable s) (m_invalidTxs s) (m_invalidNonces s) (m_missedTxs s)
    (m_sealedTxsSize s) n (m_blockNumberUpdatedTime s)
    (m_txsExpirationTime s) (m_tpsStatstartTime s) (m_onChainTxsCount s)
    (m_unsealedTxsNotifier s) (m_txsCleanUpSwitch s) (events s).

Definition set_blockNumberUpdatedTime (t : Z) (s : MemoryStorage) : MemoryStorage :=
  mkStorage (m_txsTable s) (m_invalidTxs s) (m_invalidNonces s) (m_missedTxs s)
    (m_sealedTxsSize s) (m_blockNumber s) t
    (m_txsExpirationTime s) (m_tpsStatstartTime s) (m_onChainTxsCount s)
    (m_unsealedTxsNotifier s) (m_txsCleanUpSwitch s) (events s).

Definition set_tps (start count : Z) (s : MemoryStorage) : MemoryStorage :=
  mkStorage (m_txsTable s) (m_invalidTxs s) (m_invalidNonces s) (m_missedTxs s)
    (m_sealedTxsSize s) (m_blockNumber s) (m_blockNumberUpdatedTime s)
    (m_txsExpirationTime s) start count
    (m_unsealedTxsNotifier s) (m_txsCleanUpSwitch s) (events s).

(** The event log holds the most recent call first. *)
Definition emit (e : Event) (s : MemoryStorage) : MemoryStorage :=
  mkStorage (m_txsTable s) (m_invalidTxs s) (m_invalidNonces s) (m_missedTxs s)
    (m_sealedTxsSize s) (m_blockNumber s) (m_blockNumberUpdatedTime s)
    (m_txsExpirationTime s) (m_tpsStatstartTime s) (m_onChainTxsCount s)
    (m_unsealedTxsNotifier s) (m_txsCleanUpSwitch s) (e :: events s).

(** [m_sealedTxsSize++] and [--m_sealedTxsSize] on a [size_t]. *)
Definition incSealed (s : MemoryStorage) : MemoryStorage :=
  set_sealedTxsSize (wrap64 (m_sealedTxsSize s + 1)) s.

Definition decSealed (s : MemoryStorage) : MemoryStorage :=
  set_sealedTxsSize (wrap64 (m_sealedTxsSize s - 1)) s.

(** Writing through the pointer the table holds at key [k]. *)
Definition storeTx (k : N) (t : Transaction) (s : MemoryStorage) : MemoryStorage :=
  set_txsTable (<[k := t]> (m_txsTable s)) s.

(** [m_txsTable.size()] *)
Definition tableSize (s : MemoryStorage) : Z := Z.of_nat (size (m_txsTable s)).

(** The iteration order of the table: unspecified in the source, fixed here
    as the order in which the finite map lists its keys. *)
Definition tableKeys (s : MemoryStorage) : list N := (map_to_list (m_txsTable s)).*1.

(** ** Member functions *)

(** The drift of the counter is repaired here, when the table is smaller
    than the counter. *)
Definition unSealedTxsSizeWithoutLock (s : MemoryStorage) : Z * MemoryStorage :=
  if tableSize s <? m_sealedTxsSize s
  then (0, set_sealedTxsSize (tableSize s) s)
  else (tableSize s - m_sealedTxsSize s, s).

(** The notifier answers asynchronously; a failed answer re-enters this
    function (at most [MAX_RETRY_NOTIFY_TIME] times), which is another call of
    the same definition. *)
Definition notifyUnsealedTxsSize (s : MemoryStorage) : MemoryStorage :=
  if m_unsealedTxsNotifier s
  then let '(n, s1) := unSealedTxsSizeWithoutLock s in
       emit (EvUnsealedTxsNotifier n) s1
  else s.

Definition txpoolStorageCheck (tx : Transaction) (s : MemoryStorage)
  : TransactionStatus :=
  match m_txsTable s !! hash tx with
  | Some _ => AlreadyInTxPool
  | None => StatusNone
  end.

Definition insertWithoutLock (tx : Transaction) (s : MemoryStorage)
  : TransactionStatus * MemoryStorage :=
  match m_txsTable s !! hash tx with
  | Some _ => (AlreadyInTxPool, s)
  | None =>
      (StatusNone, notifyUnsealedTxsSize (emit EvOnReady (storeTx (hash tx) tx s)))
  end.

(** [insert] is [insertWithoutLock] under the read guard. *)
Definition insert (tx : Transaction) (s : MemoryStorage)
  : TransactionStatus * MemoryStorage :=
  insertWithoutLock tx s.

Definition verifyAndSubmitTransaction (cfg : TxPoolConfig) (now : Z)
    (transaction : Transaction) (txSubmitCallback : option TxSubmitCallback)
    (checkPoolLimit lock : bool) (s : MemoryStorage)
  : TransactionStatus * MemoryStorage :=
  let txsSize := tableSize s in
  match txpoolStorageCheck transaction s with
  | StatusNone =>
      let s1 := if (m_tpsStatstartTime s =? 0) && (txsSize =? 0)
                then set_tps now (m_onChainTxsCount s) s else s in
      if checkPoolLimit && (poolLimit cfg <=? txsSize)
      then (TxPoolIsFull, s1)
      else
        match verify cfg transaction with
        | StatusNone =>
            let tx := match txSubmitCallback with
                      | Some cb => setSubmitCallback (Some cb) transaction
                      | None => transaction
                      end in
            if lock then insert tx s1 else insertWithoutLock tx s1
        | result => (result, s1)
        end
  | result => (result, s)
  end.

Definition enforceSubmitTransaction (cfg : TxPoolConfig) (_tx : Transaction)
    (s : MemoryStorage) : TransactionStatus * MemoryStorage :=
  let txHash := hash _tx in
  let result := submittedToChain cfg _tx in
  let found := m_txsTable s !! txHash in
  if decide (result = NonceCheckFail) then (NonceCheckFail, s)
  else
    match found with
    | Some tx =>
        if negb (sealed tx) || (batchHash tx =? emptyHash)%N
        then
          let s1 := if negb (sealed tx) then incSealed s else s in
          let tx1 := if negb (sealed tx) then setSealed true tx else tx in
          let tx2 := setBatchHash (batchHash _tx) (setBatchId (batchId _tx) tx1) in
          (StatusNone, storeTx txHash tx2 s1)
        else if (batchId tx =? batchId _tx) && (batchHash tx =? batchHash _tx)%N
        then (StatusNone, s)
        else (AlreadyInTxPool, s)
    | None =>
        let '(status, s1) := insertWithoutLock _tx s in
        match status with
        | StatusNone =>
            (StatusNone, incSealed (storeTx (hash _tx) (setSealed true _tx) s1))
        | _ =>
            (* the insertion failed: the hash is in the table *)
            match m_txsTable s1 !! hash _tx with
            | Some tx =>
                if negb (sealed tx)
                then (StatusNone, incSealed (storeTx (hash _tx) (setSealed true tx) s1))
                else (StatusNone, s1)
            | None => (StatusNone, s1)
            end
        end
    end.

Definition removeWithoutLock (_txHash : N) (s : MemoryStorage)
  : option Transaction * MemoryStorage :=
  match m_txsTable s !! _txHash with
  | None => (None, s)
  | Some tx =>
      let s1 := if sealed tx then decSealed s else s in
      (Some tx, set_txsTable (delete _txHash (m_txsTable s1)) s1)
  end.

Definition remove (_txHash : N) (s : MemoryStorage)
  : option Transaction * MemoryStorage :=
  let '(tx, s1) := removeWithoutLock _txHash s in
  (tx, notifyUnsealedTxsSize s1).

(** The transaction is no longer in the table; the callback slot is emptied
    on the object the caller holds, which is returned. *)
Definition notifyTxResult (transaction : Transaction)
    (txSubmitResult : TransactionSubmitResult) (s : MemoryStorage)
  : Transaction * MemoryStorage :=
  let '(txSubmitCallback, transaction') := takeSubmitCallback transaction in
  match txSubmitCallback with
  | None => (transaction', s)
  | Some cb =>
      let res := mkResult (r_txHash txSubmitResult) (r_status txSubmitResult)
                   (r_nonce txSubmitResult) (sender transaction) (to transaction) in
      (transaction', emit (EvSubmitCallback cb res) s)
  end.

Definition removeSubmittedTxWithoutLock (txSubmitResult : TransactionSubmitResult)
    (_notify : bool) (s : MemoryStorage) : option Transaction * MemoryStorage :=
  let '(tx, s1) := removeWithoutLock (r_txHash txSubmitResult) s in
  match tx with
  | None => (None, s1)
  | Some t =>
      if _notify
      then let '(t', s2) := notifyTxResult t txSubmitResult s1 in (Some t', s2)
      else (Some t, s1)
  end.

(** The removal loop of [batchRemove]: the nonces collected for the nonce
    checkers and, for every result, the transaction that was removed (if it
    was in the table). *)
Fixpoint batchRemoveLoop (txsResult : list TransactionSubmitResult)
    (s : MemoryStorage)
  : list NonceType * list (option Transaction * TransactionSubmitResult) * MemoryStorage :=
  match txsResult with
  | [] => ([], [], s)
  | txResult :: rest =>
      let '(tx, s1) := removeWithoutLock (r_txHash txResult) s in
      let collected :=
        match tx with
        | None => if String.eqb (r_nonce txResult) "" then [] else [r_nonce txResult]
        | Some t => [nonce t]
        end in
      let '(nonceList, results, s2) := batchRemoveLoop rest s1 in
      (collected ++ nonceList, (tx, txResult) :: results, s2)
  end.

(** The last loop of [batchRemove]. *)
Fixpoint notifyResults (results : list (option Transaction * TransactionSubmitResult))
    (s : MemoryStorage) : MemoryStorage :=
  match results with
  | [] => s
  | (Some tx, txResult) :: rest => notifyResults rest (notifyTxResult tx txResult s).2
  | (None, _) :: rest => notifyResults rest s
  end.

Definition batchRemove (now : Z) (batchId : BlockNumber)
    (txsResult : list TransactionSubmitResult) (s : MemoryStorage) : MemoryStorage :=
  let s0 := set_blockNumberUpdatedTime now s in
  let '(nonceList, results, s1) := batchRemoveLoop txsResult s0 in
  let s2 := if m_blockNumber s1 <? batchId then set_blockNumber batchId s1 else s1 in
  let s3 := set_tps (m_tpsStatstartTime s2)
              (wrap64 (m_onChainTxsCount s2 + Z.of_nat (length txsResult))) s2 in
  let s4 := if (0 <? m_tpsStatstartTime s3) && (tableSize s3 =? 0)
            then set_tps 0 0 s3 else s3 in
  let s5 := notifyUnsealedTxsSize s4 in
  let s6 := emit (EvLedgerNonceBatchInsert batchId nonceList) s5 in
  let s7 := emit (EvPoolNonceBatchRemove nonceList) s6 in
  notifyResults results s7.

(** The loop of [fetchNewTxs] over the keys still to visit; [fetchedTxs] is
    the vector filled so far.  The vector holds the shared objects, so a
    returned transaction is read after [setSynced(true)]. *)
Fixpoint fetchNewTxsLoop (_txsLimit : Z) (keys : list N)
    (fetchedTxs : list Transaction) (s : MemoryStorage)
  : list Transaction * MemoryStorage :=
  match keys with
  | [] => (fetchedTxs, s)
  | k :: rest =>
      match m_txsTable s !! k with
      | None => fetchNewTxsLoop _txsLimit rest fetchedTxs s
      | Some tx =>
          if synced tx then fetchNewTxsLoop _txsLimit rest fetchedTxs s
          else
            let tx' := setSynced true tx in
            let s1 := storeTx k tx' s in
            let fetchedTxs' := fetchedTxs ++ [tx'] in
            if _txsLimit <=? Z.of_nat (length fetchedTxs')
            then (fetchedTxs', s1)
            else fetchNewTxsLoop _txsLimit rest fetchedTxs' s1
      end
  end.

Definition fetchNewTxs (_txsLimit : Z) (s : MemoryStorage)
  : list Transaction * MemoryStorage :=
  fetchNewTxsLoop _txsLimit (tableKeys s) [] s.

(** [m_invalidTxs.insert(txHash); m_invalidNonces.insert(tx->nonce())] *)
Definition stageInvalid (tx : Transaction) (s : MemoryStorage) : MemoryStorage :=
  set_invalid ({[hash tx]} ∪ m_invalidTxs s) ({[nonce tx]} ∪ m_invalidNonces s) s.

(** [currentTime > tx->importTime() + m_txsExpirationTime], the sum taken in
    [uint64_t]. *)
Definition expired (now : Z) (tx : Transaction) (s : MemoryStorage) : bool :=
  wrap64 (importTime tx + m_txsExpirationTime s) <? now.

Definition removeInvalidTxs (lock : bool) (s : MemoryStorage) : MemoryStorage :=
  if decide (m_invalidTxs s = ∅) then s
  else
    let s1 :=
      foldl (λ st txHash,
               (removeSubmittedTxWithoutLock
                  (mkResult txHash TransactionPoolTimeout "" "" "") true st).2)
            s (elements (m_invalidTxs s)) in
    let s2 := notifyUnsealedTxsSize s1 in
    let s3 := emit (EvPoolNonceBatchRemove (elements (m_invalidNonces s2))) s2 in
    set_invalid ∅ ∅ s3.

(** The transaction as [batchFetchTxs] leaves it: sealed, with the batch
    identity unset. *)
Definition sealedByFetch (tx : Transaction) : Transaction :=
  setBatchHash emptyHash (setBatchId noBatchId (setSealed true tx)).

(** One turn of the loop of [batchFetchTxs] at the key [k]; [_txsList] and
    [_sysTxsList] are the metadata of the two blocks being filled.  The
    boolean tells whether the turn ends in [break]. *)
Definition batchFetchTxsTurn (cfg : TxPoolConfig) (currentTime : Z) (_txsLimit : Z)
    (_avoidTxs : option (gset N)) (_avoidDuplicate : bool) (k : N)
    (_txsList _sysTxsList : list TransactionMetaData) (s : MemoryStorage)
  : bool * (list TransactionMetaData * list TransactionMetaData * MemoryStorage) :=
  let continue := (false, (_txsList, _sysTxsList, s)) in
  match m_txsTable s !! k with
  | None => continue
  | Some tx =>
      let txHash := hash tx in
      if decide (txHash ∈ m_invalidTxs s) then continue
      else if _avoidDuplicate && sealed tx then continue
      else if expired currentTime tx s
      then (false, (_txsList, _sysTxsList, stageInvalid tx s))
      else
        match submittedToChain cfg tx with
        | NonceCheckFail =>
            (false, (_txsList, _sysTxsList,
                     stageInvalid tx (storeTx k (takeSubmitCallback tx).2 s)))
        | BlockLimitCheckFail =>
            (false, (_txsList, _sysTxsList, stageInvalid tx s))
        | _ =>
            if match _avoidTxs with
               | Some avoid => bool_decide (txHash ∈ avoid)
               | None => false
               end
            then continue
            else
              let txMetaData := mkMeta (hash tx) (to tx) (attribute tx) in
              let '(txs', sys') :=
                if systemTx tx
                then (_txsList, _sysTxsList ++ [txMetaData])
                else (_txsList ++ [txMetaData], _sysTxsList) in
              let s1 := if negb (sealed tx) then incSealed s else s in
              let s2 := storeTx k (sealedByFetch tx) s1 in
              (_txsLimit <=? Z.of_nat (length txs') + Z.of_nat (length sys'),
               (txs', sys', s2))
        end
  end.

Fixpoint batchFetchTxsLoop (cfg : TxPoolConfig) (currentTime : Z) (_txsLimit : Z)
    (_avoidTxs : option (gset N)) (_avoidDuplicate : bool) (keys : list N)
    (_txsList _sysTxsList : list TransactionMetaData) (s : MemoryStorage)
  : list TransactionMetaData * list TransactionMetaData * MemoryStorage :=
  match keys with
  | [] => (_txsList, _sysTxsList, s)
  | k :: rest =>
      let '(stop, (txs', sys', s')) :=
        batchFetchTxsTurn cfg currentTime _txsLimit _avoidTxs _avoidDuplicate k
          _txsList _sysTxsList s in
      if stop then (txs', sys', s')
      else batchFetchTxsLoop cfg currentTime _txsLimit _avoidTxs _avoidDuplicate
             rest txs' sys' s'
  end.

Definition batchFetchTxs (cfg : TxPoolConfig) (now : Z)
    (_txsList _sysTxsList : list TransactionMetaData) (_txsLimit : Z)
    (_avoidTxs : option (gset N)) (_avoidDuplicate : bool) (s : MemoryStorage)
  : list TransactionMetaData * list TransactionMetaData * MemoryStorage :=
  let '(txs, sys, s1) :=
    batchFetchTxsLoop cfg now _txsLimit _avoidTxs _avoidDuplicate (tableKeys s)
      _txsList _sysTxsList s in
  (txs, sys, removeInvalidTxs false (notifyUnsealedTxsSize s1)).

Definition clear (s : MemoryStorage) : MemoryStorage :=
  notifyUnsealedTxsSize (set_missedTxs ∅ (set_invalid ∅ ∅ (set_txsTable ∅ s))).

(** The two loops of [filterUnknownTxs]. *)
Definition markKnown (_peer : NodeID) (s : MemoryStorage) (txHash : N)
  : MemoryStorage :=
  match m_txsTable s !! txHash with
  | None => s
  | Some tx => storeTx txHash (appendKnownNode _peer tx) s
  end.

Fixpoint collectUnknown (_txsHashList : list N) (s : MemoryStorage)
  : list N * MemoryStorage :=
  match _txsHashList with
  | [] => ([], s)
  | txHash :: rest =>
      if bool_decide (is_Some (m_txsTable s !! txHash)) then collectUnknown rest s
      else if bool_decide (txHash ∈ m_missedTxs s) then collectUnknown rest s
      else
        let '(unknown, s1) :=
          collectUnknown rest (set_missedTxs ({[txHash]} ∪ m_missedTxs s) s) in
        (txHash :: unknown, s1)
  end.

Definition filterUnknownTxs (cfg : TxPoolConfig) (_txsHashList : list N)
    (_peer : NodeID) (s : MemoryStorage) : list N * MemoryStorage :=
  let s1 := foldl (markKnown _peer) s _txsHashList in
  let '(unknownTxsList, s2) := collectUnknown _txsHashList s1 in
  let s3 := if poolLimit cfg <=? Z.of_nat (size (m_missedTxs s2))
            then set_missedTxs ∅ s2 else s2 in
  (unknownTxsList, s3).

(** One turn of the loop of [batchMarkTxsWithoutLock]. *)
Definition markTx (_batchId : BlockNumber) (_batchHash : N) (_sealFlag : bool)
    (s : MemoryStorage) (txHash : N) : MemoryStorage :=
  match m_txsTable s !! txHash with
  | None => s
  | Some tx =>
      if (negb (batchId tx =? _batchId) || negb (batchHash tx =? _batchHash)%N)
         && sealed tx && negb _sealFlag
      then s
      else
        let s1 := if _sealFlag && negb (sealed tx) then incSealed s else s in
        let s2 := if negb _sealFlag && sealed tx then decSealed s1 else s1 in
        let tx1 := setSealed _sealFlag tx in
        let tx2 := if _sealFlag
                   then setBatchHash _batchHash (setBatchId _batchId tx1)
                   else tx1 in
        storeTx txHash tx2 s2
  end.

Definition batchMarkTxsWithoutLock (_txsHashList : list N) (_batchId : BlockNumber)
    (_batchHash : N) (_sealFlag : bool) (s : MemoryStorage) : MemoryStorage :=
  notifyUnsealedTxsSize (foldl (markTx _batchId _batchHash _sealFlag) s _txsHashList).

(** Both branches of [batchMarkTxs] run the same loop; they differ in the
    guard they hold. *)
Definition batchMarkTxs (_txsHashList : list N) (_batchId : BlockNumber)
    (_batchHash : N) (_sealFlag : bool) (s : MemoryStorage) : MemoryStorage :=
  if _sealFlag
  then batchMarkTxsWithoutLock _txsHashList _batchId _batchHash _sealFlag s
  else batchMarkTxsWithoutLock _txsHashList _batchId _batchHash _sealFlag s.

Definition markAllTx (_sealFlag : bool) (s : MemoryStorage) (k : N) : MemoryStorage :=
  match m_txsTable s !! k with
  | None => s
  | Some tx =>
      let tx1 := setSealed _sealFlag tx in
      let tx2 := if _sealFlag then tx1
                 else setBatchHash emptyHash (setBatchId noBatchId tx1) in
      storeTx k tx2 s
  end.

Definition batchMarkAllTxs (_sealFlag : bool) (s : MemoryStorage) : MemoryStorage :=
  let s1 := foldl (markAllTx _sealFlag) s (tableKeys s) in
  let s2 := if _sealFlag then set_sealedTxsSize (tableSize s1) s1
            else set_sealedTxsSize 0 s1 in
  notifyUnsealedTxsSize s2.

(** The loop of the reaper: [traversedTxsNum] counts the entries that were
    neither staged before nor protected by their seal. *)
Fixpoint cleanUpLoop (cfg : TxPoolConfig) (currentTime : Z) (keys : list N)
    (traversedTxsNum : Z) (s : MemoryStorage) : MemoryStorage :=
  match keys with
  | [] => s
  | k :: rest =>
      if traversedTxsNum <=? MAX_TRAVERSE_TXS_COUNT cfg
      then
        match m_txsTable s !! k with
        | None => cleanUpLoop cfg currentTime rest traversedTxsNum s
        | Some tx =>
            if bool_decide (hash tx ∈ m_invalidTxs s)
            then cleanUpLoop cfg currentTime rest traversedTxsNum s
            else if sealed tx && (m_blockNumber s <=? batchId tx)
            then cleanUpLoop cfg currentTime rest traversedTxsNum s
            else
              let s1 := if expired currentTime tx s then stageInvalid tx s else s in
              cleanUpLoop cfg currentTime rest (traversedTxsNum + 1) s1
        end
      else s
  end.

(** The scan of a reaper tick; [None] when the tick returns before it
    scans (the switch answers [false], or the table is empty). *)
Definition reaperScan (cfg : TxPoolConfig) (now : Z) (s : MemoryStorage)
  : option MemoryStorage :=
  match m_txsCleanUpSwitch s with
  | Some false => None
  | _ =>
      if tableSize s =? 0 then None
      else Some (cleanUpLoop cfg now (tableKeys s) 0 s)
  end.

Definition cleanUpExpiredTransactions (cfg : TxPoolConfig) (now : Z)
    (s : MemoryStorage) : MemoryStorage :=
  match reaperScan cfg now s with
  | None => s
  | Some scanned => removeInvalidTxs false scanned
  end.

(** One turn of the loop of [batchImportTxs]; a null pointer in the vector is
    [None]. *)
Definition importTx (cfg : TxPoolConfig) (now : Z) (s : MemoryStorage)
    (tx : option Transaction) : MemoryStorage :=
  match tx with
  | None => s
  | Some t =>
      if invalid t then s
      else (verifyAndSubmitTransaction cfg now t None false false s).2
  end.

Definition batchImportTxs (cfg : TxPoolConfig) (now : Z)
    (_txs : list (option Transaction)) (s : MemoryStorage) : MemoryStorage :=
  notifyUnsealedTxsSize (foldl (importTx cfg now) s _txs).

Fixpoint batchVerifyAndSubmitLoop (cfg : TxPoolConfig)
    (_txs : list (option Transaction)) (s : MemoryStorage) : bool * MemoryStorage :=
  match _txs with
  | [] => (true, s)
  | None :: rest => batchVerifyAndSubmitLoop cfg rest s
  | Some tx :: rest =>
      if invalid tx then batchVerifyAndSubmitLoop cfg rest s
      else
        let '(result, s1) := enforceSubmitTransaction cfg tx s in
        match result with
        | StatusNone => batchVerifyAndSubmitLoop cfg rest s1
        | _ => (false, s1)
        end
  end.

Definition batchVerifyAndSubmitTransaction (cfg : TxPoolConfig)
    (_txs : list (option Transaction)) (s : MemoryStorage) : bool * MemoryStorage :=
  let '(ok, s1) := batchVerifyAndSubmitLoop cfg _txs s in
  if ok then (true, notifyUnsealedTxsSize s1) else (false, s1).

(** ** The other member functions *)



(** [batchInsert]: every transaction is inserted (the status is dropped),
    then the hashes are erased from [m_missedTxs]. *)
Definition batchInsert (_txs : list Transaction) (s : MemoryStorage) : MemoryStorage :=
  let s1 := foldl (λ st tx, (insert tx st).2) s _txs in
  set_missedTxs (foldl (λ missed tx, missed ∖ {[hash tx]}) (m_missedTxs s1) _txs) s1.

Definition removeSubmittedTx (txSubmitResult : TransactionSubmitResult)
    (s : MemoryStorage) : option Transaction * MemoryStorage :=
  let '(tx, s1) := remove (r_txHash txSubmitResult) s in
  match tx with
  | None => (None, s1)
  | Some t =>
      let '(t', s2) := notifyTxResult t txSubmitResult s1 in (Some t', s2)
  end.

(** The loop of [fetchTxs]; [_missedTxs] is an output of the caller's that
    the function clears before the loop. *)
Fixpoint fetchTxsLoop (_txs : list N) (fetchedTxs : list Transaction)
    (_missedTxs : list N) (s : MemoryStorage) : list Transaction * list N :=
  match _txs with
  | [] => (fetchedTxs, _missedTxs)
  | hash :: rest =>
      match m_txsTable s !! hash with
      | None => fetchTxsLoop rest fetchedTxs (_missedTxs ++ [hash]) s
      | Some tx => fetchTxsLoop rest (fetchedTxs ++ [tx]) _missedTxs s
      end
  end.

Definition fetchTxs (_missedTxs : list N) (_txs : list N) (s : MemoryStorage)
  : list Transaction * list N :=
  fetchTxsLoop _txs [] [] s.

(** [batchVerifyProposal(Block::Ptr)]: the block is read through its list of
    transaction hashes; the hashes the table does not hold are returned. *)
Fixpoint batchVerifyProposal (_block : list N) (s : MemoryStorage) : list N :=
  match _block with
  | [] => []
  | txHash :: rest =>
      if bool_decide (is_Some (m_txsTable s !! txHash))
      then batchVerifyProposal rest s
      else txHash :: batchVerifyProposal rest s
  end.

(** [batchVerifyProposal(std::shared_ptr<HashList>)]: whether the table holds
    every hash. *)
Definition batchVerifyProposalHashes (_txsHashList : list N) (s : MemoryStorage)
  : bool :=
  forallb (λ txHash, bool_decide (is_Some (m_txsTable s !! txHash))) _txsHashList.

(** The loop of [getTxsHash]: the limit is tested before the key is
    appended.  The source compares [(int)txsHash->size()] with the [int]
    limit; the comparison is made here on integers, which is the same while the
    vector has fewer than [2^31] entries. *)
Fixpoint getTxsHashLoop (_limit : Z) (keys : list N) (txsHash : list N)
    (s : MemoryStorage) : list N :=
  match keys with
  | [] => txsHash
  | k :: rest =>
      match m_txsTable s !! k with
      | None => getTxsHashLoop _limit rest txsHash s
      | Some _ =>
          if _limit <=? Z.of_nat (length txsHash) then txsHash
          else getTxsHashLoop _limit rest (txsHash ++ [k]) s
      end
  end.

Definition getTxsHash (_limit : Z) (s : MemoryStorage) : list N :=
  getTxsHashLoop _limit (tableKeys s) [] s.

(** [unSealedTxsSize] is [unSealedTxsSizeWithoutLock] under the read guard. *)
Definition unSealedTxsSize (s : MemoryStorage) : Z * MemoryStorage :=
  unSealedTxsSizeWithoutLock s.

(** ** Predicates on pool states *)

(** The number of sealed transactions of a table. *)
Definition sealedCount (m : gmap N Transaction) : nat :=
  size (filter (λ kv, sealed kv.2 = true) m).

(** I2: the counter is the number of sealed transactions, as a [size_t]. *)
Definition sealedCounterOk (s : MemoryStorage) : Prop :=
  m_sealedTxsSize s = wrap64 (Z.of_nat (sealedCount (m_txsTable s))).

Definition b2z (b : bool) : Z := if b then 1 else 0.

(** What [batchMarkAllTxs] does to one transaction. *)
Definition markedAll (_sealFlag : bool) (tx : Transaction) : Transaction :=
  if _sealFlag then setSealed true tx
  else setBatchHash emptyHash (setBatchId noBatchId (setSealed false tx)).

(** What [batchMarkTxsWithoutLock] does to one transaction. *)
Definition marked (_batchId : Z) (_batchHash : N) (_sealFlag : bool)
    (tx : Transaction) : Transaction :=
  if _sealFlag then setBatchHash _batchHash (setBatchId _batchId (setSealed true tx))
  else if (negb (batchId tx =? _batchId) || negb (batchHash tx =? _batchHash)%N)
          && sealed tx
       then tx
       else setSealed false tx.

(** A hash sealed by [batchFetchTxs]: in the table, sealed, with the batch
    identity unset, and not staged for removal. *)
Definition fetchedAt (s : MemoryStorage) (h : N) : Prop :=
  (h ∉ m_invalidTxs s) ∧
  ∃ t, m_txsTable s !! h = Some t ∧ sealed t = true ∧
       batchId t = noBatchId ∧ batchHash t = emptyHash.

(** Every staged hash that is in the table is unsealed. *)
Definition stagedUnsealed (s : MemoryStorage) : Prop :=
  ∀ h t, h ∈ m_invalidTxs s → m_txsTable s !! h = Some t → sealed t = false.

(** The hashes of the metadata of the two blocks. *)
Definition hashesOf (txs sys : list TransactionMetaData) : list N :=
  md_hash <$> (txs ++ sys).

(** What a turn of the loop of [batchFetchTxs] can do at the key [k]. *)
Inductive FetchOutcome (dup : bool) (k : N)
    (txs sys : list TransactionMetaData) (s : MemoryStorage)
  : list TransactionMetaData → list TransactionMetaData → MemoryStorage → Prop :=
| fetch_skip : FetchOutcome dup k txs sys s txs sys s
| fetch_stage tx :
    m_txsTable s !! k = Some tx →
    hash tx ∉ m_invalidTxs s →
    dup && sealed tx = false →
    FetchOutcome dup k txs sys s txs sys (stageInvalid tx s)
| fetch_drop_callback tx :
    m_txsTable s !! k = Some tx →
    hash tx ∉ m_invalidTxs s →
    dup && sealed tx = false →
    FetchOutcome dup k txs sys s txs sys
      (stageInvalid tx (storeTx k (takeSubmitCallback tx).2 s))
| fetch_emit tx txs' sys' :
    m_txsTable s !! k = Some tx →
    hash tx ∉ m_invalidTxs s →
    dup && sealed tx = false →
    hashesOf txs' sys' ≡ₚ hash tx :: hashesOf txs sys →
    FetchOutcome dup k txs sys s txs' sys'
      (storeTx k (sealedByFetch tx) (if negb (sealed tx) then incSealed s else s)).

(** Every transaction is stored under its own hash. *)
Definition keyed (m : gmap N Transaction) : Prop :=
  map_Forall (λ k t, hash t = k) m.

(** ** Sample pools *)

Definition freshTx (h : N) (n : string) (t : Z) : Transaction :=
  mkTx h n "alice" "bob" t false noBatchId emptyHash false ∅ None false 0 false.

(** A validator that accepts everything; [poolLimit = 2]. *)
Definition cfg2 : TxPoolConfig :=
  mkConfig 2 (λ _, StatusNone) (λ _, StatusNone) 10000.

Definition emptyPool (notifier : bool) (expiration : Z) : MemoryStorage :=
  mkStorage ∅ ∅ ∅ ∅ 0 0 0 expiration 0 0 notifier None [].

Definition txAA : Transaction := freshTx 170 "1" 0.
Definition txBB : Transaction := freshTx 187 "2" 0.
Definition txCC : Transaction := freshTx 204 "3" 0.

(** The pool of scenario S1 after its first two submissions. *)
Definition poolAB : MemoryStorage :=
  (verifyAndSubmitTransaction cfg2 0 txBB (Some 2%N) true true
     (verifyAndSubmitTransaction cfg2 0 txAA (Some 1%N) true true
        (emptyPool true 1000)).2).2.

(** The pool of scenario S2 before the fetch. *)
Definition poolA : MemoryStorage :=
  (verifyAndSubmitTransaction cfg2 0 txAA (Some 1%N) true true
     (emptyPool true 1000)).2.

(** The pool of scenario S2 after the fetch: [txAA] sealed by the sealer,
    not yet assigned to a proposal. *)
Definition poolFetchedA : MemoryStorage :=
  (batchFetchTxs cfg2 1 [] [] 10 None true poolA).2.

(** [txAA] sealed under the proposal [(7, 0xDE)]. *)
Definition poolSealedA : MemoryStorage :=
  batchMarkTxs [170%N] 7 222%N true poolFetchedA.

(** [txAA] unsealed again by [batchMarkTxs] under the pair it was sealed
    with. *)
Definition poolUnsealedA : MemoryStorage :=
  batchMarkTxs [170%N] 7 222%N false poolSealedA.

(** Every transaction sealed again, after the unsealing by [batchMarkTxs]... *)
Definition poolResealedA : MemoryStorage := batchMarkAllTxs true poolUnsealedA.

(** ... and after an unsealing by [batchMarkAllTxs]. *)
Definition poolResealedCleared : MemoryStorage :=
  batchMarkAllTxs true (batchMarkAllTxs false poolSealedA).

(** [txAA] as it arrives inside the proposal [(b, h)]. *)
Definition proposedAA (b : Z) (h : N) : Transaction :=
  setBatchHash h (setBatchId b txAA).

(** A pool without a registered notifier that holds the sealed [txAA]. *)
Definition poolNoNotifier : MemoryStorage :=
  (batchFetchTxs cfg2 1 [] [] 10 None true
     (verifyAndSubmitTransaction cfg2 0 txAA (Some 1%N) true true
        (emptyPool false 1000)).2).2.

(** [txBB] imported from a peer (no submit callback), next to [txAA]. *)
Definition poolPeerB : MemoryStorage := batchImportTxs cfg2 0 [Some txBB] poolA.

(** A committed result for the hash [h]. *)
Definition committed (h : N) (n : string) : TransactionSubmitResult :=
  mkResult h StatusNone n "" "".

(** ** Reading the event log *)

Definition isCallbackFor (x : N) (e : Event) : bool :=
  match e with
  | EvSubmitCallback _ res => (r_txHash res =? x)%N
  | _ => false
  end.

(** The number of submit callbacks fired for the hash [x]. *)
Fixpoint callbacksFor (x : N) (evs : list Event) : nat :=
  match evs with
  | [] => 0
  | e :: rest => ((if isCallbackFor x e then 1 else 0) + callbacksFor x rest)%nat
  end.

(** The submit callbacks invoked for the hash [x], the most recent call
    first: which callbacks were called, not only how many. *)
Fixpoint calledFor (x : N) (evs : list Event) : list TxSubmitCallback :=
  match evs with
  | [] => []
  | EvSubmitCallback cb res :: rest =>
      if (r_txHash res =? x)%N then cb :: calledFor x rest else calledFor x rest
  | _ :: rest => calledFor x rest
  end.

(** The calls made between the states [s] and [s'] (most recent first). *)
Definition firedBetween (s s' : MemoryStorage) : list Event :=
  take (length (events s') - length (events s)) (events s').

(** The callbacks [notifyResults] fires for [x]. *)
Fixpoint firedCount (x : N)
    (results : list (option Transaction * TransactionSubmitResult)) : nat :=
  match results with
  | [] => 0
  | (Some t, r) :: rest =>
      ((if submitCallback t is Some _
        then if (r_txHash r =? x)%N then 1 else 0 else 0)
       + firedCount x rest)%nat
  | (None, _) :: rest => firedCount x rest
  end.

(** [txAA] as the table holds it after a client submission with the
    callback [1]. *)
Definition txAA1 : Transaction := setSubmitCallback (Some 1%N) txAA.

(** [txAA], submitted at time 0, in a pool whose clean-up switch answers
    [false]; the expiration time is 100. *)
Definition poolSwitchedOff : MemoryStorage :=
  (verifyAndSubmitTransaction cfg2 0 txAA (Some 1%N) true true
     (mkStorage ∅ ∅ ∅ ∅ 0 0 0 100 0 0 true (Some false) [])).2.

(** The same pool with no clean-up switch installed. *)
Definition poolReaped : MemoryStorage :=
  (verifyAndSubmitTransaction cfg2 0 txAA (Some 1%N) true true
     (emptyPool true 100)).2.

(** ** The reaper, in two phases *)

(** [m_invalidTxs] when the scan of a reaper tick has ended, before the
    staged transactions are removed.  A tick that returns early stages
    nothing. *)
Definition stagedByTick (cfg : TxPoolConfig) (now : Z) (s : MemoryStorage) : gset N :=
  match reaperScan cfg now s with
  | None => m_invalidTxs s
  | Some scanned => m_invalidTxs scanned
  end.

(** ** Reachable states *)

(** The states the pool can be in: a freshly constructed pool, and what the
    operations make of a reachable state.  Transactions enter the pool as
    their sender built them, unsealed. *)
Inductive reachable (cfg : TxPoolConfig) : MemoryStorage → Prop :=
| reach_init notifier expiration switch created :
    reachable cfg (mkStorage ∅ ∅ ∅ ∅ 0 0 created expiration 0 0 notifier switch [])
| reach_submit s now tx cb check lock :
    reachable cfg s → sealed tx = false →
    reachable cfg (verifyAndSubmitTransaction cfg now tx cb check lock s).2
| reach_import s now txs :
    reachable cfg s → Forall (λ tx, ∀ t, tx = Some t → sealed t = false) txs →
    reachable cfg (batchImportTxs cfg now txs s)
| reach_enforce s txs :
    reachable cfg s → reachable cfg (batchVerifyAndSubmitTransaction cfg txs s).2
| reach_fetch s now txs sys limit avoid dup :
    reachable cfg s → reachable cfg (batchFetchTxs cfg now txs sys limit avoid dup s).2
| reach_mark s hs b h flag :
    reachable cfg s → reachable cfg (batchMarkTxs hs b h flag s)
| reach_mark_all s flag :
    reachable cfg s → reachable cfg (batchMarkAllTxs flag s)
| reach_remove s now b rs :
    reachable cfg s → reachable cfg (batchRemove now b rs s)
| reach_filter s hs p :
    reachable cfg s → reachable cfg (filterUnknownTxs cfg hs p s).2
| reach_fetch_new s limit :
    reachable cfg s → reachable cfg (fetchNewTxs limit s).2
| reach_reaper s now :
    reachable cfg s → reachable cfg (cleanUpExpiredTransactions cfg now s)
| reach_clear s :
    reachable cfg s → reachable cfg (clear s).

(** ** Properties of the specification, as it words them *)

(** I4, first half: a sealed transaction has a batch id and a batch hash
    that are not the unset values. *)
Definition sealedHasBatch (s : MemoryStorage) : Prop :=
  ∀ k t, m_txsTable s !! k = Some t → sealed t = true →
         batchId t ≠ noBatchId ∧ batchHash t ≠ emptyHash.

(** I4: [sealedHasBatch] in every reachable state, and unsealing (by
    [batchMarkTxs] or by [batchMarkAllTxs]) resets the two fields. *)
Definition sealedExclusivityAsStated (cfg : TxPoolConfig) : Prop :=
  (∀ s, reachable cfg s → sealedHasBatch s) ∧
  (∀ s hs b h x t t',
     reachable cfg s →
     m_txsTable s !! x = Some t → sealed t = true →
     m_txsTable (batchMarkTxs hs b h false s) !! x = Some t' → sealed t' = false →
     batchId t' = noBatchId ∧ batchHash t' = emptyHash) ∧
  (∀ s x t t',
     reachable cfg s →
     m_txsTable s !! x = Some t → sealed t = true →
     m_txsTable (batchMarkAllTxs false s) !! x = Some t' →
     batchId t' = noBatchId ∧ batchHash t' = emptyHash).

(** R2: a fetch followed by the unsealing of what it returned, under some
    [(b, h)], restores the counter. *)
Definition fetchUnsealAsStated (cfg : TxPoolConfig) (now : Z) (limit : Z)
    (avoid : option (gset N)) (dup : bool) (b : Z) (h : N) (s : MemoryStorage) : Prop :=
  let fetched := batchFetchTxs cfg now [] [] limit avoid dup s in
  m_sealedTxsSize
    (batchMarkTxs (hashesOf fetched.1.1 fetched.1.2) b h false fetched.2)
  = m_sealedTxsSize s.

(** I6: an entry past its expiration time is on [invalidTxs] already or is
    put there by the next tick, unless it is sealed with a batch id of at
    least [blockNumber]. *)
Definition reaperAsStated (cfg : TxPoolConfig) (now : Z) (s : MemoryStorage) : Prop :=
  ∀ k t, m_txsTable s !! k = Some t →
         importTime t + m_txsExpirationTime s < now →
         ¬ (sealed t = true ∧ m_blockNumber s ≤ batchId t) →
         hash t ∈ m_invalidTxs s ∨ hash t ∈ stagedByTick cfg now s.

(** P3: after [batchRemove(b, R)] no hash of [R] is in the table and the
    callback of every removed transaction has been invoked exactly once. *)
Definition batchRemoveAsStated (now : Z) (b : Z)
    (rs : list TransactionSubmitResult) (s : MemoryStorage) : Prop :=
  (∀ r, r ∈ rs → m_txsTable (batchRemove now b rs s) !! r_txHash r = None) ∧
  (∀ r t, r ∈ rs → m_txsTable s !! r_txHash r = Some t →
          callbacksFor (r_txHash r) (firedBetween s (batchRemove now b rs s)) = 1%nat).

(** [enforceSubmitTransaction] on a transaction that is not on chain and is
    in the table, sealed: [None] under the same proposal, [AlreadyInTxPool]
    under any other. *)
Definition enforceSealedAsStated (cfg : TxPoolConfig) (_tx : Transaction)
    (s : MemoryStorage) : Prop :=
  ∀ t, submittedToChain cfg _tx ≠ NonceCheckFail →
       m_txsTable s !! hash _tx = Some t →
       sealed t = true →
       (batchId t = batchId _tx ∧ batchHash t = batchHash _tx →
        (enforceSubmitTransaction cfg _tx s).1 = StatusNone) ∧
       (¬ (batchId t = batchId _tx ∧ batchHash t = batchHash _tx) →
        (enforceSubmitTransaction cfg _tx s).1 = AlreadyInTxPool).

(** Hashes that are in the table, sealed under [(b, h)]. *)
Definition sealedUnder (s : MemoryStorage) (b : Z) (h : N) (x : N) : Prop :=
  ∃ t, m_txsTable s !! x = Some t ∧ sealed t = true ∧ batchId t = b ∧ batchHash t = h.

(** P4: unsealing the hashes [hs], all sealed under [(b, h)], clears the
    flag and the two batch fields. *)
Definition unsealClearsAsStated (hs : list N) (b : Z) (h : N)
    (s : MemoryStorage) : Prop :=
  Forall (sealedUnder s b h) hs →
  ∀ x, x ∈ hs →
       ∃ t', m_txsTable (batchMarkTxs hs b h false s) !! x = Some t' ∧
             sealed t' = false ∧ batchId t' = noBatchId ∧ batchHash t' = emptyHash.

(** ** Predicates for the further properties *)

(** Nothing is staged for removal. *)
Definition nothingStaged (s : MemoryStorage) : Prop :=
  m_invalidTxs s = ∅ ∧ m_invalidNonces s = ∅.

(** The two staging sets are those of [s]. *)
Definition sameStaging (s s' : MemoryStorage) : Prop :=
  m_invalidTxs s' = m_invalidTxs s ∧ m_invalidNonces s' = m_invalidNonces s.

(** The members no operation but [filterUnknownTxs], [batchInsert] and
    [clear] writes: the missed set, and what the pool was configured with. *)
Definition sameSettings (s s' : MemoryStorage) : Prop :=
  m_missedTxs s' = m_missedTxs s ∧
  m_txsExpirationTime s' = m_txsExpirationTime s ∧
  m_unsealedTxsNotifier s' = m_unsealedTxsNotifier s ∧
  m_txsCleanUpSwitch s' = m_txsCleanUpSwitch s.

(** The conditions under which a turn of the loop of [batchFetchTxs] hands
    the transaction [tx] to the sealer. *)
Definition selectable (cfg : TxPoolConfig) (now : Z) (avoid : option (gset N))
    (dup : bool) (s : MemoryStorage) (tx : Transaction) : Prop :=
  (hash tx ∉ m_invalidTxs s) ∧
  (dup = true → sealed tx = false) ∧
  expired now tx s = false ∧
  submittedToChain cfg tx ≠ NonceCheckFail ∧
  submittedToChain cfg tx ≠ BlockLimitCheckFail ∧
  (∀ a, avoid = Some a → hash tx ∉ a).

(** The metadata [batchFetchTxs] builds for a transaction. *)
Definition metaDataOf (tx : Transaction) : TransactionMetaData :=
  mkMeta (hash tx) (to tx) (attribute tx).

(** The submit callbacks among the events all carry the status [st]. *)
Definition callbacksCarry (st : TransactionStatus) (evs : list Event) : Prop :=
  ∀ cb res, EvSubmitCallback cb res ∈ evs → r_status res = st.

(** ** Basic facts *)

Section Accessors.

Implicit Types s : MemoryStorage.

Lemma unSealed_table s : m_txsTable (unSealedTxsSizeWithoutLock s).2 = m_txsTable s.
Proof. unfold unSealedTxsSizeWithoutLock. by destruct (_ <? _). Qed.

Lemma notify_table s : m_txsTable (notifyUnsealedTxsSize s) = m_txsTable s.
Proof.
  unfold notifyUnsealedTxsSize, unSealedTxsSizeWithoutLock.
  destruct (m_unsealedTxsNotifier s); [|done]. by destruct (_ <? _).
Qed.

Lemma notify_invalidTxs s : m_invalidTxs (notifyUnsealedTxsSize s) = m_invalidTxs s.
Proof.
  unfold notifyUnsealedTxsSize, unSealedTxsSizeWithoutLock.
  destruct (m_unsealedTxsNotifier s); [|done]. by destruct (_ <? _).
Qed.

Lemma notify_blockNumber s : m_blockNumber (notifyUnsealedTxsSize s) = m_blockNumber s.
Proof.
  unfold notifyUnsealedTxsSize, unSealedTxsSizeWithoutLock.
  destruct (m_unsealedTxsNotifier s); [|done]. by destruct (_ <? _).
Qed.

(** The repair of [unSealedTxsSizeWithoutLock] leaves a counter alone that
    does not exceed the size of the table. *)
Lemma notify_sealedTxsSize s :
  m_sealedTxsSize s ≤ tableSize s →
  m_sealedTxsSize (notifyUnsealedTxsSize s) = m_sealedTxsSize s.
Proof.
  intros Hle. unfold notifyUnsealedTxsSize, unSealedTxsSizeWithoutLock.
  destruct (m_unsealedTxsNotifier s); [|done].
  destruct (Z.ltb_spec (tableSize s) (m_sealedTxsSize s)); [lia|done].
Qed.

End Accessors.

(** ** B1: the capacity check (C8) *)

Lemma insertWithoutLock_fresh tx s :
  m_txsTable s !! hash tx = None →
  (insertWithoutLock tx s).1 = StatusNone ∧
  m_txsTable (insertWithoutLock tx s).2 = <[hash tx := tx]> (m_txsTable s).
Proof.
  intros Hnew. unfold insertWithoutLock. rewrite Hnew. simpl.
  by rewrite notify_table.
Qed.

(** C8.  With the table at [poolLimit], a submission that checks the limit
    answers [TxPoolIsFull] for a new transaction the validator accepts and
    leaves the table as it was; [batchImportTxs] of the same transaction does
    not check the limit and stores it. *)
Theorem full_pool_rejects_client_admits_peer
    (cfg : TxPoolConfig) (now : Z) (tx : Transaction)
    (cb : option TxSubmitCallback) (lock : bool) (s : MemoryStorage) :
  tableSize s = poolLimit cfg →
  m_txsTable s !! hash tx = None →
  verify cfg tx = StatusNone →
  invalid tx = false →
  (verifyAndSubmitTransaction cfg now tx cb true lock s).1 = TxPoolIsFull ∧
  m_txsTable (verifyAndSubmitTransaction cfg now tx cb true lock s).2 = m_txsTable s ∧
  (verifyAndSubmitTransaction cfg now tx None false false s).1 = StatusNone ∧
  m_txsTable (batchImportTxs cfg now [Some tx] s) = <[hash tx := tx]> (m_txsTable s).
Proof.
  intros Hfull Hnew Hok Hvalid.
  unfold batchImportTxs, importTx, verifyAndSubmitTransaction, txpoolStorageCheck.
  simpl. rewrite Hnew, Hvalid, Hok, Hfull, Z.leb_refl. simpl.
  rewrite notify_table.
  match goal with |- context [insertWithoutLock tx ?x] => set (s1 := x) end.
  assert (Hs1 : m_txsTable s1 = m_txsTable s) by (subst s1; by destruct (_ && _)).
  repeat split.
  - done.
  - apply insertWithoutLock_fresh. by rewrite Hs1.
  - rewrite <- Hs1. apply insertWithoutLock_fresh. by rewrite Hs1.
Qed.

(** On the pool of scenario S1, full with two transactions. *)
Lemma full_pool_witness :
  (verifyAndSubmitTransaction cfg2 5 txCC (Some 3%N) true true poolAB).1 = TxPoolIsFull ∧
  m_txsTable (verifyAndSubmitTransaction cfg2 5 txCC (Some 3%N) true true poolAB).2
    = m_txsTable poolAB ∧
  (verifyAndSubmitTransaction cfg2 5 txCC None false false poolAB).1 = StatusNone ∧
  m_txsTable (batchImportTxs cfg2 5 [Some txCC] poolAB)
    = <[hash txCC := txCC]> (m_txsTable poolAB).
Proof.
  apply (full_pool_rejects_client_admits_peer cfg2 5 txCC (Some 3%N) true poolAB);
    vm_compute; reflexivity.
Defined.

(** ** Counting sealed transactions *)

Lemma sealedCount_insert_None (m : gmap N Transaction) k t :
  m !! k = None →
  Z.of_nat (sealedCount (<[k := t]> m)) = Z.of_nat (sealedCount m) + b2z (sealed t).
Proof.
  intros Hk. unfold sealedCount. destruct (sealed t) eqn:Hs; simpl.
  - rewrite map_filter_insert_True by done.
    rewrite map_size_insert_None; [lia|].
    apply map_lookup_filter_None. by left.
  - rewrite map_filter_insert_False by (simpl; congruence).
    rewrite delete_id by done. lia.
Qed.

Lemma sealedCount_delete (m : gmap N Transaction) k t :
  m !! k = Some t →
  Z.of_nat (sealedCount (delete k m)) = Z.of_nat (sealedCount m) - b2z (sealed t).
Proof.
  intros Hk. unfold sealedCount. rewrite map_filter_delete.
  destruct (sealed t) eqn:Hs; simpl.
  - assert (Hin : filter (λ kv, sealed kv.2 = true) m !! k = Some t)
      by (by apply map_lookup_filter_Some).
    rewrite map_size_delete_Some by eauto.
    assert (size (filter (λ kv, sealed kv.2 = true) m) ≠ 0%nat).
    { intros H0. apply map_size_empty_inv in H0. rewrite H0 in Hin.
      by rewrite lookup_empty in Hin. }
    lia.
  - rewrite map_size_delete_None; [lia|].
    apply map_lookup_filter_None. right. intros t' Ht'. simpl. congruence.
Qed.

Lemma sealedCount_insert_Some (m : gmap N Transaction) k t t' :
  m !! k = Some t →
  Z.of_nat (sealedCount (<[k := t']> m))
  = Z.of_nat (sealedCount m) - b2z (sealed t) + b2z (sealed t').
Proof.
  intros Hk. rewrite <- (insert_delete_eq m k t').
  rewrite sealedCount_insert_None by apply lookup_delete_eq.
  by rewrite (sealedCount_delete m k t).
Qed.

Lemma sealedCount_le_size (m : gmap N Transaction) : (sealedCount m ≤ size m)%nat.
Proof. apply map_subseteq_size, map_filter_subseteq. Qed.

Lemma sealedCount_empty : sealedCount ∅ = 0%nat.
Proof. unfold sealedCount. by rewrite map_filter_empty, map_size_empty. Qed.

Lemma wrap64_add_l a b : wrap64 (wrap64 a + b) = wrap64 (a + b).
Proof. unfold wrap64. by rewrite Z.add_mod_idemp_l. Qed.

Lemma wrap64_sub_l a b : wrap64 (wrap64 a - b) = wrap64 (a - b).
Proof. unfold wrap64. by rewrite Zminus_mod_idemp_l. Qed.

Lemma wrap64_small z : 0 ≤ z < 2 ^ 64 → wrap64 z = z.
Proof. intros. unfold wrap64. by apply Z.mod_small. Qed.

Lemma wrap64_range z : 0 ≤ wrap64 z < 2 ^ 64.
Proof. unfold wrap64. apply Z.mod_pos_bound. lia. Qed.

(** ** I2 along the operations

    Every operation but [clear] keeps the counter equal to the number of
    sealed transactions; [clear] does so through the repair made by the
    notifier. *)

Section SealedCounter.

Implicit Types s : MemoryStorage.

Lemma sealedCounterOk_le s : sealedCounterOk s → m_sealedTxsSize s ≤ tableSize s.
Proof.
  unfold sealedCounterOk, tableSize. intros ->.
  pose proof (sealedCount_le_size (m_txsTable s)).
  unfold wrap64.
  pose proof (Z.mod_le (Z.of_nat (sealedCount (m_txsTable s))) (2 ^ 64)).
  lia.
Qed.

(** A write through a pointer of the table, with the counter moved by
    the difference of the two seal flags. *)
Lemma sealedCounterOk_update s s' k t t' :
  sealedCounterOk s →
  m_txsTable s !! k = Some t →
  m_txsTable s' = <[k := t']> (m_txsTable s) →
  m_sealedTxsSize s' = wrap64 (m_sealedTxsSize s - b2z (sealed t) + b2z (sealed t')) →
  sealedCounterOk s'.
Proof.
  unfold sealedCounterOk. intros Hok Hk Htab Hcnt.
  rewrite Hcnt, Htab, Hok, (sealedCount_insert_Some _ _ t) by done.
  set (c := Z.of_nat (sealedCount (m_txsTable s))).
  replace (wrap64 c - b2z (sealed t) + b2z (sealed t'))
    with (wrap64 c + (b2z (sealed t') - b2z (sealed t))) by lia.
  rewrite wrap64_add_l. f_equal. lia.
Qed.

Lemma sealedCounterOk_same_table s s' :
  sealedCounterOk s →
  m_txsTable s' = m_txsTable s →
  m_sealedTxsSize s' = m_sealedTxsSize s →
  sealedCounterOk s'.
Proof. unfold sealedCounterOk. by intros Hok -> ->. Qed.

Lemma notify_sealedCounterOk s :
  sealedCounterOk s → sealedCounterOk (notifyUnsealedTxsSize s).
Proof.
  intros Hok. apply (sealedCounterOk_same_table s); [done|apply notify_table|].
  by apply notify_sealedTxsSize, sealedCounterOk_le.
Qed.

Lemma insertWithoutLock_sealedCounterOk tx s :
  sealed tx = false →
  sealedCounterOk s → sealedCounterOk (insertWithoutLock tx s).2.
Proof.
  intros Hfresh Hok. unfold insertWithoutLock.
  destruct (m_txsTable s !! hash tx) eqn:Hk; [done|]. simpl.
  apply notify_sealedCounterOk. unfold sealedCounterOk in *. simpl.
  rewrite sealedCount_insert_None, Hfresh by done. simpl.
  by rewrite Z.add_0_r.
Qed.

Lemma verifyAndSubmitTransaction_sealedCounterOk cfg now tx cb check lock s :
  sealed tx = false →
  sealedCounterOk s →
  sealedCounterOk (verifyAndSubmitTransaction cfg now tx cb check lock s).2.
Proof.
  intros Hfresh Hok. unfold verifyAndSubmitTransaction.
  destruct (txpoolStorageCheck tx s); try done.
  match goal with |- context [if check && _ then (_, ?x) else _] => set (s1 := x) end.
  assert (Hs1 : sealedCounterOk s1).
  { subst s1. by destruct (_ && _). }
  destruct (check && _); [done|].
  destruct (verify cfg tx); try done.
  unfold insert.
  assert (sealed (match cb with
                  | Some c => setSubmitCallback (Some c) tx
                  | None => tx
                  end) = false) by (by destruct cb).
  destruct lock; by apply insertWithoutLock_sealedCounterOk.
Qed.

Lemma removeWithoutLock_sealedCounterOk h s :
  sealedCounterOk s → sealedCounterOk (removeWithoutLock h s).2.
Proof.
  unfold removeWithoutLock, sealedCounterOk. intros Hok.
  destruct (m_txsTable s !! h) as [tx|] eqn:Hk; [|done]. simpl.
  destruct (sealed tx) eqn:Hs; simpl;
    rewrite (sealedCount_delete _ _ tx) by done; rewrite Hs; simpl.
  - rewrite Hok. apply wrap64_sub_l.
  - by rewrite Z.sub_0_r.
Qed.

Lemma markTx_sealedCounterOk b h flag s x :
  sealedCounterOk s → sealedCounterOk (markTx b h flag s x).
Proof.
  intros Hok. unfold markTx.
  destruct (m_txsTable s !! x) as [tx|] eqn:Hk; [|done].
  destruct (_ && _ && _); [done|].
  assert (Hrange : wrap64 (m_sealedTxsSize s) = m_sealedTxsSize s).
  { apply wrap64_small. rewrite Hok. apply wrap64_range. }
  destruct flag, (sealed tx) eqn:Hs; simpl;
    (eapply (sealedCounterOk_update s _ x tx); [done|done|reflexivity|]);
    simpl; rewrite Hs; simpl;
    rewrite ?Z.sub_0_r, ?Z.add_0_r, ?Z.sub_add; done.
Qed.

Lemma foldl_preserves {A} (P : MemoryStorage → Prop) (f : MemoryStorage → A → MemoryStorage) l s :
  (∀ s x, P s → P (f s x)) → P s → P (foldl f s l).
Proof. intros Hf. revert s. induction l; simpl; auto. Qed.

Lemma batchMarkTxs_sealedCounterOk hs b h flag s :
  sealedCounterOk s → sealedCounterOk (batchMarkTxs hs b h flag s).
Proof.
  intros Hok.
  assert (sealedCounterOk (batchMarkTxsWithoutLock hs b h flag s)).
  { apply notify_sealedCounterOk, foldl_preserves; [|done].
    intros. by apply markTx_sealedCounterOk. }
  unfold batchMarkTxs. by destruct flag.
Qed.

(** An insertion of a new hash: the table gains the transaction and the
    counter is not touched. *)
Lemma insertWithoutLock_new tx s :
  sealedCounterOk s →
  m_txsTable s !! hash tx = None →
  ∃ s', insertWithoutLock tx s = (StatusNone, s') ∧
        m_txsTable s' = <[hash tx := tx]> (m_txsTable s) ∧
        m_sealedTxsSize s' = m_sealedTxsSize s.
Proof.
  intros Hok Hnew. unfold insertWithoutLock. rewrite Hnew.
  eexists. split; [done|]. rewrite notify_table. split; [done|].
  rewrite notify_sealedTxsSize; [done|].
  apply sealedCounterOk_le in Hok. unfold tableSize in *. simpl.
  rewrite map_size_insert_None by done. lia.
Qed.

Lemma enforceSubmitTransaction_sealedCounterOk cfg tx s :
  sealedCounterOk s → sealedCounterOk (enforceSubmitTransaction cfg tx s).2.
Proof.
  intros Hok. unfold enforceSubmitTransaction.
  assert (Hrange : wrap64 (m_sealedTxsSize s) = m_sealedTxsSize s).
  { apply wrap64_small. rewrite Hok. apply wrap64_range. }
  destruct (decide _); [done|].
  destruct (m_txsTable s !! hash tx) as [t|] eqn:Hk.
  - destruct (sealed t) eqn:Hs; simpl.
    + destruct (batchHash t =? emptyHash)%N.
      * eapply (sealedCounterOk_update s _ (hash tx) t); [done|done|reflexivity|].
        simpl. rewrite Hs. simpl. by rewrite Z.sub_add.
      * by destruct (_ && _).
    + eapply (sealedCounterOk_update s _ (hash tx) t); [done|done|reflexivity|].
      simpl. rewrite Hs. simpl. by rewrite Z.sub_0_r.
  - destruct (insertWithoutLock_new tx s Hok Hk) as (s' & -> & Htab & Hcnt).
    unfold sealedCounterOk in *. simpl.
    rewrite Htab, insert_insert_eq, sealedCount_insert_None by done. simpl.
    rewrite Hcnt, Hok. apply wrap64_add_l.
Qed.

Lemma batchVerifyAndSubmitTransaction_sealedCounterOk cfg txs s :
  sealedCounterOk s →
  sealedCounterOk (batchVerifyAndSubmitTransaction cfg txs s).2.
Proof.
  intros Hok. unfold batchVerifyAndSubmitTransaction.
  assert (Hloop : sealedCounterOk (batchVerifyAndSubmitLoop cfg txs s).2).
  { revert s Hok. induction txs as [|[tx|] txs IH]; intros s Hok; simpl; auto.
    destruct (invalid tx); auto.
    pose proof (enforceSubmitTransaction_sealedCounterOk cfg tx s Hok) as H1.
    destruct (enforceSubmitTransaction cfg tx s) as [r s1]. simpl in H1.
    destruct r; auto. }
  destruct (batchVerifyAndSubmitLoop cfg txs s) as [[] s1]; simpl in *; auto.
  by apply notify_sealedCounterOk.
Qed.

Lemma batchImportTxs_sealedCounterOk cfg now txs s :
  Forall (λ tx, ∀ t, tx = Some t → sealed t = false) txs →
  sealedCounterOk s → sealedCounterOk (batchImportTxs cfg now txs s).
Proof.
  intros Hfresh Hok. apply notify_sealedCounterOk.
  revert s Hok. induction Hfresh as [|tx txs Htx _ IH]; intros s Hok; [done|].
  simpl. apply IH. unfold importTx. destruct tx as [t|]; [|done].
  destruct (invalid t); [done|].
  apply verifyAndSubmitTransaction_sealedCounterOk; auto.
Qed.

Lemma notifyTxResult_frame tx r s :
  m_txsTable (notifyTxResult tx r s).2 = m_txsTable s ∧
  m_sealedTxsSize (notifyTxResult tx r s).2 = m_sealedTxsSize s ∧
  m_invalidTxs (notifyTxResult tx r s).2 = m_invalidTxs s.
Proof. unfold notifyTxResult. simpl. by destruct (submitCallback tx). Qed.

Lemma notifyResults_frame rs s :
  m_txsTable (notifyResults rs s) = m_txsTable s ∧
  m_sealedTxsSize (notifyResults rs s) = m_sealedTxsSize s.
Proof.
  revert s. induction rs as [|[[t|] r] rs IH]; intros s; simpl; auto.
  destruct (IH (notifyTxResult t r s).2) as [-> ->].
  by destruct (notifyTxResult_frame t r s) as (-> & -> & _).
Qed.

Lemma batchRemoveLoop_sealedCounterOk rs s :
  sealedCounterOk s → sealedCounterOk (batchRemoveLoop rs s).2.
Proof.
  revert s. induction rs as [|r rs IH]; intros s Hok; simpl; [done|].
  pose proof (removeWithoutLock_sealedCounterOk (r_txHash r) s Hok) as H1.
  destruct (removeWithoutLock (r_txHash r) s) as [tx s1]. simpl in H1.
  specialize (IH s1 H1).
  by destruct (batchRemoveLoop rs s1) as [[ns res] s2].
Qed.

Lemma batchRemove_sealedCounterOk now b rs s :
  sealedCounterOk s → sealedCounterOk (batchRemove now b rs s).
Proof.
  intros Hok. unfold batchRemove.
  pose proof (batchRemoveLoop_sealedCounterOk rs (set_blockNumberUpdatedTime now s) Hok) as H1.
  destruct (batchRemoveLoop rs _) as [[ns res] s1]. simpl in H1.
  match goal with |- sealedCounterOk (notifyResults _ (emit _ (emit _ (notifyUnsealedTxsSize ?x)))) =>
    set (s4 := x) end.
  assert (H4 : sealedCounterOk s4).
  { subst s4. destruct (_ <? b), (_ && _); exact H1. }
  apply notify_sealedCounterOk in H4.
  destruct (notifyResults_frame res
              (emit (EvPoolNonceBatchRemove ns)
                 (emit (EvLedgerNonceBatchInsert b ns) (notifyUnsealedTxsSize s4))))
    as [E1 E2].
  by eapply sealedCounterOk_same_table; [exact H4|rewrite E1|rewrite E2].
Qed.

Lemma removeSubmittedTxWithoutLock_sealedCounterOk r n s :
  sealedCounterOk s → sealedCounterOk (removeSubmittedTxWithoutLock r n s).2.
Proof.
  intros Hok. unfold removeSubmittedTxWithoutLock.
  pose proof (removeWithoutLock_sealedCounterOk (r_txHash r) s Hok) as H1.
  destruct (removeWithoutLock (r_txHash r) s) as [[t|] s1]; simpl in *; [|done].
  destruct n; [|done].
  pose proof (notifyTxResult_frame t r s1) as (Ht & Hc & _).
  destruct (notifyTxResult t r s1) as [t' s2]. simpl in *.
  by eapply sealedCounterOk_same_table.
Qed.

Lemma removeInvalidTxs_sealedCounterOk lock s :
  sealedCounterOk s → sealedCounterOk (removeInvalidTxs lock s).
Proof.
  intros Hok. unfold removeInvalidTxs. destruct (decide _); [done|].
  eapply sealedCounterOk_same_table; [|reflexivity..].
  apply notify_sealedCounterOk, foldl_preserves; [|done].
  intros. by apply removeSubmittedTxWithoutLock_sealedCounterOk.
Qed.

Lemma stageInvalid_sealedCounterOk tx s :
  sealedCounterOk s → sealedCounterOk (stageInvalid tx s).
Proof. done. Qed.

(** The fetch seals a transaction: the counter moves only if it was not
    sealed before. *)
Lemma fetchSeal_sealedCounterOk k tx s :
  sealedCounterOk s →
  m_txsTable s !! k = Some tx →
  sealedCounterOk
    (storeTx k (sealedByFetch tx) (if negb (sealed tx) then incSealed s else s)).
Proof.
  intros Hok Hk.
  assert (Hrange : wrap64 (m_sealedTxsSize s) = m_sealedTxsSize s).
  { apply wrap64_small. rewrite Hok. apply wrap64_range. }
  destruct (sealed tx) eqn:Hs; simpl;
    (eapply (sealedCounterOk_update s _ k tx); [done|done|reflexivity|]);
    simpl; rewrite Hs; simpl; by rewrite ?Z.sub_add, ?Z.sub_0_r.
Qed.

Lemma dropCallback_sealedCounterOk k tx s :
  sealedCounterOk s →
  m_txsTable s !! k = Some tx →
  sealedCounterOk (storeTx k (takeSubmitCallback tx).2 s).
Proof.
  intros Hok Hk.
  eapply (sealedCounterOk_update s _ k tx); [done|done|reflexivity|].
  simpl. rewrite Z.sub_add. symmetry. apply wrap64_small.
  rewrite Hok. apply wrap64_range.
Qed.

(** The turn does one of four things. *)
Lemma batchFetchTxsTurn_outcome cfg now limit avoid dup k txs sys s :
  FetchOutcome dup k txs sys s
    (batchFetchTxsTurn cfg now limit avoid dup k txs sys s).2.1.1
    (batchFetchTxsTurn cfg now limit avoid dup k txs sys s).2.1.2
    (batchFetchTxsTurn cfg now limit avoid dup k txs sys s).2.2.
Proof.
  unfold batchFetchTxsTurn.
  destruct (m_txsTable s !! k) as [tx|] eqn:Hk; [|constructor].
  destruct (decide _) as [|Hnin]; [constructor|].
  destruct (dup && sealed tx) eqn:Hdup; [constructor|].
  destruct (expired now tx s); [by apply fetch_stage|].
  destruct (submittedToChain cfg tx); try (by constructor);
    (destruct (match avoid with Some _ => _ | None => _ end); [constructor|]);
    destruct (systemTx tx); simpl; apply fetch_emit; try done; unfold hashesOf;
    rewrite ?app_assoc, !fmap_app; simpl;
    by rewrite 1?(Permutation_app_comm (md_hash <$> txs)), <- 1?Permutation_cons_append.
Qed.

(** An invariant of the turns is an invariant of the loop. *)
Lemma batchFetchTxsLoop_ind cfg now limit avoid dup
    (P : list N → list TransactionMetaData → list TransactionMetaData → MemoryStorage → Prop)
    (Q : list TransactionMetaData → list TransactionMetaData → MemoryStorage → Prop) :
  (∀ keys txs sys s, P keys txs sys s → Q txs sys s) →
  (∀ k keys txs sys s txs' sys' s',
     P (k :: keys) txs sys s →
     FetchOutcome dup k txs sys s txs' sys' s' →
     P keys txs' sys' s') →
  ∀ keys txs sys s,
    P keys txs sys s →
    Q (batchFetchTxsLoop cfg now limit avoid dup keys txs sys s).1.1
      (batchFetchTxsLoop cfg now limit avoid dup keys txs sys s).1.2
      (batchFetchTxsLoop cfg now limit avoid dup keys txs sys s).2.
Proof.
  intros Hend Hturn keys. induction keys as [|k keys IH]; intros txs sys s HP.
  { by apply (Hend []). }
  cbn [batchFetchTxsLoop].
  pose proof (batchFetchTxsTurn_outcome cfg now limit avoid dup k txs sys s) as Hout.
  destruct (batchFetchTxsTurn cfg now limit avoid dup k txs sys s)
    as [stop [[txs' sys'] s']].
  simpl in Hout. pose proof (Hturn _ _ _ _ _ _ _ _ HP Hout) as HP'.
  destruct stop; [by apply (Hend keys)|by apply IH].
Qed.

Lemma batchFetchTxsLoop_sealedCounterOk cfg now limit avoid dup keys txs sys s :
  sealedCounterOk s →
  sealedCounterOk
    (batchFetchTxsLoop cfg now limit avoid dup keys txs sys s).2.
Proof.
  apply (batchFetchTxsLoop_ind cfg now limit avoid dup
           (λ _ _ _ s, sealedCounterOk s) (λ _ _ s, sealedCounterOk s)); [done|].
  intros k ks txs0 sys0 s0 txs' sys' s' Hok Hout.
  destruct Hout as [|tx Hk _ _|tx Hk _ _|tx txs' sys' Hk _ _ _]; try done.
  - by apply stageInvalid_sealedCounterOk, dropCallback_sealedCounterOk.
  - by apply fetchSeal_sealedCounterOk.
Qed.

Lemma batchFetchTxs_sealedCounterOk cfg now txs sys limit avoid dup s :
  sealedCounterOk s →
  sealedCounterOk (batchFetchTxs cfg now txs sys limit avoid dup s).2.
Proof.
  intros Hok. unfold batchFetchTxs.
  pose proof (batchFetchTxsLoop_sealedCounterOk cfg now limit avoid dup
                (tableKeys s) txs sys s Hok) as H1.
  destruct (batchFetchTxsLoop _ _ _ _ _ _ _ _ _) as [[txs' sys'] s1]. simpl in *.
  by apply removeInvalidTxs_sealedCounterOk, notify_sealedCounterOk.
Qed.

Lemma cleanUpLoop_frame cfg now keys n s :
  m_txsTable (cleanUpLoop cfg now keys n s) = m_txsTable s ∧
  m_sealedTxsSize (cleanUpLoop cfg now keys n s) = m_sealedTxsSize s ∧
  m_blockNumber (cleanUpLoop cfg now keys n s) = m_blockNumber s ∧
  m_txsExpirationTime (cleanUpLoop cfg now keys n s) = m_txsExpirationTime s.
Proof.
  revert n s. induction keys as [|k keys IH]; intros n s; [done|].
  simpl. destruct (n <=? _); [|done].
  destruct (m_txsTable s !! k) as [tx|]; [|apply IH].
  destruct (bool_decide _); [apply IH|].
  destruct (_ && _); [apply IH|].
  destruct (expired now tx s); [|apply IH].
  destruct (IH (n + 1) (stageInvalid tx s)) as (-> & -> & -> & ->). done.
Qed.

Lemma cleanUpExpiredTransactions_sealedCounterOk cfg now s :
  sealedCounterOk s → sealedCounterOk (cleanUpExpiredTransactions cfg now s).
Proof.
  intros Hok. unfold cleanUpExpiredTransactions.
  assert (sealedCounterOk (removeInvalidTxs false (cleanUpLoop cfg now (tableKeys s) 0 s))).
  { apply removeInvalidTxs_sealedCounterOk.
    destruct (cleanUpLoop_frame cfg now (tableKeys s) 0 s) as (E1 & E2 & _).
    by eapply sealedCounterOk_same_table. }
  unfold reaperScan.
  destruct (m_txsCleanUpSwitch s) as [[]|]; try done; by destruct (_ =? 0).
Qed.

(** Loops that write through the pointers of the table. *)
Lemma lookup_foldl_alter (g : Transaction → Transaction) l (m : gmap N Transaction) k :
  (∀ t, g (g t) = g t) →
  foldl (λ m k, alter g k m) m l !! k
  = if decide (k ∈ l) then g <$> m !! k else m !! k.
Proof.
  intros Hidem. revert m. induction l as [|a l IH]; intros m; cbn [foldl].
  - by rewrite decide_False by apply not_elem_of_nil.
  - rewrite IH. destruct (decide (k = a)) as [->|Hne].
    + rewrite lookup_alter_eq, (decide_True (P := a ∈ a :: l)) by apply list_elem_of_here.
      destruct (decide _); [|done].
      destruct (m !! a); simpl; by rewrite ?Hidem.
    + rewrite lookup_alter_ne by done.
      destruct (decide (k ∈ l)).
      * by rewrite decide_True by by apply list_elem_of_further.
      * rewrite decide_False; [done|]. rewrite elem_of_cons. by intros [|].
Qed.

Lemma foldl_table_alter (step : MemoryStorage → N → MemoryStorage) g l s :
  (∀ s k, m_txsTable (step s k) = alter g k (m_txsTable s)) →
  m_txsTable (foldl step s l) = foldl (λ m k, alter g k m) (m_txsTable s) l.
Proof.
  intros Hstep. revert s. induction l as [|a l IH]; intros s; simpl; [done|].
  by rewrite IH, Hstep.
Qed.

Lemma alter_lookup_insert (g : Transaction → Transaction) k (m : gmap N Transaction) :
  match m !! k with Some t => <[k := g t]> m | None => m end = alter g k m.
Proof.
  apply map_eq. intros j. destruct (decide (j = k)) as [->|Hne].
  - rewrite lookup_alter_eq. destruct (m !! k) eqn:E; simpl.
    + by rewrite lookup_insert_eq.
    + by rewrite E.
  - rewrite lookup_alter_ne by done. destruct (m !! k); [|done].
    by rewrite lookup_insert_ne.
Qed.

Lemma markAllTx_table flag s k :
  m_txsTable (markAllTx flag s k) = alter (markedAll flag) k (m_txsTable s).
Proof.
  rewrite <- alter_lookup_insert. unfold markAllTx, markedAll.
  destruct (m_txsTable s !! k); [|done]. by destruct flag.
Qed.

Lemma markedAll_idem flag t : markedAll flag (markedAll flag t) = markedAll flag t.
Proof. by destruct flag. Qed.

Lemma elem_of_tableKeys s k : k ∈ tableKeys s ↔ is_Some (m_txsTable s !! k).
Proof.
  unfold tableKeys. rewrite list_elem_of_fmap. split.
  - intros ([k' t] & -> & Hin). apply elem_of_map_to_list in Hin. eauto.
  - intros [t Ht]. exists (k, t). split; [done|]. by apply elem_of_map_to_list.
Qed.

(** After the loop of [batchMarkAllTxs] every transaction has been
    written. *)
Lemma batchMarkAllTxs_table flag s :
  m_txsTable (batchMarkAllTxs flag s) = markedAll flag <$> m_txsTable s.
Proof.
  unfold batchMarkAllTxs. rewrite notify_table.
  transitivity (m_txsTable (foldl (markAllTx flag) s (tableKeys s))).
  { by destruct flag. }
  rewrite (foldl_table_alter _ (markedAll flag)) by apply markAllTx_table.
  apply map_eq. intros k.
  rewrite lookup_foldl_alter by apply markedAll_idem.
  rewrite lookup_fmap. destruct (decide _) as [|Hnot]; [done|].
  rewrite elem_of_tableKeys in Hnot.
  destruct (m_txsTable s !! k); [|done]. exfalso. eauto.
Qed.

Lemma sealedCount_all (m : gmap N Transaction) :
  map_Forall (λ _ t, sealed t = true) m → sealedCount m = size m.
Proof.
  intros Hall. unfold sealedCount. f_equal. apply map_filter_id.
  intros k t Hk. by apply (Hall k).
Qed.

Lemma sealedCount_none (m : gmap N Transaction) :
  map_Forall (λ _ t, sealed t = false) m → sealedCount m = 0%nat.
Proof.
  intros Hnone. unfold sealedCount.
  apply map_size_empty_iff, map_empty. intros k.
  apply map_lookup_filter_None. right. intros t Hk. simpl.
  by rewrite (Hnone k t Hk).
Qed.

(** [batchMarkAllTxs] sets the counter outright; it needs no invariant
    before, only a table whose size fits a [size_t]. *)
Lemma batchMarkAllTxs_sealedCounterOk flag s :
  tableSize s < 2 ^ 64 →
  sealedCounterOk (batchMarkAllTxs flag s).
Proof.
  intros Hfit. unfold sealedCounterOk.
  rewrite batchMarkAllTxs_table.
  unfold batchMarkAllTxs.
  set (s1 := foldl (markAllTx flag) s (tableKeys s)).
  assert (Hsz : tableSize s1 = tableSize s).
  { unfold tableSize. subst s1.
    pose proof (batchMarkAllTxs_table flag s) as Ht.
    unfold batchMarkAllTxs in Ht. rewrite notify_table in Ht.
    replace (m_txsTable (foldl (markAllTx flag) s (tableKeys s)))
      with (markedAll flag <$> m_txsTable s) by (by destruct flag).
    by rewrite map_size_fmap. }
  destruct flag.
  - rewrite sealedCount_all.
    + rewrite map_size_fmap, notify_sealedTxsSize.
      * simpl. rewrite Hsz. symmetry. apply wrap64_small.
        unfold tableSize in *. lia.
      * simpl. change (tableSize s1 ≤ tableSize s1). lia.
    + intros k t. rewrite lookup_fmap. destruct (m_txsTable s !! k); [|done].
      simpl. by intros [= <-].
  - rewrite sealedCount_none.
    + rewrite notify_sealedTxsSize; simpl; [done|]. unfold tableSize. lia.
    + intros k t. rewrite lookup_fmap. destruct (m_txsTable s !! k); [|done].
      simpl. by intros [= <-].
Qed.

(** [clear] does not write the counter; with a notifier registered the
    repair of [unSealedTxsSizeWithoutLock] brings it back to zero. *)
Lemma clear_sealedCounterOk_notifier s :
  m_unsealedTxsNotifier s = true →
  0 ≤ m_sealedTxsSize s →
  sealedCounterOk (clear s).
Proof.
  intros Hn Hpos. unfold sealedCounterOk, clear.
  rewrite notify_table. simpl. rewrite sealedCount_empty.
  unfold notifyUnsealedTxsSize, unSealedTxsSizeWithoutLock. simpl. rewrite Hn.
  unfold tableSize. simpl. rewrite map_size_empty.
  change (Z.of_nat 0) with 0.
  destruct (Z.ltb_spec 0 (m_sealedTxsSize s)); simpl; [done|].
  replace (m_sealedTxsSize s) with 0 by lia. done.
Qed.

Lemma clear_sealedTxsSize_no_notifier s :
  m_unsealedTxsNotifier s = false →
  m_sealedTxsSize (clear s) = m_sealedTxsSize s ∧ m_txsTable (clear s) = ∅.
Proof. intros Hn. unfold clear, notifyUnsealedTxsSize. simpl. by rewrite Hn. Qed.

End SealedCounter.

(** Operations that write other fields of the transactions. *)
Lemma sealedCount_alter (g : Transaction → Transaction) k (m : gmap N Transaction) :
  (∀ t, sealed (g t) = sealed t) →
  sealedCount (alter g k m) = sealedCount m.
Proof.
  intros Hg. rewrite <- alter_lookup_insert.
  destruct (m !! k) as [t|] eqn:Hk; [|done].
  apply Nat2Z.inj. rewrite (sealedCount_insert_Some m k t) by done.
  rewrite Hg. lia.
Qed.

Lemma sealedCount_foldl_alter (g : Transaction → Transaction) l (m : gmap N Transaction) :
  (∀ t, sealed (g t) = sealed t) →
  sealedCount (foldl (λ m k, alter g k m) m l) = sealedCount m.
Proof.
  intros Hg. revert m. induction l as [|a l IH]; intros m; simpl; [done|].
  by rewrite IH, sealedCount_alter.
Qed.

Lemma remove_sealedCounterOk h s :
  sealedCounterOk s → sealedCounterOk (remove h s).2.
Proof.
  intros Hok. unfold remove.
  pose proof (removeWithoutLock_sealedCounterOk h s Hok) as H1.
  destruct (removeWithoutLock h s) as [tx s1]. by apply notify_sealedCounterOk.
Qed.

(** ** I2 and [clear] (C1) *)

(** X28.  I2 is kept by every operation that inserts, removes, seals or
    unseals; by [clear] it is kept when a notifier is registered. *)
Lemma sealed_counter_preserved (cfg : TxPoolConfig) (s : MemoryStorage) :
  sealedCounterOk s →
  (∀ now tx cb check lock, sealed tx = false →
     sealedCounterOk (verifyAndSubmitTransaction cfg now tx cb check lock s).2) ∧
  (∀ now txs, Forall (λ tx, ∀ t, tx = Some t → sealed t = false) txs →
     sealedCounterOk (batchImportTxs cfg now txs s)) ∧
  (∀ txs, sealedCounterOk (batchVerifyAndSubmitTransaction cfg txs s).2) ∧
  (∀ now txs sys limit avoid dup,
     sealedCounterOk (batchFetchTxs cfg now txs sys limit avoid dup s).2) ∧
  (∀ hs b h flag, sealedCounterOk (batchMarkTxs hs b h flag s)) ∧
  (∀ flag, tableSize s < 2 ^ 64 → sealedCounterOk (batchMarkAllTxs flag s)) ∧
  (∀ h, sealedCounterOk (remove h s).2) ∧
  (∀ now b rs, sealedCounterOk (batchRemove now b rs s)) ∧
  (∀ now, sealedCounterOk (cleanUpExpiredTransactions cfg now s)) ∧
  (m_unsealedTxsNotifier s = true → sealedCounterOk (clear s)).
Proof.
  intros Hok. repeat split; intros.
  - by apply verifyAndSubmitTransaction_sealedCounterOk.
  - by apply batchImportTxs_sealedCounterOk.
  - by apply batchVerifyAndSubmitTransaction_sealedCounterOk.
  - by apply batchFetchTxs_sealedCounterOk.
  - by apply batchMarkTxs_sealedCounterOk.
  - by apply batchMarkAllTxs_sealedCounterOk.
  - by apply remove_sealedCounterOk.
  - by apply batchRemove_sealedCounterOk.
  - by apply cleanUpExpiredTransactions_sealedCounterOk.
  - apply clear_sealedCounterOk_notifier; [done|].
    unfold sealedCounterOk in Hok. rewrite Hok. apply wrap64_range.
Qed.

Lemma reachable_poolNoNotifier : reachable cfg2 poolNoNotifier.
Proof. apply reach_fetch, reach_submit; [apply reach_init|done]. Qed.

(** C1.  A reachable pool with no notifier registered holds one sealed
    transaction, and its counter is right; [clear] empties the table and
    leaves the counter at one. *)
Theorem clear_keeps_stale_sealed_counter :
  reachable cfg2 poolNoNotifier ∧
  sealedCounterOk poolNoNotifier ∧
  m_sealedTxsSize poolNoNotifier = 1 ∧
  m_txsTable (clear poolNoNotifier) = ∅ ∧
  m_sealedTxsSize (clear poolNoNotifier) = 1 ∧
  ¬ sealedCounterOk (clear poolNoNotifier).
Proof.
  assert (Hc : m_sealedTxsSize (clear poolNoNotifier) = 1) by (vm_compute; reflexivity).
  assert (Ht : m_txsTable (clear poolNoNotifier) = ∅) by (vm_compute; reflexivity).
  split; [apply reachable_poolNoNotifier|].
  repeat split; try (vm_compute; reflexivity).
  unfold sealedCounterOk. rewrite Hc, Ht, sealedCount_empty. by vm_compute.
Qed.

(** What the stale counter does next: a transaction submitted after the
    [clear] is in the table, unsealed, and the pool reports no unsealed
    transaction. *)
Lemma stale_counter_hides_unsealed_tx :
  let s := (verifyAndSubmitTransaction cfg2 2 txBB (Some 2%N) true true
              (clear poolNoNotifier)).2 in
  tableSize s = 1 ∧ sealedCount (m_txsTable s) = 0%nat ∧
  (unSealedTxsSizeWithoutLock s).1 = 0.
Proof. by vm_compute. Qed.

(** ** Enforced insertion (C5) *)

(** A transaction the fetch has sealed is handed to the proposal
    [(7, 0xDE)], although its stored batch identity is another one. *)
Lemma enforce_fetched_tx_taken_over :
  ¬ enforceSealedAsStated cfg2 (proposedAA 7 222) poolFetchedA.
Proof.
  intros Hclaim.
  destruct (Hclaim (setBatchHash emptyHash (setBatchId noBatchId (setSealed true
                      (setSubmitCallback (Some 1%N) txAA)))))
    as [_ Hdiff]; try (vm_compute; done).
  assert (Hne : ¬ (noBatchId = 7 ∧ emptyHash = 222%N)) by (by intros [? _]).
  specialize (Hdiff Hne). vm_compute in Hdiff. discriminate.
Qed.

(** C5, amended.  For a transaction that is not on chain and is in the
    table, sealed: under the same [(batchId, batchHash)] the answer is
    [None]; under another pair the answer is [AlreadyInTxPool] and nothing
    changes, provided the stored [batchHash] is not the empty hash; a sealed
    transaction whose stored [batchHash] is empty is handed to the proposal
    and the answer is [None]. *)
Theorem enforceSubmitTransaction_sealed
    (cfg : TxPoolConfig) (_tx t : Transaction) (s : MemoryStorage) :
  submittedToChain cfg _tx ≠ NonceCheckFail →
  m_txsTable s !! hash _tx = Some t →
  sealed t = true →
  (batchId t = batchId _tx ∧ batchHash t = batchHash _tx →
   (enforceSubmitTransaction cfg _tx s).1 = StatusNone) ∧
  (¬ (batchId t = batchId _tx ∧ batchHash t = batchHash _tx) →
   batchHash t ≠ emptyHash →
   enforceSubmitTransaction cfg _tx s = (AlreadyInTxPool, s)) ∧
  (batchHash t = emptyHash →
   (enforceSubmitTransaction cfg _tx s).1 = StatusNone ∧
   m_txsTable (enforceSubmitTransaction cfg _tx s).2 !! hash _tx
   = Some (setBatchHash (batchHash _tx) (setBatchId (batchId _tx) t))).
Proof.
  intros Hchain Hk Hs. unfold enforceSubmitTransaction.
  rewrite decide_False by done. rewrite Hk, Hs. simpl.
  destruct (N.eqb_spec (batchHash t) emptyHash) as [He|Hne].
  - repeat split; try done. simpl. apply lookup_insert_eq.
  - split; [|split; [|done]].
    + intros [-> ->]. by rewrite Z.eqb_refl, N.eqb_refl.
    + intros Hdiff _.
      destruct (Z.eqb_spec (batchId t) (batchId _tx));
        destruct (N.eqb_spec (batchHash t) (batchHash _tx)); simpl; try done.
      exfalso. by apply Hdiff.
Qed.

(** [txAA] sealed under [(7, 0xDE)] is refused to the proposal [(8, 0xDF)]. *)
Lemma enforceSubmitTransaction_sealed_witness :
  enforceSubmitTransaction cfg2 (proposedAA 8 223) poolSealedA
  = (AlreadyInTxPool, poolSealedA).
Proof.
  assert (Hk : m_txsTable poolSealedA !! hash (proposedAA 8 223)
               = Some (setBatchHash 222%N (setBatchId 7 (setSealed true
                         (setBatchHash emptyHash (setBatchId noBatchId (setSealed true
                            (setSubmitCallback (Some 1%N) txAA))))))))
    by (vm_compute; reflexivity).
  apply (enforceSubmitTransaction_sealed cfg2 (proposedAA 8 223) _ poolSealedA
           ltac:(vm_compute; discriminate) Hk ltac:(reflexivity)).
  - vm_compute. by intros [? _].
  - vm_compute. discriminate.
Defined.

(** ** Seal-flag transitions (C3) *)

Lemma markTx_table b h flag s x :
  m_txsTable (markTx b h flag s x) = alter (marked b h flag) x (m_txsTable s).
Proof.
  rewrite <- alter_lookup_insert. unfold markTx, marked.
  destruct (m_txsTable s !! x) as [tx|] eqn:Hk; [|done].
  destruct flag; simpl.
  - rewrite !andb_false_r. by destruct (sealed tx).
  - rewrite !andb_true_r.
    destruct ((negb (batchId tx =? b) || negb (batchHash tx =? h)%N) && sealed tx) eqn:E.
    + by rewrite insert_id.
    + by destruct (sealed tx).
Qed.

Lemma marked_idem b h flag t : marked b h flag (marked b h flag t) = marked b h flag t.
Proof.
  unfold marked. destruct flag; [done|].
  destruct ((negb (batchId t =? b) || negb (batchHash t =? h)%N) && sealed t) eqn:E.
  - by rewrite E.
  - simpl. by rewrite andb_false_r.
Qed.

Lemma batchMarkTxs_lookup hs b h flag s x :
  m_txsTable (batchMarkTxs hs b h flag s) !! x
  = if decide (x ∈ hs) then marked b h flag <$> m_txsTable s !! x
    else m_txsTable s !! x.
Proof.
  transitivity (m_txsTable (batchMarkTxsWithoutLock hs b h flag s) !! x).
  { unfold batchMarkTxs. by destruct flag. }
  unfold batchMarkTxsWithoutLock. rewrite notify_table.
  rewrite (foldl_table_alter _ (marked b h flag)) by (intros; apply markTx_table).
  apply lookup_foldl_alter, marked_idem.
Qed.

(** [txAA], sealed under [(7, 0xDE)] and unsealed, still has the batch id 7. *)
Lemma unseal_keeps_batch_fields :
  ¬ unsealClearsAsStated [170%N] 7 222%N poolSealedA.
Proof.
  intros Hclaim.
  destruct (Hclaim) with (x := 170%N) as (t' & Hl & _ & Hb & _).
  - constructor; [|constructor]. eexists. by vm_compute.
  - by apply list_elem_of_here.
  - vm_compute in Hl. injection Hl as <-. discriminate Hb.
Qed.

(** What the unsealing loop does, in general: after
    [batchMarkTxs(H, b, h, false)] on hashes that are all in the table and
    sealed under [(b, h)], each of them is unsealed and is otherwise the
    transaction it was; the loop does not write [batchId] and [batchHash]. *)
Theorem batchMarkTxs_unseal_keeps_batch
    (hs : list N) (b : Z) (h : N) (s : MemoryStorage) :
  Forall (sealedUnder s b h) hs →
  ∀ x, x ∈ hs →
       ∃ t, m_txsTable s !! x = Some t ∧
            m_txsTable (batchMarkTxs hs b h false s) !! x = Some (setSealed false t) ∧
            sealed (setSealed false t) = false ∧
            batchId (setSealed false t) = b ∧
            batchHash (setSealed false t) = h.
Proof.
  intros Hall x Hx. rewrite Forall_forall in Hall.
  destruct (Hall x Hx) as (t & Hk & Hs & Hb & Hh).
  exists t. split; [done|]. split; [|by simpl].
  rewrite batchMarkTxs_lookup, decide_True, Hk by done. simpl. f_equal.
  unfold marked. by rewrite Hb, Hh, Z.eqb_refl, N.eqb_refl.
Qed.

(** On the pool that holds [txAA] sealed under [(7, 0xDE)]. *)
Lemma batchMarkTxs_unseal_witness :
  ∃ t, m_txsTable poolSealedA !! 170%N = Some t ∧
       m_txsTable (batchMarkTxs [170%N] 7 222%N false poolSealedA) !! 170%N
       = Some (setSealed false t) ∧
       sealed (setSealed false t) = false ∧
       batchId (setSealed false t) = 7 ∧
       batchHash (setSealed false t) = 222%N.
Proof.
  apply (batchMarkTxs_unseal_keeps_batch [170%N] 7 222%N poolSealedA).
  - constructor; [|constructor]. eexists. by vm_compute.
  - by apply list_elem_of_here.
Defined.

(** C3.  [txAA] is in a reachable pool, sealed under [(7, 0xDE)].
    [batchMarkTxs(.., 7, 0xDE, false)] clears its flag and leaves
    [batchId = 7] and [batchHash = 0xDE], where P4 has the two fields cleared
    and where [batchMarkAllTxs(false)] does clear them.  The pair that is left
    is read again: [batchMarkAllTxs(true)] seals the transaction without
    writing the fields, after which the proposal [(8, 0xDF)] is refused with
    [AlreadyInTxPool] and the reaper keeps the expired transaction as one
    sealed for block 7; after an unsealing that clears the fields the same
    proposal is accepted and the reaper removes the transaction. *)
Theorem unseal_leaves_stale_batch_identity :
  reachable cfg2 poolSealedA ∧
  sealedUnder poolSealedA 7 222 170 ∧
  ¬ unsealClearsAsStated [170%N] 7 222%N poolSealedA ∧
  (∃ t, m_txsTable poolUnsealedA !! 170%N = Some t ∧
        sealed t = false ∧ batchId t = 7 ∧ batchHash t = 222%N) ∧
  (∃ t, m_txsTable (batchMarkAllTxs false poolSealedA) !! 170%N = Some t ∧
        sealed t = false ∧ batchId t = noBatchId ∧ batchHash t = emptyHash) ∧
  (∃ t, m_txsTable poolResealedA !! 170%N = Some t ∧
        sealed t = true ∧ batchId t = 7 ∧ batchHash t = 222%N) ∧
  (enforceSubmitTransaction cfg2 (proposedAA 8 223) poolResealedA).1 = AlreadyInTxPool ∧
  (enforceSubmitTransaction cfg2 (proposedAA 8 223) poolResealedCleared).1 = StatusNone ∧
  tableSize (cleanUpExpiredTransactions cfg2 2000 poolResealedA) = 1 ∧
  tableSize (cleanUpExpiredTransactions cfg2 2000 poolResealedCleared) = 0.
Proof.
  split.
  { apply reach_mark, reach_fetch, reach_submit; [apply reach_init|done]. }
  split; [eexists; by vm_compute|].
  split; [exact unseal_keeps_batch_fields|].
  split; [eexists; by vm_compute|].
  split; [eexists; by vm_compute|].
  split; [eexists; by vm_compute|].
  repeat split; by vm_compute.
Qed.

(** ** Peer knowledge (C9) *)

Lemma markKnown_table p s x :
  m_txsTable (markKnown p s x) = alter (appendKnownNode p) x (m_txsTable s).
Proof.
  rewrite <- alter_lookup_insert. unfold markKnown.
  by destruct (m_txsTable s !! x).
Qed.

Lemma appendKnownNode_idem p t :
  appendKnownNode p (appendKnownNode p t) = appendKnownNode p t.
Proof.
  unfold appendKnownNode. simpl. f_equal. set_solver.
Qed.

Lemma collectUnknown_table hs s :
  m_txsTable (collectUnknown hs s).2 = m_txsTable s.
Proof.
  revert s. induction hs as [|x hs IH]; intros s; simpl; [done|].
  destruct (bool_decide _); [apply IH|].
  destruct (bool_decide _); [apply IH|].
  specialize (IH (set_missedTxs ({[x]} ∪ m_missedTxs s) s)).
  by destruct (collectUnknown hs _).
Qed.

Lemma filterUnknownTxs_lookup cfg hs p s x :
  m_txsTable (filterUnknownTxs cfg hs p s).2 !! x
  = if decide (x ∈ hs) then appendKnownNode p <$> m_txsTable s !! x
    else m_txsTable s !! x.
Proof.
  unfold filterUnknownTxs.
  pose proof (collectUnknown_table hs (foldl (markKnown p) s hs)) as Hc.
  destruct (collectUnknown hs _) as [u s2]. simpl in *.
  transitivity (m_txsTable s2 !! x); [by destruct (_ <=? _)|].
  rewrite Hc, (foldl_table_alter _ (appendKnownNode p)) by (intros; apply markKnown_table).
  apply lookup_foldl_alter, appendKnownNode_idem.
Qed.

Lemma filterUnknownTxs_sealedCounterOk cfg hs p s :
  sealedCounterOk s → sealedCounterOk (filterUnknownTxs cfg hs p s).2.
Proof.
  unfold sealedCounterOk, filterUnknownTxs. intros Hok.
  pose proof (collectUnknown_table hs (foldl (markKnown p) s hs)) as Hc.
  assert (Hm : ∀ hs0 s0, m_sealedTxsSize (collectUnknown hs0 s0).2 = m_sealedTxsSize s0).
  { induction hs0 as [|x hs0 IH]; intros s0; simpl; [done|].
    destruct (bool_decide _); [apply IH|]. destruct (bool_decide _); [apply IH|].
    specialize (IH (set_missedTxs ({[x]} ∪ m_missedTxs s0) s0)).
    by destruct (collectUnknown hs0 _). }
  specialize (Hm hs (foldl (markKnown p) s hs)).
  assert (Hf : m_sealedTxsSize (foldl (markKnown p) s hs) = m_sealedTxsSize s).
  { apply (foldl_preserves (λ st, m_sealedTxsSize st = m_sealedTxsSize s)); [|done].
    intros st x. unfold markKnown. by destruct (m_txsTable st !! x). }
  destruct (collectUnknown hs _) as [u s2]. simpl in *.
  transitivity (m_sealedTxsSize s2); [by destruct (_ <=? _)|].
  replace (m_txsTable (if poolLimit cfg <=? Z.of_nat (size (m_missedTxs s2))
                       then set_missedTxs ∅ s2 else s2))
    with (m_txsTable s2) by (by destruct (_ <=? _)).
  rewrite Hm, Hf, Hc, Hok.
  rewrite (foldl_table_alter _ (appendKnownNode p)) by (intros; apply markKnown_table).
  by rewrite sealedCount_foldl_alter.
Qed.

(** C9.  If [filterUnknownTxs(H, p)] returns [U], every hash of [H] that is
    not in [U] and is in the table has [p] among its known nodes. *)
Theorem filterUnknownTxs_marks_peer
    (cfg : TxPoolConfig) (hs : list N) (p : N) (s : MemoryStorage)
    (x : N) (t : Transaction) :
  x ∈ hs →
  x ∉ (filterUnknownTxs cfg hs p s).1 →
  m_txsTable (filterUnknownTxs cfg hs p s).2 !! x = Some t →
  p ∈ knownNodes t.
Proof.
  intros Hx _. rewrite filterUnknownTxs_lookup, decide_True by done.
  destruct (m_txsTable s !! x) as [t0|]; [|done].
  simpl. intros [= <-]. simpl. set_solver.
Qed.

(** Scenario S6: the peer 1 advertises [0xAA] and [0xBB] to a pool that
    holds [0xAA]. *)
Lemma filterUnknownTxs_witness :
  (1%N : N) ∈ knownNodes (appendKnownNode 1 (setSubmitCallback (Some 1%N) txAA)).
Proof.
  apply (filterUnknownTxs_marks_peer cfg2 [170%N; 187%N] 1%N poolA 170%N).
  - by apply list_elem_of_here.
  - vm_compute. intros H. apply list_elem_of_In in H. simpl in H. intuition discriminate.
  - vm_compute. reflexivity.
Defined.

(** ** Broadcast fetch (C10) *)

Section FetchNewTxs.

Implicit Types s : MemoryStorage.

(** What the loop returns beyond [acc], and what it leaves in the table. *)
Lemma fetchNewTxsLoop_spec limit keys acc s :
  NoDup keys →
  ∃ new,
    (fetchNewTxsLoop limit keys acc s).1 = acc ++ new ∧
    (∀ t', t' ∈ new →
       ∃ k t, k ∈ keys ∧ m_txsTable s !! k = Some t ∧ synced t = false ∧
              t' = setSynced true t ∧
              m_txsTable (fetchNewTxsLoop limit keys acc s).2 !! k = Some t') ∧
    (∀ k, k ∉ keys →
       m_txsTable (fetchNewTxsLoop limit keys acc s).2 !! k = m_txsTable s !! k).
Proof.
  intros Hnd. revert acc s.
  induction Hnd as [|k keys Hk Hnd IH]; intros acc s; simpl.
  { exists []. rewrite app_nil_r. split; [done|]. split; [|done].
    intros t' Ht'. by apply not_elem_of_nil in Ht'. }
  assert (Hskip : ∃ new,
    (fetchNewTxsLoop limit keys acc s).1 = acc ++ new ∧
    (∀ t', t' ∈ new →
       ∃ k0 t, k0 ∈ k :: keys ∧ m_txsTable s !! k0 = Some t ∧ synced t = false ∧
              t' = setSynced true t ∧
              m_txsTable (fetchNewTxsLoop limit keys acc s).2 !! k0 = Some t') ∧
    (∀ k0, k0 ∉ k :: keys →
       m_txsTable (fetchNewTxsLoop limit keys acc s).2 !! k0 = m_txsTable s !! k0)).
  { destruct (IH acc s) as (new & Hr & Hnew & Hframe). exists new.
    split; [done|]. split.
    - intros t' Ht'. destruct (Hnew t' Ht') as (k0 & t & Hin & ?).
      exists k0, t. split; [by apply list_elem_of_further|done].
    - intros k0 Hk0. apply Hframe. intros ?. apply Hk0. by apply list_elem_of_further. }
  destruct (m_txsTable s !! k) as [tx|] eqn:Htx; [|exact Hskip].
  destruct (synced tx) eqn:Hsy; [exact Hskip|]. clear Hskip.
  destruct (limit <=? _).
  - exists [setSynced true tx]. simpl. split; [done|]. split.
    + intros t' Ht'. apply list_elem_of_singleton in Ht' as ->.
      exists k, tx. split; [apply list_elem_of_here|].
      by rewrite lookup_insert_eq.
    + intros k0 Hk0. apply lookup_insert_ne. intros ->. apply Hk0, list_elem_of_here.
  - destruct (IH (acc ++ [setSynced true tx]) (storeTx k (setSynced true tx) s))
      as (new & Hr & Hnew & Hframe).
    exists (setSynced true tx :: new). split; [by rewrite Hr, <- app_assoc|]. split.
    + intros t' Ht'. apply elem_of_cons in Ht' as [->|Ht'].
      * exists k, tx. split; [apply list_elem_of_here|].
        repeat split; try done. rewrite Hframe by done. apply lookup_insert_eq.
      * destruct (Hnew t' Ht') as (k0 & t & Hin & Hl & Hrest).
        exists k0, t. split; [by apply list_elem_of_further|].
        split; [|done]. simpl in Hl. rewrite lookup_insert_ne in Hl; [done|].
        by intros ->.
    + intros k0 Hk0. rewrite Hframe.
      * simpl. apply lookup_insert_ne. intros ->. apply Hk0, list_elem_of_here.
      * intros ?. apply Hk0. by apply list_elem_of_further.
Qed.

(** Every returned transaction was in the table with [synced = false] and
    is in the table, and in the result, with [synced = true]. *)
Lemma fetchNewTxs_marks_synced limit s t' :
  t' ∈ (fetchNewTxs limit s).1 →
  ∃ k t, m_txsTable s !! k = Some t ∧ synced t = false ∧
         t' = setSynced true t ∧ synced t' = true ∧
         m_txsTable (fetchNewTxs limit s).2 !! k = Some t'.
Proof.
  intros Hin. unfold fetchNewTxs in *.
  destruct (fetchNewTxsLoop_spec limit (tableKeys s) [] s) as (new & Hr & Hnew & _).
  { apply NoDup_fst_map_to_list. }
  rewrite Hr in Hin. destruct (Hnew t' Hin) as (k & t & _ & Hl & Hsy & -> & Hl').
  by exists k, t.
Qed.

Lemma fetchNewTxsLoop_length limit keys acc s :
  Z.of_nat (length acc) < limit →
  Z.of_nat (length (fetchNewTxsLoop limit keys acc s).1) ≤ limit.
Proof.
  revert acc s. induction keys as [|k keys IH]; intros acc s Hacc; simpl; [lia|].
  destruct (m_txsTable s !! k) as [tx|]; [|by apply IH].
  destruct (synced tx); [by apply IH|].
  destruct (Z.leb_spec limit (Z.of_nat (length (acc ++ [setSynced true tx])))) as [Hle|Hlt].
  - simpl. rewrite length_app in *. simpl in *. lia.
  - by apply IH.
Qed.

(** For a limit of at least one the result is within the limit. *)
Lemma fetchNewTxs_length limit s :
  1 ≤ limit → Z.of_nat (length (fetchNewTxs limit s).1) ≤ limit.
Proof. intros. apply fetchNewTxsLoop_length. simpl. lia. Qed.

Lemma keyed_insert (m : gmap N Transaction) k t :
  keyed m → hash t = k → keyed (<[k := t]> m).
Proof. intros Hm Ht. by apply map_Forall_insert_2. Qed.

Lemma keyed_delete (m : gmap N Transaction) k : keyed m → keyed (delete k m).
Proof. apply map_Forall_delete. Qed.

Lemma fetchNewTxsLoop_keyed limit keys acc s :
  keyed (m_txsTable s) → keyed (m_txsTable (fetchNewTxsLoop limit keys acc s).2).
Proof.
  revert acc s. induction keys as [|k keys IH]; intros acc s Hkeyed; simpl; [done|].
  destruct (m_txsTable s !! k) as [tx|] eqn:Htx; [|by apply IH].
  destruct (synced tx); [by apply IH|].
  assert (keyed (m_txsTable (storeTx k (setSynced true tx) s))).
  { apply keyed_insert; [done|]. simpl. by apply (Hkeyed k tx). }
  destruct (limit <=? _); [done|]. by apply IH.
Qed.

Lemma fetchNewTxsLoop_sealedCounterOk limit keys acc s :
  sealedCounterOk s → sealedCounterOk (fetchNewTxsLoop limit keys acc s).2.
Proof.
  revert acc s. induction keys as [|k keys IH]; intros acc s Hok; simpl; [done|].
  destruct (m_txsTable s !! k) as [tx|] eqn:Htx; [|by apply IH].
  destruct (synced tx); [by apply IH|].
  assert (sealedCounterOk (storeTx k (setSynced true tx) s)).
  { eapply (sealedCounterOk_update s _ k tx); [done|done|reflexivity|].
    simpl. rewrite Z.sub_add. symmetry. apply wrap64_small.
    rewrite Hok. apply wrap64_range. }
  destruct (limit <=? _); [done|]. by apply IH.
Qed.

(** X29.  Two calls of [fetchNewTxs] in a row hand out different
    transactions. *)
Lemma fetchNewTxs_twice_disjoint l1 l2 s t1 t2 :
  keyed (m_txsTable s) →
  t1 ∈ (fetchNewTxs l1 s).1 →
  t2 ∈ (fetchNewTxs l2 (fetchNewTxs l1 s).2).1 →
  hash t1 ≠ hash t2.
Proof.
  intros Hkeyed H1 H2.
  assert (Hkeyed1 : keyed (m_txsTable (fetchNewTxs l1 s).2))
    by (by apply fetchNewTxsLoop_keyed).
  destruct (fetchNewTxs_marks_synced _ _ _ H1) as (k1 & u1 & _ & _ & -> & _ & Hk1).
  destruct (fetchNewTxs_marks_synced _ _ _ H2) as (k2 & u2 & Hu2 & Hsy2 & -> & _ & _).
  pose proof (Hkeyed1 k1 _ Hk1) as Hh1. pose proof (Hkeyed1 k2 _ Hu2) as Hh2.
  simpl in *. intros Heq.
  assert (k1 = k2) as -> by congruence.
  rewrite Hk1 in Hu2. injection Hu2 as Hu2. rewrite <- Hu2 in Hsy2.
  discriminate Hsy2.
Qed.

End FetchNewTxs.

(** C10.  [fetchNewTxs(0)] on a pool that holds one transaction not yet
    broadcast returns that transaction: one element, with a limit of zero. *)
Theorem fetchNewTxs_zero_limit_returns_one :
  (fetchNewTxs 0 poolA).1 = [setSynced true (setSubmitCallback (Some 1%N) txAA)] ∧
  ¬ (Z.of_nat (length (fetchNewTxs 0 poolA).1) ≤ 0).
Proof. split; [by vm_compute|]. vm_compute. by intros H. Qed.

(** ** Removal of a committed batch (C6) *)

Section BatchRemove.

Implicit Types s : MemoryStorage.

Lemma callbacksFor_app x evs1 evs2 :
  callbacksFor x (evs1 ++ evs2) = (callbacksFor x evs1 + callbacksFor x evs2)%nat.
Proof. induction evs1 as [|e evs1 IH]; simpl; [done|]. rewrite IH. lia. Qed.

Lemma firedBetween_app s s' fired :
  events s' = fired ++ events s → firedBetween s s' = fired.
Proof.
  intros E. unfold firedBetween. rewrite E, length_app.
  replace (length fired + length (events s) - length (events s))%nat
    with (length fired) by lia.
  by rewrite take_app_length.
Qed.

Lemma removeWithoutLock_lookup h s x :
  m_txsTable (removeWithoutLock h s).2 !! x
  = if decide (x = h) then None else m_txsTable s !! x.
Proof.
  unfold removeWithoutLock.
  destruct (m_txsTable s !! h) as [t|] eqn:Hh; simpl.
  - destruct (decide (x = h)) as [->|Hne].
    + destruct (sealed t); apply lookup_delete_eq.
    + destruct (sealed t); by apply lookup_delete_ne.
  - by destruct (decide (x = h)) as [->|Hne].
Qed.

Lemma removeWithoutLock_events h s : events (removeWithoutLock h s).2 = events s.
Proof.
  unfold removeWithoutLock. destruct (m_txsTable s !! h) as [t|]; [|done].
  by destruct (sealed t).
Qed.

Lemma removeWithoutLock_result h s :
  (removeWithoutLock h s).1 = m_txsTable s !! h.
Proof. unfold removeWithoutLock. by destruct (m_txsTable s !! h). Qed.

Lemma batchRemoveLoop_lookup rs s x :
  m_txsTable (batchRemoveLoop rs s).2 !! x
  = if decide (x ∈ r_txHash <$> rs) then None else m_txsTable s !! x.
Proof.
  revert s. induction rs as [|r rs IH]; intros s; simpl; [done|].
  pose proof (removeWithoutLock_lookup (r_txHash r) s x) as Hl.
  destruct (removeWithoutLock (r_txHash r) s) as [tx s1]. simpl in Hl.
  specialize (IH s1). destruct (batchRemoveLoop rs s1) as [[ns res] s2].
  simpl in *. rewrite IH, Hl.
  destruct (decide (x = r_txHash r)) as [->|Hne].
  - rewrite (decide_True (P := _ ∈ _ :: _)) by apply list_elem_of_here.
    by destruct (decide _).
  - destruct (decide (x ∈ r_txHash <$> rs)).
    + by rewrite decide_True by by apply list_elem_of_further.
    + rewrite decide_False; [done|]. rewrite elem_of_cons. by intros [|].
Qed.

Lemma batchRemoveLoop_events rs s : events (batchRemoveLoop rs s).2 = events s.
Proof.
  revert s. induction rs as [|r rs IH]; intros s; simpl; [done|].
  pose proof (removeWithoutLock_events (r_txHash r) s) as He.
  destruct (removeWithoutLock (r_txHash r) s) as [tx s1]. simpl in He.
  specialize (IH s1). destruct (batchRemoveLoop rs s1) as [[ns res] s2].
  simpl in *. congruence.
Qed.

(** A hash of the result list is removed once: the first result that names
    it gets the transaction, the later ones get nothing. *)
Lemma batchRemoveLoop_firedCount rs s x :
  firedCount x (batchRemoveLoop rs s).1.2
  = match m_txsTable s !! x with
    | Some t => if decide (x ∈ r_txHash <$> rs)
                then if submitCallback t is Some _ then 1%nat else 0%nat
                else 0%nat
    | None => 0%nat
    end.
Proof.
  revert s. induction rs as [|r rs IH]; intros s.
  { simpl. by destruct (m_txsTable s !! x). }
  cbn [batchRemoveLoop]. rewrite fmap_cons.
  pose proof (removeWithoutLock_lookup (r_txHash r) s x) as Hl.
  pose proof (removeWithoutLock_result (r_txHash r) s) as Hr.
  destruct (removeWithoutLock (r_txHash r) s) as [tx s1]. simpl in Hl, Hr.
  specialize (IH s1). destruct (batchRemoveLoop rs s1) as [[ns res] s2].
  cbn [fst snd] in *. subst tx. rewrite Hl in IH. clear Hl.
  destruct (decide (x = r_txHash r)) as [->|Hne].
  - destruct (m_txsTable s !! r_txHash r) as [t|]; simpl; [|done].
    rewrite (decide_True (P := _ ∈ _ :: _)) by apply list_elem_of_here.
    rewrite IH, N.eqb_refl. destruct (submitCallback t); lia.
  - assert (Hmem : (x ∈ r_txHash r :: (r_txHash <$> rs)) ↔ (x ∈ r_txHash <$> rs)).
    { rewrite elem_of_cons. naive_solver. }
    assert (Hcount : firedCount x ((m_txsTable s !! r_txHash r, r) :: res)
                     = firedCount x res).
    { destruct (m_txsTable s !! r_txHash r) as [t|]; simpl; [|done].
      destruct (N.eqb_spec (r_txHash r) x); [congruence|].
      by destruct (submitCallback t). }
    rewrite Hcount, IH.
    destruct (m_txsTable s !! x); [|done].
    destruct (decide (x ∈ r_txHash <$> rs)).
    + by rewrite decide_True by by apply Hmem.
    + by rewrite decide_False by by rewrite Hmem.
Qed.

Lemma notifyResults_events res s :
  ∃ fired, events (notifyResults res s) = fired ++ events s ∧
           ∀ x, callbacksFor x fired = firedCount x res.
Proof.
  revert s. induction res as [|[[t|] r] res IH]; intros s; simpl.
  - by exists [].
  - destruct (IH (notifyTxResult t r s).2) as (fired & E & Hc).
    unfold notifyTxResult in *. simpl in *.
    destruct (submitCallback t) as [cb|]; simpl in *.
    + exists (fired ++ [EvSubmitCallback cb
                         (mkResult (r_txHash r) (r_status r) (r_nonce r) (sender t) (to t))]).
      split; [by rewrite E, <- app_assoc|].
      intros x. rewrite callbacksFor_app, Hc. simpl.
      destruct (r_txHash r =? x)%N; lia.
    + exists fired. split; [done|]. intros x. by rewrite Hc.
  - apply IH.
Qed.

Lemma notify_events s :
  ∃ fired, events (notifyUnsealedTxsSize s) = fired ++ events s ∧
           ∀ x, callbacksFor x fired = 0%nat.
Proof.
  unfold notifyUnsealedTxsSize, unSealedTxsSizeWithoutLock.
  destruct (m_unsealedTxsNotifier s); [|by exists []].
  destruct (_ <? _); by eexists [_].
Qed.

Lemma batchRemove_lookup now b rs s x :
  m_txsTable (batchRemove now b rs s) !! x
  = if decide (x ∈ r_txHash <$> rs) then None else m_txsTable s !! x.
Proof.
  unfold batchRemove.
  pose proof (batchRemoveLoop_lookup rs (set_blockNumberUpdatedTime now s) x) as Hl.
  destruct (batchRemoveLoop rs _) as [[ns res] s1]. simpl in Hl.
  match goal with |- context [notifyResults res ?st] =>
    destruct (notifyResults_frame res st) as [-> _] end.
  simpl. rewrite notify_table, <- Hl.
  by destruct (_ <? b), (_ && _).
Qed.

Lemma batchRemove_callbacks now b rs s x :
  callbacksFor x (firedBetween s (batchRemove now b rs s))
  = match m_txsTable s !! x with
    | Some t => if decide (x ∈ r_txHash <$> rs)
                then if submitCallback t is Some _ then 1%nat else 0%nat
                else 0%nat
    | None => 0%nat
    end.
Proof.
  unfold batchRemove.
  pose proof (batchRemoveLoop_firedCount rs (set_blockNumberUpdatedTime now s) x) as Hc.
  pose proof (batchRemoveLoop_events rs (set_blockNumberUpdatedTime now s)) as He.
  destruct (batchRemoveLoop rs _) as [[ns res] s1]. simpl in Hc, He.
  rewrite <- Hc. clear Hc.
  match goal with |- context [notifyResults res (emit _ (emit _ (notifyUnsealedTxsSize ?st)))] =>
    set (s4 := st) end.
  assert (He4 : events s4 = events s).
  { subst s4. rewrite <- He. by destruct (_ <? b), (_ && _). }
  destruct (notify_events s4) as (f1 & E1 & H1).
  destruct (notifyResults_events res
              (emit (EvPoolNonceBatchRemove ns)
                 (emit (EvLedgerNonceBatchInsert b ns) (notifyUnsealedTxsSize s4))))
    as (f2 & E2 & H2).
  rewrite (firedBetween_app s _
             (f2 ++ [EvPoolNonceBatchRemove ns; EvLedgerNonceBatchInsert b ns] ++ f1)).
  - rewrite !callbacksFor_app, H1, H2. simpl. lia.
  - rewrite E2. simpl. rewrite E1, He4. by rewrite <- !app_assoc.
Qed.

End BatchRemove.

(** ** More on the removal of a committed batch *)

Section BatchRemoveMore.

Implicit Types s : MemoryStorage.

Lemma removeWithoutLock_blockNumber h s :
  m_blockNumber (removeWithoutLock h s).2 = m_blockNumber s.
Proof.
  unfold removeWithoutLock. destruct (m_txsTable s !! h) as [t|]; [|done].
  by destruct (sealed t).
Qed.

Lemma batchRemoveLoop_blockNumber rs s :
  m_blockNumber (batchRemoveLoop rs s).2 = m_blockNumber s.
Proof.
  revert s. induction rs as [|r rs IH]; intros s; simpl; [done|].
  pose proof (removeWithoutLock_blockNumber (r_txHash r) s) as H1.
  destruct (removeWithoutLock (r_txHash r) s) as [tx s1]. simpl in H1.
  specialize (IH s1). destruct (batchRemoveLoop rs s1) as [[ns res] s2].
  simpl in *. congruence.
Qed.

Lemma notifyResults_blockNumber res s :
  m_blockNumber (notifyResults res s) = m_blockNumber s.
Proof.
  revert s. induction res as [|[[t|] r] res IH]; intros s; simpl; [done| |apply IH].
  rewrite IH. unfold notifyTxResult. simpl. by destruct (submitCallback t).
Qed.

(** The nonces the loop collects. *)
Lemma batchRemoveLoop_nonce_absent rs s r :
  r ∈ rs → m_txsTable s !! r_txHash r = None → r_nonce r ≠ "" →
  r_nonce r ∈ (batchRemoveLoop rs s).1.1.
Proof.
  revert s. induction rs as [|r0 rs IH]; intros s Hin Hk Hn.
  { by apply not_elem_of_nil in Hin. }
  cbn [batchRemoveLoop].
  pose proof (removeWithoutLock_lookup (r_txHash r0) s (r_txHash r)) as Hl.
  pose proof (removeWithoutLock_result (r_txHash r0) s) as Hr.
  destruct (removeWithoutLock (r_txHash r0) s) as [tx s1]. cbn [fst snd] in *.
  specialize (IH s1).
  destruct (batchRemoveLoop rs s1) as [[ns res] s2]. cbn [fst snd] in *.
  apply elem_of_cons in Hin as [->|Hin].
  - subst tx. rewrite Hk. apply elem_of_app. left.
    destruct (String.eqb_spec (r_nonce r0) ""); [done|apply list_elem_of_here].
  - apply elem_of_app. right. apply IH; [done| |done].
    rewrite Hl. by destruct (decide _).
Qed.

Lemma batchRemoveLoop_nonce_present rs s r t :
  r ∈ rs → m_txsTable s !! r_txHash r = Some t →
  nonce t ∈ (batchRemoveLoop rs s).1.1 ∧
  ∃ r0, r0 ∈ rs ∧ r_txHash r0 = r_txHash r ∧ (Some t, r0) ∈ (batchRemoveLoop rs s).1.2.
Proof.
  revert s. induction rs as [|r0 rs IH]; intros s Hin Hk.
  { by apply not_elem_of_nil in Hin. }
  cbn [batchRemoveLoop].
  pose proof (removeWithoutLock_lookup (r_txHash r0) s (r_txHash r)) as Hl.
  pose proof (removeWithoutLock_result (r_txHash r0) s) as Hr.
  destruct (removeWithoutLock (r_txHash r0) s) as [tx s1]. cbn [fst snd] in *.
  specialize (IH s1).
  destruct (batchRemoveLoop rs s1) as [[ns res] s2]. cbn [fst snd] in *.
  destruct (decide (r_txHash r = r_txHash r0)) as [E|Hne].
  - subst tx. rewrite <- E, Hk. split; [apply list_elem_of_here|].
    exists r0. split; [apply list_elem_of_here|]. split; [done|apply list_elem_of_here].
  - apply elem_of_cons in Hin as [->|Hin]; [done|].
    destruct IH as (Hn & r1 & Hr1 & Eh & Hres); [done|by rewrite Hl|].
    split; [apply elem_of_app; by right|].
    exists r1. split; [by apply list_elem_of_further|].
    split; [done|by apply list_elem_of_further].
Qed.

Lemma batchRemoveLoop_nonces_length rs s :
  (length (batchRemoveLoop rs s).1.1 ≤ length rs)%nat.
Proof.
  revert s. induction rs as [|r rs IH]; intros s; simpl; [done|].
  destruct (removeWithoutLock (r_txHash r) s) as [tx s1].
  specialize (IH s1). destruct (batchRemoveLoop rs s1) as [[ns res] s2].
  simpl in *. rewrite length_app.
  destruct tx; [simpl; lia|]. destruct (String.eqb _ _); simpl; lia.
Qed.

(** What the last loop fires, by content. *)
Lemma notifyResults_fires res s t r cb :
  (Some t, r) ∈ res → submitCallback t = Some cb →
  ∃ f1 f2, events (notifyResults res s)
           = f2 ++ EvSubmitCallback cb
               (mkResult (r_txHash r) (r_status r) (r_nonce r) (sender t) (to t))
               :: f1 ++ events s.
Proof.
  intros Hin Hcb. revert s.
  induction res as [|[[t0|] r0] res0 IH]; intros s0.
  - by apply not_elem_of_nil in Hin.
  - apply elem_of_cons in Hin as [[= <- <-]|Hin0]; simpl.
    + destruct (notifyResults_events res0 (notifyTxResult t r s0).2) as (f & E & _).
      exists [], f. rewrite E. unfold notifyTxResult. simpl. by rewrite Hcb.
    + destruct (IH Hin0 (notifyTxResult t0 r0 s0).2) as (f1 & f2 & E).
      unfold notifyTxResult in *. simpl in *.
      destruct (submitCallback t0) as [c|]; simpl in *.
      * exists (f1 ++ [EvSubmitCallback c
                        (mkResult (r_txHash r0) (r_status r0) (r_nonce r0)
                           (sender t0) (to t0))]), f2.
        rewrite E. by rewrite <- !app_assoc.
      * by exists f1, f2.
  - apply elem_of_cons in Hin as [[=]|Hin0]. simpl. by apply IH.
Qed.

(** The calls a [batchRemove] makes, oldest last: the notifier (if one is
    registered), the ledger nonce checker, the pool nonce checker, the
    callbacks. *)
Lemma batchRemove_events now b rs s :
  ∃ f1 f2,
    firedBetween s (batchRemove now b rs s)
    = f2 ++ [EvPoolNonceBatchRemove
               (batchRemoveLoop rs (set_blockNumberUpdatedTime now s)).1.1;
             EvLedgerNonceBatchInsert b
               (batchRemoveLoop rs (set_blockNumberUpdatedTime now s)).1.1] ++ f1 ∧
    ∀ t r cb,
      (Some t, r) ∈ (batchRemoveLoop rs (set_blockNumberUpdatedTime now s)).1.2 →
      submitCallback t = Some cb →
      EvSubmitCallback cb
        (mkResult (r_txHash r) (r_status r) (r_nonce r) (sender t) (to t)) ∈ f2.
Proof.
  unfold batchRemove.
  pose proof (batchRemoveLoop_events rs (set_blockNumberUpdatedTime now s)) as He.
  destruct (batchRemoveLoop rs _) as [[ns res] s1]. simpl in He. cbn [fst snd].
  match goal with |- context [notifyResults res (emit _ (emit _ (notifyUnsealedTxsSize ?st)))] =>
    set (s4 := st) end.
  assert (He4 : events s4 = events s).
  { subst s4. rewrite <- He. by destruct (_ <? b), (_ && _). }
  destruct (notify_events s4) as (f1 & E1 & H1).
  set (s5 := emit (EvPoolNonceBatchRemove ns)
               (emit (EvLedgerNonceBatchInsert b ns) (notifyUnsealedTxsSize s4))).
  destruct (notifyResults_events res s5) as (f2 & E2 & H2).
  exists f1, f2. split.
  - apply firedBetween_app. rewrite E2. subst s5. simpl. rewrite E1, He4.
    by rewrite <- !app_assoc.
  - intros t r cb Hin Hcb.
    destruct (notifyResults_fires res s5 t r cb Hin Hcb) as (g1 & g2 & G).
    rewrite E2 in G.
    rewrite (app_comm_cons g1), app_assoc in G.
    apply app_inv_tail in G. rewrite G.
    apply elem_of_app. right. apply list_elem_of_here.
Qed.

End BatchRemoveMore.

Section Called.

Lemma calledFor_length x evs : length (calledFor x evs) = callbacksFor x evs.
Proof.
  induction evs as [|e evs IH]; simpl; [done|].
  destruct e as [|n|cb res|bn ns|ns]; simpl; try done.
  by destruct (r_txHash res =? x)%N; simpl; rewrite IH.
Qed.

Lemma calledFor_elem x cb res evs :
  EvSubmitCallback cb res ∈ evs → r_txHash res = x → cb ∈ calledFor x evs.
Proof.
  intros Hin Hx. induction evs as [|e evs IH]; [by apply not_elem_of_nil in Hin|].
  apply elem_of_cons in Hin as [<-|Hin].
  - simpl. rewrite Hx, N.eqb_refl. apply list_elem_of_here.
  - specialize (IH Hin). destruct e as [|n|cb' res'|bn ns|ns]; simpl; try done.
    destruct (r_txHash res' =? x)%N; [by apply list_elem_of_further|done].
Qed.

(** One call for the hash, and a call of [cb] among the events: the one
    callback called for the hash is [cb]. *)
Lemma calledFor_single x cb res evs :
  callbacksFor x evs = 1%nat →
  EvSubmitCallback cb res ∈ evs → r_txHash res = x →
  calledFor x evs = [cb].
Proof.
  intros Hone Hin Hx.
  pose proof (calledFor_elem x cb res evs Hin Hx) as Hcb.
  pose proof (calledFor_length x evs) as Hlen. rewrite Hone in Hlen.
  destruct (calledFor x evs) as [|c [|c' l]]; simpl in Hlen; try discriminate.
  by apply list_elem_of_singleton in Hcb as ->.
Qed.

Lemma calledFor_none x evs : callbacksFor x evs = 0%nat → calledFor x evs = [].
Proof.
  intros Hnone. pose proof (calledFor_length x evs) as Hlen. rewrite Hnone in Hlen.
  by destruct (calledFor x evs).
Qed.

End Called.

(** [txBB] came from a peer: its commit invokes no callback. *)
Lemma peer_import_has_no_callback :
  ¬ batchRemoveAsStated 9 7 [committed 187 "2"] poolPeerB.
Proof.
  intros [_ Hcb].
  specialize (Hcb (committed 187 "2") txBB).
  assert (Hfired : callbacksFor 187
            (firedBetween poolPeerB (batchRemove 9 7 [committed 187 "2"] poolPeerB))
          = 0%nat) by (by vm_compute).
  simpl in Hcb. rewrite Hfired in Hcb.
  assert (0%nat = 1%nat); [|discriminate].
  apply Hcb; [apply list_elem_of_here|by vm_compute].
Qed.

(** C6, amended.  After [batchRemove(b, R)] no hash of [R] is in the table.
    A transaction removed by the call whose callback slot holds a callback
    has that callback, and no other, invoked for its hash, exactly once; a
    removed transaction with an empty slot (one imported from a peer) has no
    callback invoked. *)
Theorem batchRemove_removes_and_notifies
    (now : Z) (b : Z) (rs : list TransactionSubmitResult) (s : MemoryStorage)
    (r : TransactionSubmitResult) (t : Transaction) :
  r ∈ rs →
  m_txsTable s !! r_txHash r = Some t →
  m_txsTable (batchRemove now b rs s) !! r_txHash r = None ∧
  callbacksFor (r_txHash r) (firedBetween s (batchRemove now b rs s))
  = (if submitCallback t is Some _ then 1%nat else 0%nat) ∧
  calledFor (r_txHash r) (firedBetween s (batchRemove now b rs s))
  = match submitCallback t with
    | Some cb => [cb]
    | None => []
    end.
Proof.
  intros Hr Ht.
  assert (Hin : r_txHash r ∈ r_txHash <$> rs) by (by apply list_elem_of_fmap_2).
  assert (Hcount : callbacksFor (r_txHash r) (firedBetween s (batchRemove now b rs s))
                   = if submitCallback t is Some _ then 1%nat else 0%nat)
    by (by rewrite batchRemove_callbacks, Ht, decide_True).
  split; [by rewrite batchRemove_lookup, decide_True|]. split; [exact Hcount|].
  destruct (submitCallback t) as [cb|] eqn:Hcb; [|by apply calledFor_none].
  destruct (batchRemove_events now b rs s) as (f1 & f2 & E & Hf).
  destruct (batchRemoveLoop_nonce_present rs (set_blockNumberUpdatedTime now s) r t Hr Ht)
    as (_ & r0 & _ & Eh & Hres).
  apply (calledFor_single _ cb
           (mkResult (r_txHash r0) (r_status r0) (r_nonce r0) (sender t) (to t)));
    [exact Hcount| |exact Eh].
  rewrite E. apply elem_of_app. left. by apply (Hf t r0 cb).
Qed.

(** [txAA] was submitted by a client with the callback 1; its hash is
    committed twice in one batch and the callback 1 is invoked once. *)
Lemma batchRemove_witness :
  m_txsTable (batchRemove 9 7 [committed 170 "1"; committed 170 "1"] poolPeerB) !! 170%N
  = None ∧
  callbacksFor 170
    (firedBetween poolPeerB
       (batchRemove 9 7 [committed 170 "1"; committed 170 "1"] poolPeerB)) = 1%nat ∧
  calledFor 170
    (firedBetween poolPeerB
       (batchRemove 9 7 [committed 170 "1"; committed 170 "1"] poolPeerB)) = [1%N].
Proof.
  apply (batchRemove_removes_and_notifies 9 7 [committed 170 "1"; committed 170 "1"]
           poolPeerB (committed 170 "1") (setSubmitCallback (Some 1%N) txAA)).
  - apply list_elem_of_here.
  - by vm_compute.
Defined.

(** ** The reaper (C7) *)

Section Reaper.

Implicit Types s : MemoryStorage.

Lemma cleanUpLoop_invalid_mono cfg now keys n s :
  m_invalidTxs s ⊆ m_invalidTxs (cleanUpLoop cfg now keys n s).
Proof.
  revert n s. induction keys as [|k keys IH]; intros n s; simpl; [done|].
  destruct (n <=? _); [|done].
  destruct (m_txsTable s !! k) as [tx|]; [|apply IH].
  destruct (bool_decide _); [apply IH|].
  destruct (_ && _); [apply IH|].
  destruct (expired now tx s); [|apply IH].
  etrans; [|apply IH]. simpl. set_solver.
Qed.

(** With enough budget for all the keys, the scan reaches each of them. *)
Lemma cleanUpLoop_stages cfg now keys n s k t :
  n + Z.of_nat (length keys) ≤ MAX_TRAVERSE_TXS_COUNT cfg + 1 →
  k ∈ keys →
  m_txsTable s !! k = Some t →
  expired now t s = true →
  ¬ (sealed t = true ∧ m_blockNumber s ≤ batchId t) →
  hash t ∈ m_invalidTxs (cleanUpLoop cfg now keys n s).
Proof.
  revert n s. induction keys as [|a keys IH]; intros n s Hbudget Hk Ht Hexp Hfree.
  { by apply not_elem_of_nil in Hk. }
  simpl in Hbudget. cbn [cleanUpLoop].
  destruct (Z.leb_spec n (MAX_TRAVERSE_TXS_COUNT cfg)); [|lia].
  assert (Hrest : ∀ n' s', n' ≤ n + 1 →
            m_txsTable s' = m_txsTable s → m_blockNumber s' = m_blockNumber s →
            m_txsExpirationTime s' = m_txsExpirationTime s →
            k ∈ keys →
            hash t ∈ m_invalidTxs (cleanUpLoop cfg now keys n' s')).
  { intros n' s' Hn' Etab Eblk Eexp Hin. apply IH; try done.
    - lia.
    - by rewrite Etab.
    - unfold expired in *. by rewrite Eexp.
    - by rewrite Eblk. }
  apply elem_of_cons in Hk as [->|Hin].
  - rewrite Ht. destruct (bool_decide_reflect (hash t ∈ m_invalidTxs s)) as [Hst|Hst].
    { by apply cleanUpLoop_invalid_mono. }
    destruct (sealed t && (m_blockNumber s <=? batchId t)) eqn:Hprot.
    { exfalso. apply Hfree. apply andb_true_iff in Hprot as [? ?]. split; [done|lia]. }
    rewrite Hexp. apply cleanUpLoop_invalid_mono. simpl. set_solver.
  - destruct (m_txsTable s !! a) as [tx|]; [|apply Hrest; (done || lia)].
    destruct (bool_decide _); [apply Hrest; (done || lia)|].
    destruct (_ && _); [apply Hrest; (done || lia)|].
    destruct (expired now tx s); apply Hrest; (done || lia).
Qed.

Lemma foldl_preserves_in {A} (P : MemoryStorage → Prop)
    (f : MemoryStorage → A → MemoryStorage) (l : list A) s :
  (∀ s x, x ∈ l → P s → P (f s x)) → P s → P (foldl f s l).
Proof.
  revert s. induction l as [|a l IH]; intros s Hf Hs; simpl; [done|].
  apply IH.
  - intros s' x Hx. apply Hf. by apply list_elem_of_further.
  - apply Hf; [apply list_elem_of_here|done].
Qed.

Lemma removeSubmittedTxWithoutLock_lookup r n s x :
  m_txsTable (removeSubmittedTxWithoutLock r n s).2 !! x
  = if decide (x = r_txHash r) then None else m_txsTable s !! x.
Proof.
  unfold removeSubmittedTxWithoutLock.
  pose proof (removeWithoutLock_lookup (r_txHash r) s x) as Hl.
  destruct (removeWithoutLock (r_txHash r) s) as [[t|] s1]; simpl in *; [|done].
  destruct n; [|done].
  pose proof (notifyTxResult_frame t r s1) as (Ht & _).
  destruct (notifyTxResult t r s1) as [t' s2]. simpl in *. by rewrite Ht.
Qed.

(** The drain removes every staged hash from the table and touches no
    other entry. *)
Lemma removeInvalidTxs_lookup lock s x :
  m_txsTable (removeInvalidTxs lock s) !! x
  = if decide (x ∈ m_invalidTxs s) then None else m_txsTable s !! x.
Proof.
  unfold removeInvalidTxs. destruct (decide (m_invalidTxs s = ∅)) as [E|_].
  { rewrite E. by rewrite decide_False by apply not_elem_of_empty. }
  simpl. rewrite notify_table.
  assert (Hfold : ∀ l s0,
    m_txsTable (foldl (λ st txHash,
                   (removeSubmittedTxWithoutLock
                      (mkResult txHash TransactionPoolTimeout "" "" "") true st).2) s0 l) !! x
    = if decide (x ∈ l) then None else m_txsTable s0 !! x).
  { induction l as [|a l IH]; intros s0; cbn [foldl].
    - by rewrite decide_False by apply not_elem_of_nil.
    - rewrite IH, removeSubmittedTxWithoutLock_lookup. simpl.
      destruct (decide (x = a)) as [->|Hne].
      + rewrite (decide_True (P := a ∈ a :: l)) by apply list_elem_of_here.
        by destruct (decide _).
      + destruct (decide (x ∈ l)).
        * by rewrite decide_True by by apply list_elem_of_further.
        * rewrite decide_False; [done|]. rewrite elem_of_cons. by intros [|]. }
  rewrite Hfold. destruct (decide (x ∈ m_invalidTxs s)).
  - by rewrite decide_True by by apply elem_of_elements.
  - by rewrite decide_False by by rewrite elem_of_elements.
Qed.

End Reaper.

(** With the switch answering [false] the tick stages nothing. *)
Lemma reaper_switched_off : ¬ reaperAsStated cfg2 200 poolSwitchedOff.
Proof.
  intros Hclaim.
  destruct (Hclaim 170%N txAA1) as [Hin|Hin].
  - by vm_compute.
  - by vm_compute.
  - vm_compute. by intros [? _].
  - vm_compute in Hin. discriminate Hin.
  - vm_compute in Hin. discriminate Hin.
Qed.

(** C7, amended.  When the clean-up switch is absent or answers [true] and
    the table has at most [MAX_TRAVERSE_TXS_COUNT + 1] entries, an entry with
    [importTime + txsExpirationTime < now] (the sum within 64 bits) that is
    not sealed with a batch id of at least [blockNumber] is on [invalidTxs]
    when the scan of the tick ends, and the tick removes it from the table. *)
Theorem reaper_stages_and_removes
    (cfg : TxPoolConfig) (now : Z) (s : MemoryStorage) (k : N) (t : Transaction) :
  m_txsCleanUpSwitch s ≠ Some false →
  tableSize s ≤ MAX_TRAVERSE_TXS_COUNT cfg + 1 →
  m_txsTable s !! k = Some t →
  0 ≤ importTime t + m_txsExpirationTime s < 2 ^ 64 →
  importTime t + m_txsExpirationTime s < now →
  ¬ (sealed t = true ∧ m_blockNumber s ≤ batchId t) →
  hash t ∈ stagedByTick cfg now s ∧
  m_txsTable (cleanUpExpiredTransactions cfg now s) !! hash t = None.
Proof.
  intros Hswitch Hbudget Ht Hfit Hexp Hfree.
  assert (Hsize : (tableSize s =? 0) = false).
  { apply Z.eqb_neq. unfold tableSize. intros H0.
    assert (size (m_txsTable s) = 0%nat) as H1 by lia.
    apply map_size_empty_inv in H1. rewrite H1 in Ht. by rewrite lookup_empty in Ht. }
  assert (Hstaged : hash t ∈ m_invalidTxs (cleanUpLoop cfg now (tableKeys s) 0 s)).
  { apply (cleanUpLoop_stages cfg now (tableKeys s) 0 s k t); try done.
    - unfold tableKeys. rewrite length_fmap, length_map_to_list.
      unfold tableSize in Hbudget. lia.
    - apply elem_of_tableKeys. eauto.
    - unfold expired. rewrite wrap64_small by done. by apply Z.ltb_lt. }
  assert (Hgone : m_txsTable (removeInvalidTxs false (cleanUpLoop cfg now (tableKeys s) 0 s))
                  !! hash t = None).
  { by rewrite removeInvalidTxs_lookup, decide_True. }
  unfold stagedByTick, cleanUpExpiredTransactions, reaperScan. rewrite Hsize.
  by destruct (m_txsCleanUpSwitch s) as [[]|].
Qed.

(** Scenario S5: submitted at 0 with an expiration time of 100, reaped at
    200. *)
Lemma reaper_witness :
  hash txAA1 ∈ stagedByTick cfg2 200 poolReaped ∧
  m_txsTable (cleanUpExpiredTransactions cfg2 200 poolReaped) !! hash txAA1 = None.
Proof.
  apply (reaper_stages_and_removes cfg2 200 poolReaped 170%N txAA1).
  - discriminate.
  - by vm_compute.
  - by vm_compute.
  - by vm_compute.
  - by vm_compute.
  - vm_compute. by intros [? _].
Defined.

(** ** What the fetch seals (C4, C2) *)

Section BatchFetch.

Implicit Types s : MemoryStorage.

Lemma keyed_lookup (m : gmap N Transaction) k t : keyed m → m !! k = Some t → hash t = k.
Proof. intros Hm Hk. by apply (Hm k t). Qed.

Lemma fetchedAt_frame s s' h :
  fetchedAt s h →
  m_txsTable s' !! h = m_txsTable s !! h →
  (h ∈ m_invalidTxs s' → h ∈ m_invalidTxs s) →
  fetchedAt s' h.
Proof. intros [Hnin Ht] El Ei. split; [by intros ?; apply Hnin, Ei|]. by rewrite El. Qed.

(** The transactions named in the two blocks are sealed by the fetch and
    stay so until the loop ends: the loop visits every key once. *)
Lemma batchFetchTxsLoop_fetched cfg now limit avoid dup keys txs sys s :
  NoDup keys →
  keyed (m_txsTable s) →
  NoDup (hashesOf txs sys) →
  (∀ h, h ∈ hashesOf txs sys → (h ∉ keys) ∧ fetchedAt s h) →
  keyed (m_txsTable (batchFetchTxsLoop cfg now limit avoid dup keys txs sys s).2) ∧
  NoDup (hashesOf (batchFetchTxsLoop cfg now limit avoid dup keys txs sys s).1.1
                  (batchFetchTxsLoop cfg now limit avoid dup keys txs sys s).1.2) ∧
  ∀ h, h ∈ hashesOf (batchFetchTxsLoop cfg now limit avoid dup keys txs sys s).1.1
                    (batchFetchTxsLoop cfg now limit avoid dup keys txs sys s).1.2 →
       fetchedAt (batchFetchTxsLoop cfg now limit avoid dup keys txs sys s).2 h.
Proof.
  intros Hnd Hkeyed Hndh Hall.
  apply (batchFetchTxsLoop_ind cfg now limit avoid dup
    (λ keys txs sys s,
       NoDup keys ∧ keyed (m_txsTable s) ∧ NoDup (hashesOf txs sys) ∧
       ∀ h, h ∈ hashesOf txs sys → (h ∉ keys) ∧ fetchedAt s h)
    (λ txs sys s,
       keyed (m_txsTable s) ∧ NoDup (hashesOf txs sys) ∧
       ∀ h, h ∈ hashesOf txs sys → fetchedAt s h)); [| |done].
  { intros ks txs0 sys0 s0 (_ & ? & ? & H). split; [done|]. split; [done|].
    intros h Hh. by apply H. }
  clear. intros k ks txs sys s txs' sys' s' (Hnd & Hkeyed & Hndh & Hall) Hout.
  apply NoDup_cons in Hnd as [Hk Hnd].
  assert (Hne : ∀ h, h ∈ hashesOf txs sys → h ≠ k ∧ (h ∉ ks) ∧ fetchedAt s h).
  { intros h Hh. destruct (Hall h Hh) as [Hnin Hf]. rewrite not_elem_of_cons in Hnin.
    naive_solver. }
  destruct Hout as [|tx Htx Hnin _|tx Htx Hnin _|tx txs' sys' Htx Hnin _ Hperm].
  - split; [done|]. split; [done|]. split; [done|].
    intros h Hin. by destruct (Hne h Hin) as (? & ? & ?).
  - pose proof (keyed_lookup _ _ _ Hkeyed Htx) as Hh.
    split; [done|]. split; [done|]. split; [done|].
    intros h Hin. destruct (Hne h Hin) as (? & ? & Hf). split; [done|].
    apply (fetchedAt_frame s); [done|done|].
    simpl. set_solver.
  - pose proof (keyed_lookup _ _ _ Hkeyed Htx) as Hh.
    split; [done|]. split; [by apply keyed_insert|]. split; [done|].
    intros h Hin. destruct (Hne h Hin) as (? & ? & Hf). split; [done|].
    apply (fetchedAt_frame s); [done|by apply lookup_insert_ne|].
    simpl. set_solver.
  - pose proof (keyed_lookup _ _ _ Hkeyed Htx) as Hh.
    assert (Hinv : m_invalidTxs (storeTx k (sealedByFetch tx)
                     (if negb (sealed tx) then incSealed s else s)) = m_invalidTxs s)
      by (by destruct (sealed tx)).
    assert (Htab : m_txsTable (storeTx k (sealedByFetch tx)
                     (if negb (sealed tx) then incSealed s else s))
                   = <[k := sealedByFetch tx]> (m_txsTable s))
      by (by destruct (sealed tx)).
    split; [done|]. split; [rewrite Htab; by apply keyed_insert|].
    split.
    { rewrite Hperm, Hh. apply NoDup_cons. split; [|done].
      intros Hin. by destruct (Hne k Hin). }
    intros h Hin. rewrite Hperm, Hh in Hin. apply elem_of_cons in Hin as [->|Hin].
    + split; [done|]. split; [by rewrite Hinv, <- Hh|].
      exists (sealedByFetch tx). by rewrite Htab, lookup_insert_eq.
    + destruct (Hne h Hin) as (? & ? & Hf). split; [done|].
      apply (fetchedAt_frame s); [done|by rewrite Htab, lookup_insert_ne|by rewrite Hinv].
Qed.

(** With [avoidDuplicate] the loop seals only what was not sealed: the
    counter grows by the number of fetched transactions, and what is staged
    for removal is not sealed. *)
Lemma batchFetchTxsLoop_counter cfg now limit avoid c0 keys txs sys s :
  keyed (m_txsTable s) →
  stagedUnsealed s →
  wrap64 (m_sealedTxsSize s) = wrap64 (c0 + Z.of_nat (length (hashesOf txs sys))) →
  stagedUnsealed (batchFetchTxsLoop cfg now limit avoid true keys txs sys s).2 ∧
  wrap64 (m_sealedTxsSize (batchFetchTxsLoop cfg now limit avoid true keys txs sys s).2)
  = wrap64 (c0 + Z.of_nat (length (hashesOf
               (batchFetchTxsLoop cfg now limit avoid true keys txs sys s).1.1
               (batchFetchTxsLoop cfg now limit avoid true keys txs sys s).1.2))).
Proof.
  intros Hkeyed Hst Hc.
  apply (batchFetchTxsLoop_ind cfg now limit avoid true
    (λ _ txs sys s,
       keyed (m_txsTable s) ∧ stagedUnsealed s ∧
       wrap64 (m_sealedTxsSize s) = wrap64 (c0 + Z.of_nat (length (hashesOf txs sys))))
    (λ txs sys s,
       stagedUnsealed s ∧
       wrap64 (m_sealedTxsSize s) = wrap64 (c0 + Z.of_nat (length (hashesOf txs sys)))));
    [by intros ? ? ? ? (_ & ? & ?)| |done].
  clear. intros k ks txs sys s txs' sys' s' (Hkeyed & Hst & Hc) Hout.
  destruct Hout as [|tx Htx Hnin Hs|tx Htx Hnin Hs|tx txs' sys' Htx Hnin Hs Hperm];
    [done|..]; simpl in Hs; pose proof (keyed_lookup _ _ _ Hkeyed Htx) as Hh.
  - split; [done|]. split; [|done].
    intros h t Hin Ht. simpl in *. apply elem_of_union in Hin as [Hin|Hin].
    + apply elem_of_singleton in Hin. subst h. rewrite Hh, Htx in Ht. by injection Ht as <-.
    + by apply (Hst h).
  - split; [by apply keyed_insert|]. split; [|done].
    intros h t Hin Ht. simpl in *.
    destruct (decide (h = k)) as [->|Hne].
    + rewrite lookup_insert_eq in Ht. by injection Ht as <-.
    + rewrite lookup_insert_ne in Ht by done. apply (Hst h); [|done]. set_solver.
  - rewrite Hs. simpl. split; [by apply keyed_insert|]. split.
    + intros h t Hin Ht. simpl in *.
      rewrite lookup_insert_ne in Ht; [by apply (Hst h)|]. intros ->. by rewrite Hh in Hnin.
    + rewrite Hperm. simpl length.
      transitivity (wrap64 (wrap64 (m_sealedTxsSize s) + 1)).
      { rewrite wrap64_add_l. apply wrap64_small, wrap64_range. }
      rewrite Hc, wrap64_add_l. f_equal. lia.
Qed.

End BatchFetch.

(** What [batchFetchTxs] returns is in the table when it ends, sealed, with
    the batch identity unset. *)
Lemma batchFetchTxs_fetched cfg now limit avoid dup s x :
  keyed (m_txsTable s) →
  x ∈ hashesOf (batchFetchTxs cfg now [] [] limit avoid dup s).1.1
               (batchFetchTxs cfg now [] [] limit avoid dup s).1.2 →
  ∃ t, m_txsTable (batchFetchTxs cfg now [] [] limit avoid dup s).2 !! x = Some t ∧
       sealed t = true ∧ batchId t = noBatchId ∧ batchHash t = emptyHash.
Proof.
  intros Hkeyed. unfold batchFetchTxs.
  destruct (batchFetchTxsLoop_fetched cfg now limit avoid dup (tableKeys s) [] [] s)
    as (_ & _ & Hall).
  { apply NoDup_fst_map_to_list. }
  { done. }
  { constructor. }
  { intros h Hh. by apply not_elem_of_nil in Hh. }
  destruct (batchFetchTxsLoop _ _ _ _ _ _ _ _ _) as [[txs sys] s1]. simpl in *.
  intros Hx. destruct (Hall x Hx) as [Hnin Ht].
  by rewrite removeInvalidTxs_lookup, notify_invalidTxs, decide_False, notify_table.
Qed.

(** ** Sealed exclusivity (C4) *)

Lemma reachable_poolFetchedA : reachable cfg2 poolFetchedA.
Proof. apply reach_fetch, reach_submit; [apply reach_init|done]. Qed.

(** After scenario S2 the sealed [txAA] has the unset batch identity. *)
Lemma fetched_tx_has_no_batch : ¬ sealedExclusivityAsStated cfg2.
Proof.
  intros (Hinv & _ & _).
  destruct (Hinv poolFetchedA reachable_poolFetchedA 170%N
              (sealedByFetch (setSubmitCallback (Some 1%N) txAA))) as [Hb _];
    [by vm_compute|done|]. by apply Hb.
Qed.

(** C4, amended.  A transaction sealed by [batchFetchTxs] has, when the
    fetch returns, the unset batch identity ([batchId = -1], empty
    [batchHash]).  A transaction sealed for a proposal has the pair of the
    proposal: one marked by [batchMarkTxs(.., b, h, true)] has [(b, h)], and
    one that [enforceSubmitTransaction] takes for the proposal that brings
    [_tx] (a new transaction, an unsealed one, or one sealed with an empty
    [batchHash]) has the pair [_tx] carries.  [batchMarkAllTxs(false)] unseals
    every transaction and resets its two batch fields. *)
Theorem seal_paths_and_batch_fields
    (cfg : TxPoolConfig) (now limit : Z) (avoid : option (gset N)) (dup : bool)
    (hs : list N) (b : Z) (h : N) (_tx : Transaction) (s : MemoryStorage) :
  keyed (m_txsTable s) →
  (∀ x, x ∈ hashesOf (batchFetchTxs cfg now [] [] limit avoid dup s).1.1
                     (batchFetchTxs cfg now [] [] limit avoid dup s).1.2 →
        ∃ t, m_txsTable (batchFetchTxs cfg now [] [] limit avoid dup s).2 !! x = Some t ∧
             sealed t = true ∧ batchId t = noBatchId ∧ batchHash t = emptyHash) ∧
  (∀ x t, x ∈ hs → m_txsTable (batchMarkTxs hs b h true s) !! x = Some t →
          sealed t = true ∧ batchId t = b ∧ batchHash t = h) ∧
  (submittedToChain cfg _tx ≠ NonceCheckFail →
   (∀ t, m_txsTable s !! hash _tx = Some t → sealed t = false ∨ batchHash t = emptyHash) →
   (enforceSubmitTransaction cfg _tx s).1 = StatusNone ∧
   ∃ t', m_txsTable (enforceSubmitTransaction cfg _tx s).2 !! hash _tx = Some t' ∧
         sealed t' = true ∧ batchId t' = batchId _tx ∧ batchHash t' = batchHash _tx) ∧
  (∀ x t, m_txsTable (batchMarkAllTxs false s) !! x = Some t →
          sealed t = false ∧ batchId t = noBatchId ∧ batchHash t = emptyHash).
Proof.
  intros Hkeyed. split; [|split; [|split]].
  - intros x. by apply batchFetchTxs_fetched.
  - intros x t Hx. rewrite batchMarkTxs_lookup, decide_True by done.
    destruct (m_txsTable s !! x); [|done]. simpl. by intros [= <-].
  - intros Hchain Hun. unfold enforceSubmitTransaction.
    rewrite decide_False by done.
    destruct (m_txsTable s !! hash _tx) as [t|] eqn:Hk.
    + destruct (sealed t) eqn:Hs.
      * destruct (Hun t eq_refl) as [?|Hb]; [congruence|].
        rewrite Hb. simpl. split; [done|].
        eexists. rewrite lookup_insert_eq. by simpl.
      * simpl. split; [done|]. eexists. rewrite lookup_insert_eq. by simpl.
    + pose proof (insertWithoutLock_fresh _tx s Hk) as [Hst Ht].
      destruct (insertWithoutLock _tx s) as [st s1]. cbn [fst snd] in *. subst st.
      cbn [fst snd]. split; [done|].
      eexists. simpl. rewrite lookup_insert_eq. by simpl.
  - intros x t. rewrite batchMarkAllTxs_table, lookup_fmap.
    destruct (m_txsTable s !! x); [|done]. simpl. by intros [= <-].
Qed.

(** On the pool of scenario S2: what the fetch leaves on [txAA], and what
    the proposal [(7, 0xDE)] leaves on it when it arrives instead. *)
Lemma seal_paths_witness :
  (∃ t, m_txsTable (batchFetchTxs cfg2 1 [] [] 10 None true poolA).2 !! 170%N = Some t ∧
        sealed t = true ∧ batchId t = noBatchId ∧ batchHash t = emptyHash) ∧
  ((enforceSubmitTransaction cfg2 (proposedAA 7 222) poolA).1 = StatusNone ∧
   ∃ t', m_txsTable (enforceSubmitTransaction cfg2 (proposedAA 7 222) poolA).2 !! 170%N
         = Some t' ∧
         sealed t' = true ∧ batchId t' = 7 ∧ batchHash t' = 222%N).
Proof.
  destruct (seal_paths_and_batch_fields cfg2 1 10 None true [170%N] 7 222%N
              (proposedAA 7 222) poolA) as (Hfetch & _ & Henforce & _).
  - apply (bool_decide_unpack _). by vm_compute.
  - split.
    + apply Hfetch. vm_compute. apply list_elem_of_here.
    + apply Henforce; [done|].
      intros t Ht. left. vm_compute in Ht. by injection Ht as <-.
Defined.

(** ** Fetch, then unseal (C2) *)

Section FetchUnseal.

Implicit Types s : MemoryStorage.

Lemma sealedCounterOk_range s :
  sealedCounterOk s → wrap64 (m_sealedTxsSize s) = m_sealedTxsSize s.
Proof. intros Hok. apply wrap64_small. rewrite Hok. apply wrap64_range. Qed.

(** Removing a hash that is absent or unsealed leaves the counter. *)
Lemma removeSubmittedTxWithoutLock_unsealed r n s :
  (∀ t, m_txsTable s !! r_txHash r = Some t → sealed t = false) →
  m_sealedTxsSize (removeSubmittedTxWithoutLock r n s).2 = m_sealedTxsSize s.
Proof.
  intros Hun. unfold removeSubmittedTxWithoutLock, removeWithoutLock.
  destruct (m_txsTable s !! r_txHash r) as [t|]; [|done].
  rewrite (Hun t eq_refl). simpl. destruct n; [|done].
  pose proof (notifyTxResult_frame t r
                (set_txsTable (delete (r_txHash r) (m_txsTable s)) s)) as (_ & Hc & _).
  by destruct (notifyTxResult t r _).
Qed.

(** The drain of unsealed transactions leaves the counter. *)
Lemma removeInvalidTxs_unsealed lock s :
  stagedUnsealed s →
  sealedCounterOk s →
  m_sealedTxsSize (removeInvalidTxs lock s) = m_sealedTxsSize s.
Proof.
  intros Hst Hok. unfold removeInvalidTxs. destruct (decide _); [done|]. simpl.
  set (step := λ st txHash,
         (removeSubmittedTxWithoutLock
            (mkResult txHash TransactionPoolTimeout "" "" "") true st).2).
  assert (Hfold :
    (∀ h t, h ∈ m_invalidTxs s →
            m_txsTable (foldl step s (elements (m_invalidTxs s))) !! h = Some t →
            sealed t = false) ∧
    m_sealedTxsSize (foldl step s (elements (m_invalidTxs s))) = m_sealedTxsSize s ∧
    sealedCounterOk (foldl step s (elements (m_invalidTxs s)))).
  { apply (foldl_preserves_in
             (λ st, (∀ h t, h ∈ m_invalidTxs s → m_txsTable st !! h = Some t →
                            sealed t = false) ∧
                    m_sealedTxsSize st = m_sealedTxsSize s ∧ sealedCounterOk st));
      [|done].
    intros st x Hx (Hun & Hc & Hokst). apply elem_of_elements in Hx.
    subst step. cbn beta. split; [|split].
    - intros h t Hh. rewrite removeSubmittedTxWithoutLock_lookup.
      destruct (decide _); [done|]. by apply Hun.
    - rewrite removeSubmittedTxWithoutLock_unsealed; [done|].
      intros t. by apply Hun.
    - by apply removeSubmittedTxWithoutLock_sealedCounterOk. }
  destruct Hfold as (_ & Hc & Hokf).
  by rewrite notify_sealedTxsSize by by apply sealedCounterOk_le.
Qed.

(** Unsealing distinct hashes that are sealed under [(b, h)] takes as many
    off the counter. *)
Lemma unseal_counter b h hs s :
  NoDup hs →
  Forall (sealedUnder s b h) hs →
  wrap64 (m_sealedTxsSize (foldl (markTx b h false) s hs))
  = wrap64 (m_sealedTxsSize s - Z.of_nat (length hs)).
Proof.
  intros Hnd. revert s. induction Hnd as [|x hs Hx Hnd IH]; intros s Hall.
  { simpl. f_equal. lia. }
  apply Forall_cons in Hall as [(t & Ht & Hs & Hb & Hh) Hall].
  cbn [foldl]. rewrite IH.
  - unfold markTx. rewrite Ht, Hs, Hb, Hh, Z.eqb_refl, N.eqb_refl. simpl.
    rewrite wrap64_sub_l. f_equal. lia.
  - rewrite Forall_forall in *. intros y Hy.
    destruct (Hall y Hy) as (ty & Hty & ?). exists ty. split; [|done].
    rewrite markTx_table, lookup_alter_ne; [done|]. by intros ->.
Qed.

(** An unsealing under a pair that is not the stored one is skipped. *)
Lemma unseal_stale b h b' h' hs s :
  (b', h') ≠ (b, h) →
  Forall (sealedUnder s b h) hs →
  foldl (markTx b' h' false) s hs = s.
Proof.
  intros Hne Hall. induction Hall as [|x hs (t & Ht & Hs & Hb & Hh) _ IH]; [done|].
  cbn [foldl].
  assert (Hskip : markTx b' h' false s x = s).
  { unfold markTx. rewrite Ht, Hs, Hb, Hh.
    by destruct (Z.eqb_spec b b'); destruct (N.eqb_spec h h'); subst. }
  by rewrite Hskip.
Qed.

End FetchUnseal.

(** Scenarios S2 and S3: the unsealing under [(7, 0xDE)] leaves the counter
    at one. *)
Lemma fetch_then_unseal_other_batch :
  ¬ fetchUnsealAsStated cfg2 1 10 None true 7 222%N poolA.
Proof. unfold fetchUnsealAsStated. vm_compute. discriminate. Qed.

(** C2, amended.  In a pool where I2 holds and nothing is staged for
    removal, [batchFetchTxs] with [avoidDuplicate] set, followed by
    [batchMarkTxs] on the returned hashes with [sealFlag = false] and the
    batch identity the fetch leaves on what it seals ([batchId = -1], empty
    [batchHash]), restores [sealedTxsSize] to its value before the fetch. *)
Theorem fetch_then_unseal_restores_counter
    (cfg : TxPoolConfig) (now limit : Z) (avoid : option (gset N)) (s : MemoryStorage) :
  keyed (m_txsTable s) →
  sealedCounterOk s →
  m_invalidTxs s = ∅ →
  m_sealedTxsSize
    (batchMarkTxs
       (hashesOf (batchFetchTxs cfg now [] [] limit avoid true s).1.1
                 (batchFetchTxs cfg now [] [] limit avoid true s).1.2)
       noBatchId emptyHash false
       (batchFetchTxs cfg now [] [] limit avoid true s).2)
  = m_sealedTxsSize s.
Proof.
  intros Hkeyed Hok Hempty.
  pose proof (batchFetchTxs_sealedCounterOk cfg now [] [] limit avoid true s Hok) as Hok2.
  pose proof (λ x, batchFetchTxs_fetched cfg now limit avoid true s x Hkeyed) as Hfetched.
  unfold batchFetchTxs in *.
  destruct (batchFetchTxsLoop_fetched cfg now limit avoid true (tableKeys s) [] [] s)
    as (_ & Hnd & _);
    [apply NoDup_fst_map_to_list|done|constructor
    |by intros h Hh; apply not_elem_of_nil in Hh|].
  destruct (batchFetchTxsLoop_counter cfg now limit avoid (m_sealedTxsSize s)
              (tableKeys s) [] [] s) as (Hst & Hc); [done| |simpl; f_equal; lia|].
  { intros h t Hh. rewrite Hempty in Hh. by apply not_elem_of_empty in Hh. }
  pose proof (batchFetchTxsLoop_sealedCounterOk cfg now limit avoid true
                (tableKeys s) [] [] s Hok) as Hok1.
  destruct (batchFetchTxsLoop _ _ _ _ _ _ _ _ _) as [[txs sys] s1].
  cbn [fst snd] in *.
  set (s2 := removeInvalidTxs false (notifyUnsealedTxsSize s1)) in *.
  assert (Hc2 : m_sealedTxsSize s2
                = wrap64 (m_sealedTxsSize s + Z.of_nat (length (hashesOf txs sys)))).
  { subst s2. rewrite removeInvalidTxs_unsealed.
    - rewrite notify_sealedTxsSize by by apply sealedCounterOk_le.
      by rewrite <- Hc, sealedCounterOk_range.
    - intros h t. rewrite notify_invalidTxs, notify_table. apply Hst.
    - by apply notify_sealedCounterOk. }
  assert (Hall : Forall (sealedUnder s2 noBatchId emptyHash) (hashesOf txs sys)).
  { apply Forall_forall. intros x Hx. by apply Hfetched. }
  pose proof (unseal_counter noBatchId emptyHash _ s2 Hnd Hall) as Hc3.
  unfold batchMarkTxs, batchMarkTxsWithoutLock.
  set (s3 := foldl (markTx noBatchId emptyHash false) s2 (hashesOf txs sys)) in *.
  assert (Hok3 : sealedCounterOk s3).
  { subst s3. apply foldl_preserves; [|done]. intros. by apply markTx_sealedCounterOk. }
  rewrite notify_sealedTxsSize by by apply sealedCounterOk_le.
  rewrite <- (sealedCounterOk_range s3 Hok3), Hc3, Hc2, wrap64_sub_l.
  rewrite <- (sealedCounterOk_range s Hok) at 2. f_equal. lia.
Qed.

(** On the pool that holds [txAA] and [txBB]. *)
Lemma fetch_then_unseal_witness :
  m_sealedTxsSize
    (batchMarkTxs
       (hashesOf (batchFetchTxs cfg2 1 [] [] 10 None true poolAB).1.1
                 (batchFetchTxs cfg2 1 [] [] 10 None true poolAB).1.2)
       noBatchId emptyHash false
       (batchFetchTxs cfg2 1 [] [] 10 None true poolAB).2)
  = m_sealedTxsSize poolAB.
Proof.
  apply (fetch_then_unseal_restores_counter cfg2 1 10 None poolAB).
  - apply (bool_decide_unpack _). by vm_compute.
  - by vm_compute.
  - by vm_compute.
Defined.

(** X30.  Under any other batch identity the unsealing after a fetch is
    skipped as stale: the counter keeps the value the fetch left. *)
Lemma fetch_then_stale_unseal_keeps_counter
    (cfg : TxPoolConfig) (now limit : Z) (avoid : option (gset N)) (dup : bool)
    (b : Z) (h : N) (s : MemoryStorage) :
  keyed (m_txsTable s) →
  sealedCounterOk s →
  (b, h) ≠ (noBatchId, emptyHash) →
  m_sealedTxsSize
    (batchMarkTxs
       (hashesOf (batchFetchTxs cfg now [] [] limit avoid dup s).1.1
                 (batchFetchTxs cfg now [] [] limit avoid dup s).1.2)
       b h false
       (batchFetchTxs cfg now [] [] limit avoid dup s).2)
  = m_sealedTxsSize (batchFetchTxs cfg now [] [] limit avoid dup s).2.
Proof.
  intros Hkeyed Hok Hne.
  pose proof (batchFetchTxs_sealedCounterOk cfg now [] [] limit avoid dup s Hok) as Hok2.
  unfold batchMarkTxs, batchMarkTxsWithoutLock.
  rewrite (unseal_stale noBatchId emptyHash b h); [|done|].
  - by rewrite notify_sealedTxsSize by by apply sealedCounterOk_le.
  - apply Forall_forall. intros x Hx. by apply batchFetchTxs_fetched.
Qed.

(** Without [avoidDuplicate] the fetch takes a sealed transaction again
    without counting it, and the unsealing then takes one off the counter. *)
Lemma fetch_sealed_again_then_unseal :
  m_sealedTxsSize poolSealedA = 1 ∧
  m_sealedTxsSize
    (batchMarkTxs
       (hashesOf (batchFetchTxs cfg2 1 [] [] 10 None false poolSealedA).1.1
                 (batchFetchTxs cfg2 1 [] [] 10 None false poolSealedA).1.2)
       noBatchId emptyHash false
       (batchFetchTxs cfg2 1 [] [] 10 None false poolSealedA).2) = 0.
Proof. by vm_compute. Qed.

(** ** The scenarios of the specification, run on the model *)

(** S1: with [poolLimit = 2] the third client submission is refused. *)
Example scenario_pool_full :
  (verifyAndSubmitTransaction cfg2 0 txAA (Some 1%N) true true (emptyPool true 1000)).1
  = StatusNone ∧
  (verifyAndSubmitTransaction cfg2 0 txBB (Some 2%N) true true poolA).1 = StatusNone ∧
  (verifyAndSubmitTransaction cfg2 0 txCC (Some 3%N) true true poolAB).1 = TxPoolIsFull.
Proof. by vm_compute. Qed.

(** S2: the fetch returns the one transaction and seals it. *)
Example scenario_fetch :
  (batchFetchTxs cfg2 1 [] [] 10 None true poolA).1 = ([mkMeta 170 "bob" 0], []) ∧
  m_sealedTxsSize poolFetchedA = 1 ∧
  sealed <$> m_txsTable poolFetchedA !! 170%N = Some true.
Proof. by vm_compute. Qed.

(** S3 on the code: the unsealing under [(7, 0xDE)] of a transaction the
    fetch has just sealed is skipped. *)
Example scenario_unseal_after_fetch :
  batchMarkTxs [170%N] 7 222%N false poolFetchedA
  = emit (EvUnsealedTxsNotifier 0) poolFetchedA.
Proof. by vm_compute. Qed.

(** S4: the commit empties the table, fires the callback and tells both
    nonce checkers. *)
Example scenario_commit :
  m_txsTable (batchRemove 9 7 [committed 170 "1"] poolFetchedA) = ∅ ∧
  m_sealedTxsSize (batchRemove 9 7 [committed 170 "1"] poolFetchedA) = 0 ∧
  firedBetween poolFetchedA (batchRemove 9 7 [committed 170 "1"] poolFetchedA)
  = [EvSubmitCallback 1 (mkResult 170 StatusNone "1" "alice" "bob");
     EvPoolNonceBatchRemove ["1"]; EvLedgerNonceBatchInsert 7 ["1"];
     EvUnsealedTxsNotifier 0].
Proof. by vm_compute. Qed.

(** S5: the reaper removes the expired transaction and answers its
    submitter with [TransactionPoolTimeout]. *)
Example scenario_expiry :
  let submitted :=
    (verifyAndSubmitTransaction cfg2 0 txAA (Some 1%N) true true (emptyPool true 100)).2 in
  m_txsTable (cleanUpExpiredTransactions cfg2 200 submitted) = ∅ ∧
  firedBetween submitted (cleanUpExpiredTransactions cfg2 200 submitted)
  = [EvPoolNonceBatchRemove ["1"]; EvUnsealedTxsNotifier 0;
     EvSubmitCallback 1 (mkResult 170 TransactionPoolTimeout "" "alice" "bob")].
Proof. by vm_compute. Qed.

(** S6: the peer's known hash is recorded, the unknown one is returned once. *)
Example scenario_filter :
  (filterUnknownTxs cfg2 [170%N; 187%N] 1%N poolA).1 = [187%N] ∧
  (filterUnknownTxs cfg2 [170%N; 187%N] 1%N
     (filterUnknownTxs cfg2 [170%N; 187%N] 1%N poolA).2).1 = [].
Proof. by vm_compute. Qed.

(** * Further properties of the code *)

(** ** Submission *)

(** The transaction as [verifyAndSubmitTransaction] stores it. *)
Lemma verifyAndSubmitTransaction_accepted cfg now tx cb check lock s :
  (verifyAndSubmitTransaction cfg now tx cb check lock s).1 = StatusNone →
  m_txsTable s !! hash tx = None ∧
  (check = true → tableSize s < poolLimit cfg) ∧
  verify cfg tx = StatusNone ∧
  m_txsTable (verifyAndSubmitTransaction cfg now tx cb check lock s).2
  = <[hash tx := match cb with
                 | Some c => setSubmitCallback (Some c) tx
                 | None => tx
                 end]> (m_txsTable s).
Proof.
  unfold verifyAndSubmitTransaction, txpoolStorageCheck.
  destruct (m_txsTable s !! hash tx) eqn:Hk; [done|].
  match goal with |- context [if check && _ then (_, ?x) else _] => set (s1 := x) end.
  assert (Hs1 : m_txsTable s1 = m_txsTable s) by (subst s1; by destruct (_ && _)).
  destruct check; simpl.
  - destruct (Z.leb_spec (poolLimit cfg) (tableSize s)); [done|].
    destruct (verify cfg tx); try done. intros _.
    repeat split; try done. unfold insert.
    assert (Hnew : m_txsTable s1 !! hash (match cb with
                     | Some c => setSubmitCallback (Some c) tx | None => tx end) = None)
      by (rewrite Hs1; by destruct cb).
    destruct (insertWithoutLock_fresh _ s1 Hnew) as [_ Ht].
    rewrite <- Hs1. destruct lock; rewrite Ht; by destruct cb.
  - destruct (verify cfg tx); try done. intros _.
    repeat split; try done. unfold insert.
    assert (Hnew : m_txsTable s1 !! hash (match cb with
                     | Some c => setSubmitCallback (Some c) tx | None => tx end) = None)
      by (rewrite Hs1; by destruct cb).
    destruct (insertWithoutLock_fresh _ s1 Hnew) as [_ Ht].
    rewrite <- Hs1. destruct lock; rewrite Ht; by destruct cb.
Qed.

(** X1.  A submission that is not accepted (known hash, full pool, or a
    transaction the validator refuses) leaves the table, the sealed counter,
    the staging sets, the missed set and the event log as they were. *)
Theorem rejected_submission_changes_nothing
    (cfg : TxPoolConfig) (now : Z) (tx : Transaction)
    (cb : option TxSubmitCallback) (check lock : bool) (s : MemoryStorage) :
  (verifyAndSubmitTransaction cfg now tx cb check lock s).1 ≠ StatusNone →
  m_txsTable (verifyAndSubmitTransaction cfg now tx cb check lock s).2 = m_txsTable s ∧
  m_sealedTxsSize (verifyAndSubmitTransaction cfg now tx cb check lock s).2
  = m_sealedTxsSize s ∧
  m_invalidTxs (verifyAndSubmitTransaction cfg now tx cb check lock s).2
  = m_invalidTxs s ∧
  m_missedTxs (verifyAndSubmitTransaction cfg now tx cb check lock s).2
  = m_missedTxs s ∧
  events (verifyAndSubmitTransaction cfg now tx cb check lock s).2 = events s.
Proof.
  unfold verifyAndSubmitTransaction, txpoolStorageCheck.
  destruct (m_txsTable s !! hash tx) eqn:Hk; [done|].
  match goal with |- context [if check && _ then (_, ?x) else _] => set (s1 := x) end.
  assert (Hs1 : m_txsTable s1 = m_txsTable s ∧ m_sealedTxsSize s1 = m_sealedTxsSize s ∧
                m_invalidTxs s1 = m_invalidTxs s ∧ m_missedTxs s1 = m_missedTxs s ∧
                events s1 = events s) by (subst s1; by destruct (_ && _)).
  destruct (check && _); [done|].
  destruct (verify cfg tx); try done.
  unfold insert, insertWithoutLock.
  assert (Hnew : m_txsTable s1 !! hash (match cb with
                   | Some c => setSubmitCallback (Some c) tx | None => tx end) = None).
  { destruct Hs1 as [-> _]. by destruct cb. }
  destruct lock; rewrite Hnew; simpl; by intros [].
Qed.

(** The third submission of scenario S1. *)
Lemma rejected_submission_witness :
  m_txsTable (verifyAndSubmitTransaction cfg2 5 txCC (Some 3%N) true true poolAB).2
  = m_txsTable poolAB ∧
  m_sealedTxsSize (verifyAndSubmitTransaction cfg2 5 txCC (Some 3%N) true true poolAB).2
  = m_sealedTxsSize poolAB ∧
  m_invalidTxs (verifyAndSubmitTransaction cfg2 5 txCC (Some 3%N) true true poolAB).2
  = m_invalidTxs poolAB ∧
  m_missedTxs (verifyAndSubmitTransaction cfg2 5 txCC (Some 3%N) true true poolAB).2
  = m_missedTxs poolAB ∧
  events (verifyAndSubmitTransaction cfg2 5 txCC (Some 3%N) true true poolAB).2
  = events poolAB.
Proof.
  apply (rejected_submission_changes_nothing cfg2 5 txCC (Some 3%N) true true poolAB).
  vm_compute. discriminate.
Defined.

(** X2.  A submission is accepted exactly when the hash is new, the pool is
    below its limit (if the limit is checked) and the validator accepts the
    transaction; the table then gains the transaction, with the callback
    installed, under its hash. *)
Theorem submission_accepted_iff
    (cfg : TxPoolConfig) (now : Z) (tx : Transaction)
    (cb : option TxSubmitCallback) (check lock : bool) (s : MemoryStorage) :
  ((verifyAndSubmitTransaction cfg now tx cb check lock s).1 = StatusNone ↔
   m_txsTable s !! hash tx = None ∧
   (check = true → tableSize s < poolLimit cfg) ∧
   verify cfg tx = StatusNone) ∧
  ((verifyAndSubmitTransaction cfg now tx cb check lock s).1 = StatusNone →
   m_txsTable (verifyAndSubmitTransaction cfg now tx cb check lock s).2
   = <[hash tx := match cb with
                  | Some c => setSubmitCallback (Some c) tx
                  | None => tx
                  end]> (m_txsTable s)).
Proof.
  split; [split|].
  - intros H. by destruct (verifyAndSubmitTransaction_accepted _ _ _ _ _ _ _ H)
      as (? & ? & ? & _).
  - intros (Hnew & Hroom & Hok).
    unfold verifyAndSubmitTransaction, txpoolStorageCheck. rewrite Hnew, Hok.
    match goal with |- context [if check && _ then (_, ?x) else _] => set (s1 := x) end.
    assert (Hs1 : m_txsTable s1 = m_txsTable s) by (subst s1; by destruct (_ && _)).
    assert (Hfull : check && (poolLimit cfg <=? tableSize s) = false).
    { destruct check; [|done]. simpl. apply Z.leb_gt. by apply Hroom. }
    rewrite Hfull. unfold insert.
    assert (Hfresh : m_txsTable s1 !! hash (match cb with
                     | Some c => setSubmitCallback (Some c) tx | None => tx end) = None)
      by (rewrite Hs1; by destruct cb).
    destruct lock; by apply insertWithoutLock_fresh.
  - intros H. by destruct (verifyAndSubmitTransaction_accepted _ _ _ _ _ _ _ H)
      as (_ & _ & _ & ?).
Qed.



(** ** Two invariants of the reachable states *)

Section Staging.

Implicit Types s : MemoryStorage.

Lemma sameStaging_refl s : sameStaging s s.
Proof. done. Qed.

Lemma sameStaging_trans s1 s2 s3 :
  sameStaging s1 s2 → sameStaging s2 s3 → sameStaging s1 s3.
Proof. intros [? ?] [? ?]. split; congruence. Qed.

Lemma notify_sameStaging s : sameStaging s (notifyUnsealedTxsSize s).
Proof.
  unfold sameStaging, notifyUnsealedTxsSize, unSealedTxsSizeWithoutLock.
  destruct (m_unsealedTxsNotifier s); [|done]. by destruct (_ <? _).
Qed.

Lemma foldl_sameStaging {A} (f : MemoryStorage → A → MemoryStorage) l s :
  (∀ st x, sameStaging st (f st x)) → sameStaging s (foldl f s l).
Proof.
  intros Hf. apply (foldl_preserves (sameStaging s)); [|done].
  intros st x Hst. eapply sameStaging_trans; [exact Hst|apply Hf].
Qed.

Lemma insertWithoutLock_sameStaging tx s : sameStaging s (insertWithoutLock tx s).2.
Proof.
  unfold insertWithoutLock. destruct (m_txsTable s !! hash tx); [done|]. simpl.
  eapply sameStaging_trans; [|apply notify_sameStaging]. done.
Qed.

Lemma verifyAndSubmitTransaction_sameStaging cfg now tx cb check lock s :
  sameStaging s (verifyAndSubmitTransaction cfg now tx cb check lock s).2.
Proof.
  unfold verifyAndSubmitTransaction.
  destruct (txpoolStorageCheck tx s); try done.
  match goal with |- context [if check && _ then (_, ?x) else _] => set (s1 := x) end.
  assert (Hs1 : sameStaging s s1) by (subst s1; by destruct (_ && _)).
  destruct (check && _); [done|].
  destruct (verify cfg tx); try done. unfold insert.
  destruct lock; (eapply sameStaging_trans; [exact Hs1|apply insertWithoutLock_sameStaging]).
Qed.

Lemma batchImportTxs_sameStaging cfg now txs s :
  sameStaging s (batchImportTxs cfg now txs s).
Proof.
  unfold batchImportTxs.
  eapply sameStaging_trans; [|apply notify_sameStaging].
  apply foldl_sameStaging. intros st [t|]; simpl; [|done].
  destruct (invalid t); [done|]. apply verifyAndSubmitTransaction_sameStaging.
Qed.

Lemma enforceSubmitTransaction_sameStaging cfg tx s :
  sameStaging s (enforceSubmitTransaction cfg tx s).2.
Proof.
  unfold enforceSubmitTransaction. destruct (decide _); [done|].
  destruct (m_txsTable s !! hash tx) as [t|] eqn:Hk.
  - destruct (negb (sealed t) || _); [by destruct (sealed t)|]. by destruct (_ && _).
  - pose proof (insertWithoutLock_sameStaging tx s) as Hi.
    destruct (insertWithoutLock tx s) as [st s1]. simpl in Hi.
    destruct st; try done;
      destruct (m_txsTable s1 !! hash tx) as [t|]; try done;
      by destruct (negb (sealed t)).
Qed.

Lemma batchVerifyAndSubmitTransaction_sameStaging cfg txs s :
  sameStaging s (batchVerifyAndSubmitTransaction cfg txs s).2.
Proof.
  unfold batchVerifyAndSubmitTransaction.
  assert (Hloop : sameStaging s (batchVerifyAndSubmitLoop cfg txs s).2).
  { revert s. induction txs as [|[tx|] txs IH]; intros s; simpl; [done| |apply IH].
    destruct (invalid tx); [apply IH|].
    pose proof (enforceSubmitTransaction_sameStaging cfg tx s) as H1.
    destruct (enforceSubmitTransaction cfg tx s) as [r s1]. simpl in H1.
    destruct r; try done. eapply sameStaging_trans; [exact H1|apply IH]. }
  destruct (batchVerifyAndSubmitLoop cfg txs s) as [[] s1]; simpl in *; [|done].
  eapply sameStaging_trans; [exact Hloop|apply notify_sameStaging].
Qed.

Lemma markTx_sameStaging b h flag s x : sameStaging s (markTx b h flag s x).
Proof.
  unfold markTx. destruct (m_txsTable s !! x) as [t|]; [|done].
  destruct (_ && _ && _); [done|]. by destruct flag, (sealed t).
Qed.

Lemma batchMarkTxs_sameStaging hs b h flag s :
  sameStaging s (batchMarkTxs hs b h flag s).
Proof.
  assert (sameStaging s (batchMarkTxsWithoutLock hs b h flag s)).
  { eapply sameStaging_trans; [|apply notify_sameStaging].
    apply foldl_sameStaging. intros. apply markTx_sameStaging. }
  unfold batchMarkTxs. by destruct flag.
Qed.

Lemma batchMarkAllTxs_sameStaging flag s : sameStaging s (batchMarkAllTxs flag s).
Proof.
  unfold batchMarkAllTxs.
  eapply sameStaging_trans; [|apply notify_sameStaging].
  assert (sameStaging s (foldl (markAllTx flag) s (tableKeys s))).
  { apply foldl_sameStaging. intros st k. unfold markAllTx.
    by destruct (m_txsTable st !! k). }
  by destruct flag.
Qed.

Lemma removeWithoutLock_sameStaging h s : sameStaging s (removeWithoutLock h s).2.
Proof.
  unfold removeWithoutLock. destruct (m_txsTable s !! h) as [t|]; [|done].
  by destruct (sealed t).
Qed.

Lemma notifyTxResult_sameStaging t r s : sameStaging s (notifyTxResult t r s).2.
Proof. unfold notifyTxResult. simpl. by destruct (submitCallback t). Qed.

Lemma batchRemove_sameStaging now b rs s : sameStaging s (batchRemove now b rs s).
Proof.
  unfold batchRemove.
  assert (Hloop : ∀ rs0 s0, sameStaging s0 (batchRemoveLoop rs0 s0).2).
  { induction rs0 as [|r rs0 IH]; intros s0; simpl; [done|].
    pose proof (removeWithoutLock_sameStaging (r_txHash r) s0) as H1.
    destruct (removeWithoutLock (r_txHash r) s0) as [tx s1]. simpl in H1.
    specialize (IH s1). destruct (batchRemoveLoop rs0 s1) as [[ns res] s2].
    simpl in *. by eapply sameStaging_trans. }
  assert (Hres : ∀ res s0, sameStaging s0 (notifyResults res s0)).
  { induction res as [|[[t|] r] res IH]; intros s0; simpl; [done| |apply IH].
    eapply sameStaging_trans; [apply notifyTxResult_sameStaging|apply IH]. }
  specialize (Hloop rs (set_blockNumberUpdatedTime now s)).
  destruct (batchRemoveLoop rs _) as [[ns res] s1]. simpl in Hloop.
  eapply sameStaging_trans; [|apply Hres]. simpl.
  eapply sameStaging_trans; [|apply notify_sameStaging].
  by destruct (_ <? b), (_ && _).
Qed.

Lemma filterUnknownTxs_sameStaging cfg hs p s :
  sameStaging s (filterUnknownTxs cfg hs p s).2.
Proof.
  unfold filterUnknownTxs.
  assert (Hc : ∀ hs0 s0, sameStaging s0 (collectUnknown hs0 s0).2).
  { induction hs0 as [|x hs0 IH]; intros s0; simpl; [done|].
    destruct (bool_decide _); [apply IH|]. destruct (bool_decide _); [apply IH|].
    specialize (IH (set_missedTxs ({[x]} ∪ m_missedTxs s0) s0)).
    by destruct (collectUnknown hs0 _). }
  assert (Hf : sameStaging s (foldl (markKnown p) s hs)).
  { apply foldl_sameStaging. intros st x. unfold markKnown.
    by destruct (m_txsTable st !! x). }
  specialize (Hc hs (foldl (markKnown p) s hs)).
  destruct (collectUnknown hs _) as [u s2]. simpl in *.
  eapply sameStaging_trans; [exact Hf|]. eapply sameStaging_trans; [exact Hc|].
  by destruct (_ <=? _).
Qed.

Lemma fetchNewTxs_sameStaging limit s : sameStaging s (fetchNewTxs limit s).2.
Proof.
  unfold fetchNewTxs. generalize (tableKeys s) (@nil Transaction).
  intros keys. revert s. induction keys as [|k keys IH]; intros s acc; simpl; [done|].
  destruct (m_txsTable s !! k) as [tx|]; [|apply IH].
  destruct (synced tx); [apply IH|].
  destruct (limit <=? _); [done|].
  eapply sameStaging_trans; [|apply IH]. done.
Qed.

(** The drain leaves nothing staged, provided nonces were staged only
    together with hashes. *)
Lemma removeInvalidTxs_nothingStaged lock s :
  (m_invalidTxs s = ∅ → m_invalidNonces s = ∅) →
  nothingStaged (removeInvalidTxs lock s).
Proof.
  intros Hq. unfold removeInvalidTxs.
  destruct (decide (m_invalidTxs s = ∅)) as [E|_]; [|done].
  split; [done|by apply Hq].
Qed.

Lemma batchFetchTxs_nothingStaged cfg now txs sys limit avoid dup s :
  nothingStaged s →
  nothingStaged (batchFetchTxs cfg now txs sys limit avoid dup s).2.
Proof.
  intros [Ht Hn]. unfold batchFetchTxs.
  assert (Hq : m_invalidTxs (batchFetchTxsLoop cfg now limit avoid dup (tableKeys s)
                               txs sys s).2 = ∅ →
               m_invalidNonces (batchFetchTxsLoop cfg now limit avoid dup (tableKeys s)
                                  txs sys s).2 = ∅).
  { apply (batchFetchTxsLoop_ind cfg now limit avoid dup
             (λ _ _ _ st, m_invalidTxs st = ∅ → m_invalidNonces st = ∅)
             (λ _ _ st, m_invalidTxs st = ∅ → m_invalidNonces st = ∅)); [done| |done].
    intros k ks txs0 sys0 s0 txs' sys' s' Hq Hout.
    destruct Hout as [|tx _ _ _|tx _ _ _|tx txs' sys' _ _ _ _]; try done.
    - simpl. intros E. exfalso. set_solver.
    - simpl. intros E. exfalso. set_solver.
    - by destruct (sealed tx). }
  destruct (batchFetchTxsLoop _ _ _ _ _ _ _ _ _) as [[txs' sys'] s1]. simpl in *.
  apply removeInvalidTxs_nothingStaged.
  by destruct (notify_sameStaging s1) as [-> ->].
Qed.

Lemma cleanUpExpiredTransactions_nothingStaged cfg now s :
  nothingStaged s → nothingStaged (cleanUpExpiredTransactions cfg now s).
Proof.
  intros [Ht Hn]. unfold cleanUpExpiredTransactions, reaperScan.
  assert (Hq : ∀ keys n s0,
            (m_invalidTxs s0 = ∅ → m_invalidNonces s0 = ∅) →
            m_invalidTxs (cleanUpLoop cfg now keys n s0) = ∅ →
            m_invalidNonces (cleanUpLoop cfg now keys n s0) = ∅).
  { induction keys as [|k keys IH]; intros n s0 Hq; simpl; [done|].
    destruct (n <=? _); [|done].
    destruct (m_txsTable s0 !! k) as [tx|]; [|by apply IH].
    destruct (bool_decide _); [by apply IH|].
    destruct (_ && _); [by apply IH|].
    destruct (expired now tx s0); [|by apply IH].
    apply IH. simpl. intros E. exfalso. set_solver. }
  destruct (m_txsCleanUpSwitch s) as [[]|]; try done;
    (destruct (tableSize s =? 0); [done|]);
    apply removeInvalidTxs_nothingStaged, Hq; done.
Qed.

Lemma nothingStaged_same s s' : nothingStaged s → sameStaging s s' → nothingStaged s'.
Proof. intros [? ?] [? ?]. split; congruence. Qed.

End Staging.

Section Keyed.

Implicit Types s : MemoryStorage.

(** A table whose entries are entries of a keyed table, up to a rewriting
    that keeps the hash, is keyed. *)
Lemma keyed_from (m m' : gmap N Transaction) :
  keyed m →
  (∀ k t', m' !! k = Some t' → ∃ t, m !! k = Some t ∧ hash t' = hash t) →
  keyed m'.
Proof.
  intros Hm Hsub k t' Hk. destruct (Hsub k t' Hk) as (t & Ht & ->).
  by apply (Hm k).
Qed.

Lemma insertWithoutLock_keyed tx s :
  keyed (m_txsTable s) → keyed (m_txsTable (insertWithoutLock tx s).2).
Proof.
  intros Hk. unfold insertWithoutLock.
  destruct (m_txsTable s !! hash tx); [done|]. simpl.
  rewrite notify_table. by apply keyed_insert.
Qed.

Lemma verifyAndSubmitTransaction_keyed cfg now tx cb check lock s :
  keyed (m_txsTable s) →
  keyed (m_txsTable (verifyAndSubmitTransaction cfg now tx cb check lock s).2).
Proof.
  intros Hk. unfold verifyAndSubmitTransaction.
  destruct (txpoolStorageCheck tx s); try done.
  match goal with |- context [if check && _ then (_, ?x) else _] => set (s1 := x) end.
  assert (Hs1 : keyed (m_txsTable s1)) by (subst s1; by destruct (_ && _)).
  destruct (check && _); [done|].
  destruct (verify cfg tx); try done. unfold insert.
  destruct lock; by apply insertWithoutLock_keyed.
Qed.

Lemma batchImportTxs_keyed cfg now txs s :
  keyed (m_txsTable s) → keyed (m_txsTable (batchImportTxs cfg now txs s)).
Proof.
  intros Hk. unfold batchImportTxs. rewrite notify_table.
  apply (foldl_preserves (λ st, keyed (m_txsTable st))); [|done].
  intros st [t|] Hst; simpl; [|done]. destruct (invalid t); [done|].
  by apply verifyAndSubmitTransaction_keyed.
Qed.

Lemma enforceSubmitTransaction_keyed cfg tx s :
  keyed (m_txsTable s) → keyed (m_txsTable (enforceSubmitTransaction cfg tx s).2).
Proof.
  intros Hk. unfold enforceSubmitTransaction. destruct (decide _); [done|].
  destruct (m_txsTable s !! hash tx) as [t|] eqn:Ht.
  - pose proof (keyed_lookup _ _ _ Hk Ht) as Hh.
    destruct (negb (sealed t) || _); [|by destruct (_ && _)].
    destruct (sealed t); simpl; by apply keyed_insert.
  - pose proof (insertWithoutLock_keyed tx s Hk) as Hi.
    destruct (insertWithoutLock tx s) as [st s1]. simpl in Hi.
    destruct st.
    1: { simpl. by apply keyed_insert. }
    all: destruct (m_txsTable s1 !! hash tx) as [t|] eqn:Ht1; [|done];
      (destruct (negb (sealed t)); [|done]); simpl;
      apply keyed_insert; [done|]; simpl; by apply (keyed_lookup _ _ _ Hi Ht1).
Qed.

Lemma batchVerifyAndSubmitTransaction_keyed cfg txs s :
  keyed (m_txsTable s) →
  keyed (m_txsTable (batchVerifyAndSubmitTransaction cfg txs s).2).
Proof.
  intros Hk. unfold batchVerifyAndSubmitTransaction.
  assert (Hloop : keyed (m_txsTable (batchVerifyAndSubmitLoop cfg txs s).2)).
  { revert s Hk. induction txs as [|[tx|] txs IH]; intros s Hk; simpl; auto.
    destruct (invalid tx); auto.
    pose proof (enforceSubmitTransaction_keyed cfg tx s Hk) as H1.
    destruct (enforceSubmitTransaction cfg tx s) as [r s1]. simpl in H1.
    destruct r; auto. }
  destruct (batchVerifyAndSubmitLoop cfg txs s) as [[] s1]; simpl in *; [|done].
  by rewrite notify_table.
Qed.

Lemma removeInvalidTxs_keyed lock s :
  keyed (m_txsTable s) → keyed (m_txsTable (removeInvalidTxs lock s)).
Proof.
  intros Hk. apply (keyed_from (m_txsTable s)); [done|].
  intros k t'. rewrite removeInvalidTxs_lookup. destruct (decide _); [done|]. eauto.
Qed.

Lemma batchFetchTxs_keyed cfg now txs sys limit avoid dup s :
  keyed (m_txsTable s) →
  keyed (m_txsTable (batchFetchTxs cfg now txs sys limit avoid dup s).2).
Proof.
  intros Hk. unfold batchFetchTxs.
  assert (Hloop : keyed (m_txsTable (batchFetchTxsLoop cfg now limit avoid dup
                                       (tableKeys s) txs sys s).2)).
  { apply (batchFetchTxsLoop_ind cfg now limit avoid dup
             (λ _ _ _ st, keyed (m_txsTable st)) (λ _ _ st, keyed (m_txsTable st)));
      [done| |done].
    intros k ks txs0 sys0 s0 txs' sys' s' Hk0 Hout.
    destruct Hout as [|tx _ _ _|tx Htx _ _|tx txs' sys' Htx _ _ _]; try done.
    - apply keyed_insert; [done|]. simpl. by apply (keyed_lookup _ _ _ Hk0 Htx).
    - replace (m_txsTable (storeTx k (sealedByFetch tx)
                 (if negb (sealed tx) then incSealed s0 else s0)))
        with (<[k := sealedByFetch tx]> (m_txsTable s0)) by (by destruct (sealed tx)).
      apply keyed_insert; [done|]. simpl. by apply (keyed_lookup _ _ _ Hk0 Htx). }
  destruct (batchFetchTxsLoop _ _ _ _ _ _ _ _ _) as [[txs' sys'] s1]. simpl in *.
  apply removeInvalidTxs_keyed. by rewrite notify_table.
Qed.

Lemma batchMarkTxs_keyed hs b h flag s :
  keyed (m_txsTable s) → keyed (m_txsTable (batchMarkTxs hs b h flag s)).
Proof.
  intros Hk. apply (keyed_from (m_txsTable s)); [done|].
  intros k t'. rewrite batchMarkTxs_lookup.
  destruct (decide _); [|by eauto].
  destruct (m_txsTable s !! k) as [t|]; [|done]. simpl. intros [= <-].
  exists t. split; [done|]. unfold marked. destruct flag; [done|]. by destruct (_ && _).
Qed.

Lemma batchMarkAllTxs_keyed flag s :
  keyed (m_txsTable s) → keyed (m_txsTable (batchMarkAllTxs flag s)).
Proof.
  intros Hk. apply (keyed_from (m_txsTable s)); [done|].
  intros k t'. rewrite batchMarkAllTxs_table, lookup_fmap.
  destruct (m_txsTable s !! k) as [t|]; [|done]. simpl. intros [= <-].
  exists t. split; [done|]. by destruct flag.
Qed.

Lemma batchRemove_keyed now b rs s :
  keyed (m_txsTable s) → keyed (m_txsTable (batchRemove now b rs s)).
Proof.
  intros Hk. apply (keyed_from (m_txsTable s)); [done|].
  intros k t'. rewrite batchRemove_lookup. destruct (decide _); [done|]. eauto.
Qed.

Lemma filterUnknownTxs_keyed cfg hs p s :
  keyed (m_txsTable s) → keyed (m_txsTable (filterUnknownTxs cfg hs p s).2).
Proof.
  intros Hk. apply (keyed_from (m_txsTable s)); [done|].
  intros k t'. rewrite filterUnknownTxs_lookup.
  destruct (decide _); [|by eauto].
  destruct (m_txsTable s !! k) as [t|]; [|done]. simpl. intros [= <-]. by exists t.
Qed.

Lemma cleanUpExpiredTransactions_keyed cfg now s :
  keyed (m_txsTable s) → keyed (m_txsTable (cleanUpExpiredTransactions cfg now s)).
Proof.
  intros Hk. unfold cleanUpExpiredTransactions, reaperScan.
  assert (keyed (m_txsTable (removeInvalidTxs false
                               (cleanUpLoop cfg now (tableKeys s) 0 s)))).
  { apply removeInvalidTxs_keyed.
    by destruct (cleanUpLoop_frame cfg now (tableKeys s) 0 s) as (-> & _). }
  destruct (m_txsCleanUpSwitch s) as [[]|]; try done; by destruct (_ =? 0).
Qed.

End Keyed.

(** X4.  In every reachable state each transaction is stored under its own
    hash, and nothing is staged for removal: [m_invalidTxs] and
    [m_invalidNonces] are filled and emptied inside one call of
    [batchFetchTxs] or of the reaper. *)
Theorem reachable_keyed_nothing_staged (cfg : TxPoolConfig) (s : MemoryStorage) :
  reachable cfg s → keyed (m_txsTable s) ∧ nothingStaged s.
Proof.
  induction 1 as [| s now tx cb check lock _ [IHk IHs] _
                  | s now txs _ [IHk IHs] _
                  | s txs _ [IHk IHs]
                  | s now txs sys limit avoid dup _ [IHk IHs]
                  | s hs b h flag _ [IHk IHs]
                  | s flag _ [IHk IHs]
                  | s now b rs _ [IHk IHs]
                  | s hs p _ [IHk IHs]
                  | s limit _ [IHk IHs]
                  | s now _ [IHk IHs]
                  | s _ [IHk IHs]].
  - split; [apply map_Forall_empty|done].
  - split; [by apply verifyAndSubmitTransaction_keyed|].
    eapply nothingStaged_same; [done|apply verifyAndSubmitTransaction_sameStaging].
  - split; [by apply batchImportTxs_keyed|].
    eapply nothingStaged_same; [done|apply batchImportTxs_sameStaging].
  - split; [by apply batchVerifyAndSubmitTransaction_keyed|].
    eapply nothingStaged_same; [done|apply batchVerifyAndSubmitTransaction_sameStaging].
  - split; [by apply batchFetchTxs_keyed|by apply batchFetchTxs_nothingStaged].
  - split; [by apply batchMarkTxs_keyed|].
    eapply nothingStaged_same; [done|apply batchMarkTxs_sameStaging].
  - split; [by apply batchMarkAllTxs_keyed|].
    eapply nothingStaged_same; [done|apply batchMarkAllTxs_sameStaging].
  - split; [by apply batchRemove_keyed|].
    eapply nothingStaged_same; [done|apply batchRemove_sameStaging].
  - split; [by apply filterUnknownTxs_keyed|].
    eapply nothingStaged_same; [done|apply filterUnknownTxs_sameStaging].
  - split; [by apply fetchNewTxsLoop_keyed|].
    eapply nothingStaged_same; [done|apply fetchNewTxs_sameStaging].
  - split; [by apply cleanUpExpiredTransactions_keyed
           |by apply cleanUpExpiredTransactions_nothingStaged].
  - unfold clear. split; [rewrite notify_table; apply map_Forall_empty|].
    eapply nothingStaged_same; [|apply notify_sameStaging]. done.
Qed.

(** The pool of scenario S2 after the fetch. *)
Lemma reachable_invariants_witness :
  keyed (m_txsTable poolFetchedA) ∧ nothingStaged poolFetchedA.
Proof.
  apply (reachable_keyed_nothing_staged cfg2 poolFetchedA).
  apply reach_fetch, reach_submit; [apply reach_init|reflexivity].
Defined.

(** X5.  [batchRemove] raises the stored block number to the number of the
    batch and never lowers it: afterwards it is the larger of the two. *)
Theorem batchRemove_blockNumber_max
    (now : Z) (b : BlockNumber) (rs : list TransactionSubmitResult) (s : MemoryStorage) :
  m_blockNumber (batchRemove now b rs s) = Z.max (m_blockNumber s) b.
Proof.
  unfold batchRemove.
  pose proof (batchRemoveLoop_blockNumber rs (set_blockNumberUpdatedTime now s)) as Hb.
  destruct (batchRemoveLoop rs _) as [[ns res] s1]. simpl in Hb.
  rewrite notifyResults_blockNumber. simpl.
  assert (Hn : ∀ st, m_blockNumber (notifyUnsealedTxsSize st) = m_blockNumber st).
  { intros st. unfold notifyUnsealedTxsSize, unSealedTxsSizeWithoutLock.
    destruct (m_unsealedTxsNotifier st); [|done].
    by destruct (tableSize st <? m_sealedTxsSize st). }
  rewrite Hn.
  destruct (Z.ltb_spec (m_blockNumber s1) b) as [Hlt|Hge];
    destruct (_ && _); simpl; lia.
Qed.

(** X6.  [batchRemove] hands the same nonce list to the ledger nonce checker
    (with the batch number) and to the pool nonce checker.  The list holds the
    nonce of every transaction the batch removes and, for a result whose
    transaction is not in the pool, the nonce the result carries (unless it
    is empty); it has at most one entry per result. *)
Theorem batchRemove_forwards_nonces
    (now : Z) (b : BlockNumber) (rs : list TransactionSubmitResult) (s : MemoryStorage) :
  ∃ ns : list NonceType,
    EvLedgerNonceBatchInsert b ns ∈ firedBetween s (batchRemove now b rs s) ∧
    EvPoolNonceBatchRemove ns ∈ firedBetween s (batchRemove now b rs s) ∧
    (∀ r t, r ∈ rs → m_txsTable s !! r_txHash r = Some t → nonce t ∈ ns) ∧
    (∀ r, r ∈ rs → m_txsTable s !! r_txHash r = None → r_nonce r ≠ "" →
          r_nonce r ∈ ns) ∧
    (length ns ≤ length rs)%nat.
Proof.
  destruct (batchRemove_events now b rs s) as (f1 & f2 & E & _).
  exists (batchRemoveLoop rs (set_blockNumberUpdatedTime now s)).1.1.
  rewrite E. split; [|split; [|split; [|split]]].
  - apply elem_of_app. right. apply list_elem_of_further, list_elem_of_here.
  - apply elem_of_app. right. apply list_elem_of_here.
  - intros r t Hin Hk.
    by apply (batchRemoveLoop_nonce_present rs (set_blockNumberUpdatedTime now s) r t).
  - intros r Hin Hk Hn.
    by apply (batchRemoveLoop_nonce_absent rs (set_blockNumberUpdatedTime now s) r).
  - apply batchRemoveLoop_nonces_length.
Qed.


(** ** The missed set and the settings *)

Section Settings.

Implicit Types s : MemoryStorage.

Lemma sameSettings_refl s : sameSettings s s.
Proof. done. Qed.

Lemma sameSettings_trans s1 s2 s3 :
  sameSettings s1 s2 → sameSettings s2 s3 → sameSettings s1 s3.
Proof.
  intros (? & ? & ? & ?) (? & ? & ? & ?).
  split; [|split; [|split]]; congruence.
Qed.

Lemma notify_sameSettings s : sameSettings s (notifyUnsealedTxsSize s).
Proof.
  unfold sameSettings, notifyUnsealedTxsSize, unSealedTxsSizeWithoutLock.
  destruct (m_unsealedTxsNotifier s) eqn:E; [|done].
  by destruct (tableSize s <? m_sealedTxsSize s).
Qed.

Lemma foldl_sameSettings {A} (f : MemoryStorage → A → MemoryStorage) l s :
  (∀ st x, sameSettings st (f st x)) → sameSettings s (foldl f s l).
Proof.
  intros Hf. apply (foldl_preserves (sameSettings s)); [|done].
  intros st x Hst. eapply sameSettings_trans; [exact Hst|apply Hf].
Qed.

Lemma insertWithoutLock_sameSettings tx s : sameSettings s (insertWithoutLock tx s).2.
Proof.
  unfold insertWithoutLock. destruct (m_txsTable s !! hash tx); [done|]. simpl.
  eapply sameSettings_trans; [|apply notify_sameSettings]. done.
Qed.

Lemma verifyAndSubmitTransaction_sameSettings cfg now tx cb check lock s :
  sameSettings s (verifyAndSubmitTransaction cfg now tx cb check lock s).2.
Proof.
  unfold verifyAndSubmitTransaction.
  destruct (txpoolStorageCheck tx s); try done.
  match goal with |- context [if check && _ then (_, ?x) else _] => set (s1 := x) end.
  assert (Hs1 : sameSettings s s1) by (subst s1; by destruct (_ && _)).
  destruct (check && _); [done|].
  destruct (verify cfg tx); try done. unfold insert.
  destruct lock; (eapply sameSettings_trans; [exact Hs1|apply insertWithoutLock_sameSettings]).
Qed.

Lemma batchImportTxs_sameSettings cfg now txs s :
  sameSettings s (batchImportTxs cfg now txs s).
Proof.
  unfold batchImportTxs.
  eapply sameSettings_trans; [|apply notify_sameSettings].
  apply foldl_sameSettings. intros st [t|]; simpl; [|done].
  destruct (invalid t); [done|]. apply verifyAndSubmitTransaction_sameSettings.
Qed.

Lemma enforceSubmitTransaction_sameSettings cfg tx s :
  sameSettings s (enforceSubmitTransaction cfg tx s).2.
Proof.
  unfold enforceSubmitTransaction. destruct (decide _); [done|].
  destruct (m_txsTable s !! hash tx) as [t|] eqn:Hk.
  - destruct (negb (sealed t) || _); [by destruct (sealed t)|]. by destruct (_ && _).
  - pose proof (insertWithoutLock_sameSettings tx s) as Hi.
    destruct (insertWithoutLock tx s) as [st s1]. simpl in Hi.
    destruct st; try done;
      destruct (m_txsTable s1 !! hash tx) as [t|]; try done;
      by destruct (negb (sealed t)).
Qed.

Lemma batchVerifyAndSubmitTransaction_sameSettings cfg txs s :
  sameSettings s (batchVerifyAndSubmitTransaction cfg txs s).2.
Proof.
  unfold batchVerifyAndSubmitTransaction.
  assert (Hloop : sameSettings s (batchVerifyAndSubmitLoop cfg txs s).2).
  { revert s. induction txs as [|[tx|] txs IH]; intros s; simpl; [done| |apply IH].
    destruct (invalid tx); [apply IH|].
    pose proof (enforceSubmitTransaction_sameSettings cfg tx s) as H1.
    destruct (enforceSubmitTransaction cfg tx s) as [r s1]. simpl in H1.
    destruct r; try done. eapply sameSettings_trans; [exact H1|apply IH]. }
  destruct (batchVerifyAndSubmitLoop cfg txs s) as [[] s1]; simpl in *; [|done].
  eapply sameSettings_trans; [exact Hloop|apply notify_sameSettings].
Qed.

Lemma markTx_sameSettings b h flag s x : sameSettings s (markTx b h flag s x).
Proof.
  unfold markTx. destruct (m_txsTable s !! x) as [t|]; [|done].
  destruct (_ && _ && _); [done|]. by destruct flag, (sealed t).
Qed.

Lemma batchMarkTxs_sameSettings hs b h flag s :
  sameSettings s (batchMarkTxs hs b h flag s).
Proof.
  assert (sameSettings s (batchMarkTxsWithoutLock hs b h flag s)).
  { eapply sameSettings_trans; [|apply notify_sameSettings].
    apply foldl_sameSettings. intros. apply markTx_sameSettings. }
  unfold batchMarkTxs. by destruct flag.
Qed.

Lemma batchMarkAllTxs_sameSettings flag s : sameSettings s (batchMarkAllTxs flag s).
Proof.
  unfold batchMarkAllTxs.
  eapply sameSettings_trans; [|apply notify_sameSettings].
  assert (sameSettings s (foldl (markAllTx flag) s (tableKeys s))).
  { apply foldl_sameSettings. intros st k. unfold markAllTx.
    by destruct (m_txsTable st !! k). }
  by destruct flag.
Qed.

Lemma removeWithoutLock_sameSettings h s : sameSettings s (removeWithoutLock h s).2.
Proof.
  unfold removeWithoutLock. destruct (m_txsTable s !! h) as [t|]; [|done].
  by destruct (sealed t).
Qed.

Lemma notifyTxResult_sameSettings t r s : sameSettings s (notifyTxResult t r s).2.
Proof. unfold notifyTxResult. simpl. by destruct (submitCallback t). Qed.

Lemma batchRemove_sameSettings now b rs s : sameSettings s (batchRemove now b rs s).
Proof.
  unfold batchRemove.
  assert (Hloop : ∀ rs0 s0, sameSettings s0 (batchRemoveLoop rs0 s0).2).
  { induction rs0 as [|r rs0 IH]; intros s0; simpl; [done|].
    pose proof (removeWithoutLock_sameSettings (r_txHash r) s0) as H1.
    destruct (removeWithoutLock (r_txHash r) s0) as [tx s1]. simpl in H1.
    specialize (IH s1). destruct (batchRemoveLoop rs0 s1) as [[ns res] s2].
    simpl in *. by eapply sameSettings_trans. }
  assert (Hres : ∀ res s0, sameSettings s0 (notifyResults res s0)).
  { induction res as [|[[t|] r] res IH]; intros s0; simpl; [done| |apply IH].
    eapply sameSettings_trans; [apply notifyTxResult_sameSettings|apply IH]. }
  specialize (Hloop rs (set_blockNumberUpdatedTime now s)).
  destruct (batchRemoveLoop rs _) as [[ns res] s1]. simpl in Hloop.
  eapply sameSettings_trans; [|apply Hres]. simpl.
  eapply sameSettings_trans; [|apply notify_sameSettings].
  by destruct (_ <? b), (_ && _).
Qed.

Lemma fetchNewTxs_sameSettings limit s : sameSettings s (fetchNewTxs limit s).2.
Proof.
  unfold fetchNewTxs. generalize (tableKeys s) (@nil Transaction).
  intros keys. revert s. induction keys as [|k keys IH]; intros s acc; simpl; [done|].
  destruct (m_txsTable s !! k) as [tx|]; [|apply IH].
  destruct (synced tx); [apply IH|].
  destruct (limit <=? _); [done|].
  eapply sameSettings_trans; [|apply IH]. done.
Qed.

Lemma removeInvalidTxs_sameSettings lock s : sameSettings s (removeInvalidTxs lock s).
Proof.
  unfold removeInvalidTxs. destruct (decide _); [done|].
  assert (Hf : sameSettings s
            (foldl (λ st txHash,
                      (removeSubmittedTxWithoutLock
                         (mkResult txHash TransactionPoolTimeout "" "" "") true st).2)
                   s (elements (m_invalidTxs s)))).
  { apply foldl_sameSettings. intros st x. unfold removeSubmittedTxWithoutLock.
    pose proof (removeWithoutLock_sameSettings x st) as H1. simpl.
    destruct (removeWithoutLock x st) as [[t|] s1]; simpl in *; [|done].
    eapply sameSettings_trans; [exact H1|].
    pose proof (notifyTxResult_sameSettings t
                  (mkResult x TransactionPoolTimeout "" "" "") s1) as H2.
    by destruct (notifyTxResult t _ s1). }
  pose proof (notify_sameSettings
                (foldl (λ st txHash,
                      (removeSubmittedTxWithoutLock
                         (mkResult txHash TransactionPoolTimeout "" "" "") true st).2)
                   s (elements (m_invalidTxs s)))) as Hn.
  pose proof (sameSettings_trans _ _ _ Hf Hn) as H. exact H.
Qed.

Lemma batchFetchTxs_sameSettings cfg now txs sys limit avoid dup s :
  sameSettings s (batchFetchTxs cfg now txs sys limit avoid dup s).2.
Proof.
  unfold batchFetchTxs.
  assert (Hl : sameSettings s
            (batchFetchTxsLoop cfg now limit avoid dup (tableKeys s) txs sys s).2).
  { apply (batchFetchTxsLoop_ind cfg now limit avoid dup
             (λ _ _ _ st, sameSettings s st) (λ _ _ st, sameSettings s st));
      [done| |done].
    intros k ks txs0 sys0 s0 txs' sys' s' Hq Hout.
    eapply sameSettings_trans; [exact Hq|].
    destruct Hout as [|tx _ _ _|tx _ _ _|tx txs' sys' _ _ _ _]; try done.
    by destruct (sealed tx). }
  destruct (batchFetchTxsLoop _ _ _ _ _ _ _ _ _) as [[txs' sys'] s1]. simpl in *.
  eapply sameSettings_trans; [exact Hl|].
  eapply sameSettings_trans; [apply notify_sameSettings|apply removeInvalidTxs_sameSettings].
Qed.

Lemma cleanUpExpiredTransactions_sameSettings cfg now s :
  sameSettings s (cleanUpExpiredTransactions cfg now s).
Proof.
  unfold cleanUpExpiredTransactions, reaperScan.
  assert (Hq : ∀ keys n s0, sameSettings s0 (cleanUpLoop cfg now keys n s0)).
  { induction keys as [|k keys IH]; intros n s0; simpl; [done|].
    destruct (n <=? _); [|done].
    destruct (m_txsTable s0 !! k) as [tx|]; [|by apply IH].
    destruct (bool_decide _); [by apply IH|].
    destruct (_ && _); [by apply IH|].
    destruct (expired now tx s0); [|by apply IH].
    eapply sameSettings_trans; [|apply IH]. done. }
  destruct (m_txsCleanUpSwitch s) as [[]|]; try done;
    (destruct (tableSize s =? 0); [done|]);
    (eapply sameSettings_trans; [apply Hq|apply removeInvalidTxs_sameSettings]).
Qed.

End Settings.


(** ** Reading the table: [fetchTxs], [batchVerifyProposal], [getTxsHash] *)

Section Reads.

Implicit Types s : MemoryStorage.

Lemma fetchTxsLoop_spec hs fetched missed s :
  fetchTxsLoop hs fetched missed s
  = (fetched ++ omap (λ h, m_txsTable s !! h) hs, missed ++ batchVerifyProposal hs s).
Proof.
  revert fetched missed. induction hs as [|h hs IH]; intros fetched missed; simpl.
  { by rewrite !app_nil_r. }
  destruct (m_txsTable s !! h) as [t|] eqn:Hk; rewrite IH.
  - rewrite bool_decide_eq_true_2 by eauto. by rewrite <- app_assoc.
  - rewrite bool_decide_eq_false_2 by (by intros [? ?]). by rewrite <- app_assoc.
Qed.

Lemma batchVerifyProposal_elem_of hs s h :
  h ∈ batchVerifyProposal hs s ↔ h ∈ hs ∧ m_txsTable s !! h = None.
Proof.
  induction hs as [|x hs IH]; simpl.
  { split; [intros H; by apply not_elem_of_nil in H|intros [H _]; by apply not_elem_of_nil in H]. }
  destruct (bool_decide_reflect (is_Some (m_txsTable s !! x))) as [Hx|Hx].
  - rewrite IH, elem_of_cons. split; [intros [? ?]; auto|].
    intros [[->|?] Hn]; [|done]. rewrite Hn in Hx. by destruct Hx.
  - rewrite !elem_of_cons, IH. split.
    + intros [->|[? ?]]; [|auto]. split; [by left|].
      destruct (m_txsTable s !! x) eqn:E; [|done]. exfalso. eauto.
    + intros [[->|?] ?]; auto.
Qed.

Lemma batchVerifyProposal_length hs s :
  (length (omap (λ h, m_txsTable s !! h) hs) + length (batchVerifyProposal hs s)
   = length hs)%nat.
Proof.
  induction hs as [|h hs IH]; simpl; [done|].
  destruct (m_txsTable s !! h) as [t|] eqn:Hk.
  - rewrite bool_decide_eq_true_2 by eauto. simpl. f_equal. exact IH.
  - rewrite bool_decide_eq_false_2 by (by intros [? ?]). simpl.
    rewrite Nat.add_succ_r. f_equal. exact IH.
Qed.

Lemma getTxsHashLoop_spec limit keys acc s :
  (∀ k, k ∈ keys → is_Some (m_txsTable s !! k)) →
  getTxsHashLoop limit keys acc s
  = acc ++ take (Z.to_nat limit - length acc) keys.
Proof.
  revert acc. induction keys as [|k keys IH]; intros acc Hin; simpl.
  { by rewrite take_nil, app_nil_r. }
  destruct (Hin k) as [t Hk]; [apply list_elem_of_here|]. rewrite Hk.
  destruct (Z.leb_spec limit (Z.of_nat (length acc))) as [Hle|Hlt].
  - replace (Z.to_nat limit - length acc)%nat with 0%nat by lia.
    by rewrite app_nil_r.
  - rewrite IH by (intros; apply Hin; by apply list_elem_of_further).
    rewrite length_app. simpl.
    replace (Z.to_nat limit - length acc)%nat
      with (S (Z.to_nat limit - (length acc + 1)))%nat by lia.
    simpl. by rewrite <- app_assoc.
Qed.

Lemma tableKeys_length s : length (tableKeys s) = size (m_txsTable s).
Proof. unfold tableKeys. by rewrite length_fmap, length_map_to_list. Qed.

End Reads.

(** X8.  [fetchTxs] splits the requested hashes, in their order, into the
    transactions the table holds and the hashes it does not hold; what the
    caller's [_missedTxs] held before is discarded.  The missed hashes are the
    list [batchVerifyProposal] returns for the same hashes, and the two
    results together have one entry per requested hash. *)
Theorem fetchTxs_partition
    (missed0 : list N) (hs : list N) (s : MemoryStorage) :
  (fetchTxs missed0 hs s).1 = omap (λ h, m_txsTable s !! h) hs ∧
  (fetchTxs missed0 hs s).2 = batchVerifyProposal hs s ∧
  (∀ h, h ∈ (fetchTxs missed0 hs s).2 ↔ h ∈ hs ∧ m_txsTable s !! h = None) ∧
  (length (fetchTxs missed0 hs s).1 + length (fetchTxs missed0 hs s).2
   = length hs)%nat.
Proof.
  unfold fetchTxs. rewrite fetchTxsLoop_spec. simpl.
  split; [done|]. split; [done|]. split.
  - intros h. apply batchVerifyProposal_elem_of.
  - apply batchVerifyProposal_length.
Qed.

(** X9.  The two overloads of [batchVerifyProposal] agree: the one on a hash
    list answers [true] exactly when the one on a block returns no missing
    hash, which is when the table holds every hash of the proposal. *)
Theorem batchVerifyProposal_overloads_agree (hs : list N) (s : MemoryStorage) :
  (batchVerifyProposalHashes hs s = true ↔ batchVerifyProposal hs s = []) ∧
  (batchVerifyProposal hs s = [] ↔ ∀ h, h ∈ hs → is_Some (m_txsTable s !! h)).
Proof.
  assert (H2 : batchVerifyProposal hs s = []
               ↔ ∀ h, h ∈ hs → is_Some (m_txsTable s !! h)).
  { split.
    - intros E h Hin. destruct (m_txsTable s !! h) eqn:Hk; [eauto|].
      exfalso. assert (Hm : h ∈ batchVerifyProposal hs s)
        by (by apply batchVerifyProposal_elem_of).
      rewrite E in Hm. by apply not_elem_of_nil in Hm.
    - intros Hall. destruct (batchVerifyProposal hs s) as [|h l] eqn:E; [done|].
      assert (Hm : h ∈ batchVerifyProposal hs s) by (rewrite E; apply list_elem_of_here).
      apply batchVerifyProposal_elem_of in Hm as [Hin Hn].
      destruct (Hall h Hin) as [t Ht]. congruence. }
  split; [|exact H2]. rewrite H2.
  unfold batchVerifyProposalHashes. rewrite forallb_forall. split.
  - intros Hall h Hin. eapply bool_decide_eq_true_1, Hall.
    by apply list_elem_of_In.
  - intros Hall h Hin. apply bool_decide_eq_true_2, Hall. by apply list_elem_of_In.
Qed.

(** X10.  [getTxsHash] returns the first [_limit] keys of the table in
    iteration order: all of them when the limit is larger than the table,
    none when the limit is zero or negative. *)
Theorem getTxsHash_takes_limit (limit : Z) (s : MemoryStorage) :
  getTxsHash limit s = take (Z.to_nat limit) (tableKeys s) ∧
  length (getTxsHash limit s) = Nat.min (Z.to_nat limit) (size (m_txsTable s)) ∧
  NoDup (getTxsHash limit s) ∧
  (∀ h, h ∈ getTxsHash limit s → is_Some (m_txsTable s !! h)).
Proof.
  assert (E : getTxsHash limit s = take (Z.to_nat limit) (tableKeys s)).
  { unfold getTxsHash. rewrite getTxsHashLoop_spec.
    - simpl. by rewrite Nat.sub_0_r.
    - intros k. by rewrite elem_of_tableKeys. }
  rewrite E. split; [done|]. split; [|split].
  - by rewrite length_take, tableKeys_length.
  - apply (sublist_NoDup _ (tableKeys s)); [|apply sublist_take].
    apply NoDup_fst_map_to_list.
  - intros h Hin. apply elem_of_tableKeys.
    apply elem_of_take in Hin as (i & Hi & _).
    by apply list_elem_of_lookup_2 in Hi.
Qed.

(** ** Insertion of fetched transactions, and the missed set *)

Section Missed.

Implicit Types s : MemoryStorage.

Lemma insert_lookup tx s k :
  m_txsTable (insert tx s).2 !! k
  = match m_txsTable s !! k with
    | Some t => Some t
    | None => if decide (k = hash tx) then Some tx else None
    end.
Proof.
  unfold insert, insertWithoutLock.
  destruct (m_txsTable s !! hash tx) as [t0|] eqn:E; simpl.
  - destruct (m_txsTable s !! k) eqn:Ek; [done|].
    destruct (decide _) as [->|]; [congruence|done].
  - rewrite notify_table. simpl.
    destruct (decide (k = hash tx)) as [->|Hne].
    + by rewrite lookup_insert_eq, E.
    + rewrite lookup_insert_ne by done. by destruct (m_txsTable s !! k).
Qed.

Lemma foldl_insert_spec txs s :
  (∀ k t, m_txsTable s !! k = Some t →
          m_txsTable (foldl (λ st tx, (insert tx st).2) s txs) !! k = Some t) ∧
  (∀ tx, tx ∈ txs →
         is_Some (m_txsTable (foldl (λ st tx, (insert tx st).2) s txs) !! hash tx)) ∧
  sameSettings s (foldl (λ st tx, (insert tx st).2) s txs).
Proof.
  revert s. induction txs as [|tx txs IH]; intros s; simpl.
  { split; [done|]. split; [|done]. intros tx H. by apply not_elem_of_nil in H. }
  destruct (IH (insert tx s).2) as (Hkeep & Hin & Hset).
  split; [|split].
  - intros k t Hk. apply Hkeep. by rewrite insert_lookup, Hk.
  - intros tx' [->|Hin']%elem_of_cons; [|by apply Hin].
    pose proof (insert_lookup tx s (hash tx)) as Hl.
    destruct (m_txsTable s !! hash tx) as [t|].
    + rewrite (Hkeep _ _ Hl). eauto.
    + rewrite decide_True in Hl by done. rewrite (Hkeep _ _ Hl). eauto.
  - eapply sameSettings_trans; [|exact Hset]. apply insertWithoutLock_sameSettings.
Qed.

Lemma foldl_erase_missed (txs : list Transaction) (missed : gset N) :
  foldl (λ missed tx, missed ∖ {[hash tx]}) missed txs
  = missed ∖ list_to_set (hash <$> txs).
Proof.
  revert missed. induction txs as [|tx txs IH]; intros missed; simpl.
  - set_solver.
  - rewrite IH. set_solver.
Qed.

(** The second loop of [filterUnknownTxs]. *)
Lemma collectUnknown_spec hs s :
  NoDup (collectUnknown hs s).1 ∧
  (∀ u, u ∈ (collectUnknown hs s).1
        ↔ u ∈ hs ∧ m_txsTable s !! u = None ∧ u ∉ m_missedTxs s) ∧
  m_missedTxs (collectUnknown hs s).2
  = m_missedTxs s ∪ list_to_set (collectUnknown hs s).1.
Proof.
  revert s. induction hs as [|x hs IH]; intros s; simpl.
  { split; [constructor|]. split; [|set_solver].
    intros u. split; [intros H; by apply not_elem_of_nil in H|].
    intros [H _]. by apply not_elem_of_nil in H. }
  destruct (bool_decide_reflect (is_Some (m_txsTable s !! x))) as [Hx|Hx].
  { destruct (IH s) as (Hnd & Hiff & Hm). split; [done|]. split; [|done].
    intros u. rewrite Hiff, elem_of_cons. split; [intros (? & ? & ?); auto|].
    intros ([->|?] & Hn & ?); [|done]. rewrite Hn in Hx. by destruct Hx. }
  destruct (bool_decide_reflect (x ∈ m_missedTxs s)) as [Hmx|Hmx].
  { destruct (IH s) as (Hnd & Hiff & Hm). split; [done|]. split; [|done].
    intros u. rewrite Hiff, elem_of_cons. split; [intros (? & ? & ?); auto|].
    intros ([->|?] & ? & ?); done. }
  destruct (IH (set_missedTxs ({[x]} ∪ m_missedTxs s) s)) as (Hnd & Hiff & Hm).
  destruct (collectUnknown hs (set_missedTxs ({[x]} ∪ m_missedTxs s) s)) as [u0 s1].
  simpl in *. split; [|split].
  - constructor; [|done]. rewrite Hiff. intros (_ & _ & Hn). set_solver.
  - intros u. rewrite !elem_of_cons, Hiff. split.
    + intros [->|(? & ? & Hn)].
      * split; [by left|]. split; [|done].
        destruct (m_txsTable s !! x) eqn:E; [|done]. exfalso. eauto.
      * split; [by right|]. split; [done|]. set_solver.
    + intros ([->|?] & ? & ?); [by left|].
      destruct (decide (u = x)) as [->|Hne]; [by left|].
      right. split; [done|]. split; [done|]. set_solver.
  - rewrite Hm. set_solver.
Qed.

Lemma foldl_markKnown_missed p hs s :
  m_missedTxs (foldl (markKnown p) s hs) = m_missedTxs s.
Proof.
  apply (foldl_preserves (λ st, m_missedTxs st = m_missedTxs s)); [|done].
  intros st x Hst. unfold markKnown. by destruct (m_txsTable st !! x).
Qed.

Lemma foldl_markKnown_None p hs s u :
  m_txsTable (foldl (markKnown p) s hs) !! u = None ↔ m_txsTable s !! u = None.
Proof.
  rewrite (foldl_table_alter _ (appendKnownNode p)) by (intros; apply markKnown_table).
  rewrite lookup_foldl_alter by apply appendKnownNode_idem.
  destruct (decide _); [|done]. by rewrite fmap_None.
Qed.

(** What [filterUnknownTxs] returns and what it leaves in [m_missedTxs]. *)
Lemma filterUnknownTxs_spec cfg hs p s :
  NoDup (filterUnknownTxs cfg hs p s).1 ∧
  (∀ u, u ∈ (filterUnknownTxs cfg hs p s).1
        ↔ u ∈ hs ∧ m_txsTable s !! u = None ∧ u ∉ m_missedTxs s) ∧
  m_missedTxs (filterUnknownTxs cfg hs p s).2
  = if poolLimit cfg
       <=? Z.of_nat (size (m_missedTxs s ∪ list_to_set (filterUnknownTxs cfg hs p s).1))
    then ∅
    else m_missedTxs s ∪ list_to_set (filterUnknownTxs cfg hs p s).1.
Proof.
  unfold filterUnknownTxs.
  destruct (collectUnknown_spec hs (foldl (markKnown p) s hs)) as (Hnd & Hiff & Hm).
  destruct (collectUnknown hs (foldl (markKnown p) s hs)) as [u0 s2]. simpl in *.
  rewrite foldl_markKnown_missed in Hm.
  split; [done|]. split.
  - intros u. rewrite Hiff, foldl_markKnown_None, foldl_markKnown_missed. done.
  - rewrite <- Hm. by destruct (_ <=? _).
Qed.

End Missed.

(** X11.  [batchInsert] makes every transaction of the batch available: each
    hash is in the table afterwards and is erased from the missed set, a
    transaction the table held before stays as it was (a second transaction
    with its hash is dropped), and the proposal check on the hashes of the
    batch succeeds. *)
Theorem batchInsert_makes_available (txs : list Transaction) (s : MemoryStorage) :
  (∀ tx, tx ∈ txs → is_Some (m_txsTable (batchInsert txs s) !! hash tx)) ∧
  (∀ k t, m_txsTable s !! k = Some t → m_txsTable (batchInsert txs s) !! k = Some t) ∧
  m_missedTxs (batchInsert txs s) = m_missedTxs s ∖ list_to_set (hash <$> txs) ∧
  batchVerifyProposalHashes (hash <$> txs) (batchInsert txs s) = true.
Proof.
  destruct (foldl_insert_spec txs s) as (Hkeep & Hin & Hmissed & _).
  assert (H1 : ∀ tx, tx ∈ txs → is_Some (m_txsTable (batchInsert txs s) !! hash tx))
    by (intros tx Htx; by apply Hin).
  split; [exact H1|]. split; [|split].
  - intros k t Hk. by apply Hkeep.
  - unfold batchInsert. simpl. by rewrite foldl_erase_missed, Hmissed.
  - unfold batchVerifyProposalHashes. apply forallb_forall. intros h Hh.
    apply list_elem_of_In, list_elem_of_fmap in Hh as (tx & -> & Htx).
    apply bool_decide_eq_true_2. by apply H1.
Qed.

(** X12.  The missed set stays below the pool limit in every reachable
    state: [filterUnknownTxs] empties it when it reaches the limit, and no
    other operation adds to it. *)
Theorem reachable_missed_bounded (cfg : TxPoolConfig) (s : MemoryStorage) :
  reachable cfg s → 0 < poolLimit cfg →
  Z.of_nat (size (m_missedTxs s)) < poolLimit cfg.
Proof.
  intros Hr Hpos.
  assert (Hsame : ∀ s0 s1, sameSettings s0 s1 →
            Z.of_nat (size (m_missedTxs s0)) < poolLimit cfg →
            Z.of_nat (size (m_missedTxs s1)) < poolLimit cfg).
  { intros s0 s1 (-> & _) H. exact H. }
  induction Hr as [notifier expiration switch created
                  |s now tx cb check lock Hr IH Hs
                  |s now txs Hr IH Hs
                  |s txs Hr IH
                  |s now txs sys limit avoid dup Hr IH
                  |s hs b h flag Hr IH
                  |s flag Hr IH
                  |s now b rs Hr IH
                  |s hs p Hr IH
                  |s limit Hr IH
                  |s now Hr IH
                  |s Hr IH].
  - change (Z.of_nat (size (∅ : gset N)) < poolLimit cfg).
    rewrite size_empty. lia.
  - eapply Hsame; [apply verifyAndSubmitTransaction_sameSettings|done].
  - eapply Hsame; [apply batchImportTxs_sameSettings|done].
  - eapply Hsame; [apply batchVerifyAndSubmitTransaction_sameSettings|done].
  - eapply Hsame; [apply batchFetchTxs_sameSettings|done].
  - eapply Hsame; [apply batchMarkTxs_sameSettings|done].
  - eapply Hsame; [apply batchMarkAllTxs_sameSettings|done].
  - eapply Hsame; [apply batchRemove_sameSettings|done].
  - destruct (filterUnknownTxs_spec cfg hs p s) as (_ & _ & ->).
    destruct (Z.leb_spec (poolLimit cfg)
                (Z.of_nat (size (m_missedTxs s
                   ∪ list_to_set (filterUnknownTxs cfg hs p s).1)))) as [Hle|Hlt].
    + rewrite size_empty. lia.
    + exact Hlt.
  - eapply Hsame; [apply fetchNewTxs_sameSettings|done].
  - eapply Hsame; [apply cleanUpExpiredTransactions_sameSettings|done].
  - unfold clear.
    eapply Hsame; [apply notify_sameSettings|].
    change (Z.of_nat (size (∅ : gset N)) < poolLimit cfg).
    rewrite size_empty. lia.
Qed.

(** The pool of scenario S2 after the fetch; the limit is 2. *)
Lemma reachable_missed_witness :
  Z.of_nat (size (m_missedTxs poolFetchedA)) < poolLimit cfg2.
Proof.
  apply (reachable_missed_bounded cfg2 poolFetchedA); [|reflexivity].
  apply reach_fetch, reach_submit; [apply reach_init|reflexivity].
Defined.

(** X13.  [filterUnknownTxs] returns, without repetition, exactly the
    announced hashes that are neither in the table nor already in the missed
    set, and adds them to the missed set; when the missed set has then
    reached the pool limit it is emptied. *)
Theorem filterUnknownTxs_returns_unknown
    (cfg : TxPoolConfig) (hs : list N) (p : NodeID) (s : MemoryStorage) :
  NoDup (filterUnknownTxs cfg hs p s).1 ∧
  (∀ u, u ∈ (filterUnknownTxs cfg hs p s).1
        ↔ u ∈ hs ∧ m_txsTable s !! u = None ∧ u ∉ m_missedTxs s) ∧
  m_missedTxs (filterUnknownTxs cfg hs p s).2
  = if poolLimit cfg
       <=? Z.of_nat (size (m_missedTxs s ∪ list_to_set (filterUnknownTxs cfg hs p s).1))
    then ∅
    else m_missedTxs s ∪ list_to_set (filterUnknownTxs cfg hs p s).1.
Proof. apply filterUnknownTxs_spec. Qed.

(** X14.  A hash is requested once: when the same hashes are announced again
    (by any peer) and the missed set was not emptied in between, the second
    call of [filterUnknownTxs] returns nothing. *)
Theorem filterUnknownTxs_requests_once
    (cfg : TxPoolConfig) (hs : list N) (p p' : NodeID) (s : MemoryStorage) :
  Z.of_nat (size (m_missedTxs s ∪ list_to_set (filterUnknownTxs cfg hs p s).1))
  < poolLimit cfg →
  (filterUnknownTxs cfg hs p' (filterUnknownTxs cfg hs p s).2).1 = [].
Proof.
  intros Hlt.
  destruct (filterUnknownTxs_spec cfg hs p s) as (_ & Hiff & Hm).
  destruct (filterUnknownTxs_spec cfg hs p' (filterUnknownTxs cfg hs p s).2)
    as (_ & Hiff2 & _).
  destruct (Z.leb_spec (poolLimit cfg)
              (Z.of_nat (size (m_missedTxs s
                 ∪ list_to_set (filterUnknownTxs cfg hs p s).1)))) as [Hle|_]; [lia|].
  destruct (filterUnknownTxs cfg hs p' (filterUnknownTxs cfg hs p s).2).1
    as [|u l] eqn:E; [done|].
  exfalso.
  destruct (proj1 (Hiff2 u) (list_elem_of_here _ _)) as (Hin & Hn & Hnm).
  rewrite Hm in Hnm.
  rewrite filterUnknownTxs_lookup, decide_True in Hn by done.
  apply fmap_None in Hn.
  apply Hnm. apply elem_of_union.
  destruct (decide (u ∈ m_missedTxs s)); [by left|right].
  apply elem_of_list_to_set, Hiff. done.
Qed.

(** [txCC] announced twice to the pool of scenario S2, whose limit is 2. *)
Lemma filterUnknownTxs_requests_once_witness :
  (filterUnknownTxs cfg2 [204%N] 8 (filterUnknownTxs cfg2 [204%N] 7 poolA).2).1 = [].
Proof. apply filterUnknownTxs_requests_once. by vm_compute. Defined.

(** ** What the sealer is handed *)

Section Fetch.

Implicit Types s : MemoryStorage.

(** One turn of the loop, at the key [k]: what it leaves alone, and when
    it appends. *)
Lemma batchFetchTxsTurn_select cfg now limit avoid dup k txs sys s :
  m_txsExpirationTime (batchFetchTxsTurn cfg now limit avoid dup k txs sys s).2.2
  = m_txsExpirationTime s ∧
  m_invalidTxs s ⊆ m_invalidTxs (batchFetchTxsTurn cfg now limit avoid dup k txs sys s).2.2 ∧
  (∀ h, h ∈ m_invalidTxs (batchFetchTxsTurn cfg now limit avoid dup k txs sys s).2.2 →
        h ∈ m_invalidTxs s ∨ ∃ tx, m_txsTable s !! k = Some tx ∧ h = hash tx) ∧
  (∀ k', k' ≠ k →
         m_txsTable (batchFetchTxsTurn cfg now limit avoid dup k txs sys s).2.2 !! k'
         = m_txsTable s !! k') ∧
  (((batchFetchTxsTurn cfg now limit avoid dup k txs sys s).1 = false ∧
    (batchFetchTxsTurn cfg now limit avoid dup k txs sys s).2.1.1 = txs ∧
    (batchFetchTxsTurn cfg now limit avoid dup k txs sys s).2.1.2 = sys ∧
    ∀ tx, m_txsTable s !! k = Some tx → ¬ selectable cfg now avoid dup s tx) ∨
   ∃ tx, m_txsTable s !! k = Some tx ∧ selectable cfg now avoid dup s tx ∧
         (batchFetchTxsTurn cfg now limit avoid dup k txs sys s).2.1.1
         = (if systemTx tx then txs else txs ++ [metaDataOf tx]) ∧
         (batchFetchTxsTurn cfg now limit avoid dup k txs sys s).2.1.2
         = (if systemTx tx then sys ++ [metaDataOf tx] else sys) ∧
         (batchFetchTxsTurn cfg now limit avoid dup k txs sys s).1
         = (limit <=? Z.of_nat (length (batchFetchTxsTurn cfg now limit avoid dup k
                                           txs sys s).2.1.1)
                      + Z.of_nat (length (batchFetchTxsTurn cfg now limit avoid dup k
                                            txs sys s).2.1.2))).
Proof.
  unfold batchFetchTxsTurn, selectable.
  destruct (m_txsTable s !! k) as [tx|] eqn:Hk; cbn zeta.
  2: { simpl. split; [done|]. split; [done|]. split; [by left|]. split; [done|].
       left. by repeat split. }
  destruct (decide (hash tx ∈ m_invalidTxs s)) as [Hinv|Hinv].
  { simpl. split; [done|]. split; [done|]. split; [by left|]. split; [done|].
    left. split; [done|]. split; [done|]. split; [done|].
    intros ? [= <-] (? & _). done. }
  destruct (dup && sealed tx) eqn:Hdup.
  { simpl. split; [done|]. split; [done|]. split; [by left|]. split; [done|].
    left. split; [done|]. split; [done|]. split; [done|].
    intros ? [= <-] (_ & Hd & _). apply andb_true_iff in Hdup as [-> Hs].
    rewrite Hd in Hs; done. }
  destruct (expired now tx s) eqn:Hexp.
  { simpl. split; [done|]. split; [set_solver|]. split.
    { intros h [->%elem_of_singleton|?]%elem_of_union; [right; eauto|by left]. }
    split; [done|].
    left. split; [done|]. split; [done|]. split; [done|].
    intros ? [= <-] (_ & _ & ? & _). congruence. }
  assert (Hd : dup = true → sealed tx = false).
  { intros ->. simpl in Hdup. done. }
  destruct (submittedToChain cfg tx) eqn:Hst.
  4: { simpl. split; [done|]. split; [set_solver|]. split.
       { intros h [->%elem_of_singleton|?]%elem_of_union; [right; eauto|by left]. }
       split; [intros; by apply lookup_insert_ne|].
       left. split; [done|]. split; [done|]. split; [done|].
       intros ? [= <-] (_ & _ & _ & ? & _). done. }
  4: { simpl. split; [done|]. split; [set_solver|]. split.
       { intros h [->%elem_of_singleton|?]%elem_of_union; [right; eauto|by left]. }
       split; [done|].
       left. split; [done|]. split; [done|]. split; [done|].
       intros ? [= <-] (_ & _ & _ & _ & ? & _). done. }
  all: destruct avoid as [a|];
    [destruct (bool_decide_reflect (hash tx ∈ a)) as [Ha|Ha];
     [simpl; split; [done|]; split; [done|]; split; [by left|]; split; [done|];
      left; split; [done|]; split; [done|]; split; [done|];
      intros ? [= <-] (_ & _ & _ & _ & _ & Hav); by apply (Hav a)
     |]
    |];
    (destruct (systemTx tx) eqn:Hsys; cbn [fst snd];
     (split; [by destruct (sealed tx)|]);
     (split; [by destruct (sealed tx)|]);
     (split; [intros h Hh; left; by destruct (sealed tx)|]);
     (split; [intros k' Hne; destruct (sealed tx); simpl; by apply lookup_insert_ne|]);
     right; exists tx;
     (split; [done|]);
     (split; [split; [done|]; split; [done|]; split; [done|]; split; [congruence|];
              split; [congruence|]; by intros ? [= <-] |]);
     rewrite Hsys; done).
Qed.

(** The blocks only grow, and a loop that ends below the limit has visited
    every key. *)
Lemma batchFetchTxsLoop_bound cfg now limit avoid dup keys txs sys s :
  Z.of_nat (length (batchFetchTxsLoop cfg now limit avoid dup keys txs sys s).1.1)
  + Z.of_nat (length (batchFetchTxsLoop cfg now limit avoid dup keys txs sys s).1.2)
  ≤ Z.max limit (Z.of_nat (length txs) + Z.of_nat (length sys) + 1).
Proof.
  revert txs sys s. induction keys as [|k keys IH]; intros txs sys s; cbn [batchFetchTxsLoop].
  { simpl. lia. }
  destruct (batchFetchTxsTurn_select cfg now limit avoid dup k txs sys s)
    as (_ & _ & _ & _ & Hcase).
  destruct (batchFetchTxsTurn cfg now limit avoid dup k txs sys s)
    as [stop [[txs' sys'] s']]. cbn [fst snd] in *.
  destruct Hcase as [(-> & -> & -> & _)|(tx & _ & _ & -> & -> & ->)].
  - apply IH.
  - match goal with |- context [if ?c then _ else _] => destruct c eqn:Hstop end.
    + cbn [fst snd]. destruct (systemTx tx); rewrite length_app; simpl; lia.
    + apply Z.leb_gt in Hstop. etransitivity; [apply IH|].
      destruct (systemTx tx); rewrite length_app in *; simpl in *; lia.
Qed.

Lemma batchFetchTxsLoop_select cfg now limit avoid dup s0 keys txs sys s :
  m_txsExpirationTime s = m_txsExpirationTime s0 →
  m_invalidTxs s0 ⊆ m_invalidTxs s →
  (∀ k, k ∈ keys → m_txsTable s !! k = m_txsTable s0 !! k) →
  NoDup keys →
  (∀ md, md ∈ (batchFetchTxsLoop cfg now limit avoid dup keys txs sys s).1.1 →
         md ∈ txs ∨ ∃ k tx, k ∈ keys ∧ m_txsTable s0 !! k = Some tx ∧
                            selectable cfg now avoid dup s0 tx ∧
                            systemTx tx = false ∧ md = metaDataOf tx) ∧
  (∀ md, md ∈ (batchFetchTxsLoop cfg now limit avoid dup keys txs sys s).1.2 →
         md ∈ sys ∨ ∃ k tx, k ∈ keys ∧ m_txsTable s0 !! k = Some tx ∧
                            selectable cfg now avoid dup s0 tx ∧
                            systemTx tx = true ∧ md = metaDataOf tx).
Proof.
  intros Hexp Hinv Htab Hnd. revert txs sys s Hexp Hinv Htab.
  induction Hnd as [|k keys Hk Hnd IH]; intros txs sys s Hexp Hinv Htab;
    cbn [batchFetchTxsLoop].
  { simpl. split; intros md Hmd; by left. }
  destruct (batchFetchTxsTurn_select cfg now limit avoid dup k txs sys s)
    as (Hexp' & Hinv' & _ & Htab' & Hcase).
  destruct (batchFetchTxsTurn cfg now limit avoid dup k txs sys s)
    as [stop [[txs' sys'] s']]. cbn [fst snd] in *.
  assert (Hsel : ∀ tx, selectable cfg now avoid dup s tx →
                       selectable cfg now avoid dup s0 tx).
  { intros tx (H1 & H2 & H3 & H4 & H5 & H6).
    split; [set_solver|]. split; [done|]. split; [|done].
    unfold expired in *. by rewrite <- Hexp. }
  assert (Hrest : (∀ md, md ∈ (batchFetchTxsLoop cfg now limit avoid dup keys txs' sys' s').1.1 →
                     md ∈ txs' ∨ ∃ k tx, k ∈ keys ∧ m_txsTable s0 !! k = Some tx ∧
                            selectable cfg now avoid dup s0 tx ∧
                            systemTx tx = false ∧ md = metaDataOf tx) ∧
                  (∀ md, md ∈ (batchFetchTxsLoop cfg now limit avoid dup keys txs' sys' s').1.2 →
                     md ∈ sys' ∨ ∃ k tx, k ∈ keys ∧ m_txsTable s0 !! k = Some tx ∧
                            selectable cfg now avoid dup s0 tx ∧
                            systemTx tx = true ∧ md = metaDataOf tx)).
  { apply IH; [congruence|set_solver|].
    intros k' Hk'. rewrite Htab' by (intros ->; done).
    apply Htab. by apply list_elem_of_further. }
  assert (Hlift : ∀ (b : bool) md,
            (∃ k0 tx, k0 ∈ keys ∧ m_txsTable s0 !! k0 = Some tx ∧
                      selectable cfg now avoid dup s0 tx ∧
                      systemTx tx = b ∧ md = metaDataOf tx) →
            ∃ k0 tx, k0 ∈ k :: keys ∧ m_txsTable s0 !! k0 = Some tx ∧
                     selectable cfg now avoid dup s0 tx ∧
                     systemTx tx = b ∧ md = metaDataOf tx).
  { intros b md (k0 & tx & ? & ?). exists k0, tx. split; [by apply list_elem_of_further|done]. }
  destruct Hcase as [(-> & -> & -> & _)|(tx & Hk0 & Hs & -> & -> & ->)].
  - destruct Hrest as [H1 H2]. split; intros md Hmd.
    + destruct (H1 md Hmd) as [?|?]; [by left|right; by apply Hlift].
    + destruct (H2 md Hmd) as [?|?]; [by left|right; by apply Hlift].
  - rewrite Htab in Hk0 by apply list_elem_of_here.
    assert (Hhere : ∃ k0 tx0, k0 ∈ k :: keys ∧ m_txsTable s0 !! k0 = Some tx0 ∧
                      selectable cfg now avoid dup s0 tx0 ∧
                      systemTx tx0 = systemTx tx ∧ metaDataOf tx = metaDataOf tx0).
    { exists k, tx. split; [apply list_elem_of_here|]. split; [done|].
      split; [by apply Hsel|done]. }
    assert (Hnow : (∀ md, md ∈ (if systemTx tx then txs else txs ++ [metaDataOf tx]) →
                       md ∈ txs ∨ ∃ k0 tx0, k0 ∈ k :: keys ∧ m_txsTable s0 !! k0 = Some tx0 ∧
                            selectable cfg now avoid dup s0 tx0 ∧
                            systemTx tx0 = false ∧ md = metaDataOf tx0) ∧
                   (∀ md, md ∈ (if systemTx tx then sys ++ [metaDataOf tx] else sys) →
                       md ∈ sys ∨ ∃ k0 tx0, k0 ∈ k :: keys ∧ m_txsTable s0 !! k0 = Some tx0 ∧
                            selectable cfg now avoid dup s0 tx0 ∧
                            systemTx tx0 = true ∧ md = metaDataOf tx0)).
    { destruct (systemTx tx) eqn:Hsys; split; intros md Hmd; try (by left).
      - apply elem_of_app in Hmd as [?| ->%list_elem_of_singleton]; [by left|by right].
      - apply elem_of_app in Hmd as [?| ->%list_elem_of_singleton]; [by left|by right]. }
    destruct Hnow as [N1 N2].
    match goal with |- context [if ?c then _ else _] => destruct c end; cbn [fst snd].
    + split; [exact N1|exact N2].
    + destruct Hrest as [H1 H2]. split; intros md Hmd.
      * destruct (H1 md Hmd) as [?|?]; [by apply N1|right; by apply Hlift].
      * destruct (H2 md Hmd) as [?|?]; [by apply N2|right; by apply Hlift].
Qed.

End Fetch.

(** X15.  [batchFetchTxs] fills the two blocks up to the limit: the blocks
    hold at most [_txsLimit] entries together, except that a call whose blocks
    have already reached the limit (a limit of zero, for empty blocks) still
    appends one transaction before it tests the limit. *)
Theorem batchFetchTxs_within_limit
    (cfg : TxPoolConfig) (now : Z) (txs sys : list TransactionMetaData) (limit : Z)
    (avoid : option (gset N)) (dup : bool) (s : MemoryStorage) :
  Z.of_nat (length (batchFetchTxs cfg now txs sys limit avoid dup s).1.1)
  + Z.of_nat (length (batchFetchTxs cfg now txs sys limit avoid dup s).1.2)
  ≤ Z.max limit (Z.of_nat (length txs) + Z.of_nat (length sys) + 1).
Proof.
  unfold batchFetchTxs.
  pose proof (batchFetchTxsLoop_bound cfg now limit avoid dup (tableKeys s) txs sys s) as H.
  by destruct (batchFetchTxsLoop _ _ _ _ _ _ _ _ _) as [[txs' sys'] s1].
Qed.

(** X16.  Every entry [batchFetchTxs] appends to a block is the metadata of
    a transaction of the table that is not staged for removal, not expired,
    not reported by the validator as committed or beyond its block limit, not
    in the avoid set and (with [_avoidDuplicate]) not sealed; system
    transactions go to the system block and the others to the ordinary
    block. *)
Theorem batchFetchTxs_selects
    (cfg : TxPoolConfig) (now : Z) (txs sys : list TransactionMetaData) (limit : Z)
    (avoid : option (gset N)) (dup : bool) (s : MemoryStorage) :
  (∀ md, md ∈ (batchFetchTxs cfg now txs sys limit avoid dup s).1.1 →
         md ∈ txs ∨ ∃ k tx, m_txsTable s !! k = Some tx ∧
                            selectable cfg now avoid dup s tx ∧
                            systemTx tx = false ∧ md = metaDataOf tx) ∧
  (∀ md, md ∈ (batchFetchTxs cfg now txs sys limit avoid dup s).1.2 →
         md ∈ sys ∨ ∃ k tx, m_txsTable s !! k = Some tx ∧
                            selectable cfg now avoid dup s tx ∧
                            systemTx tx = true ∧ md = metaDataOf tx).
Proof.
  unfold batchFetchTxs.
  destruct (batchFetchTxsLoop_select cfg now limit avoid dup s (tableKeys s) txs sys s)
    as [H1 H2]; [done|done|done|apply NoDup_fst_map_to_list|].
  destruct (batchFetchTxsLoop _ _ _ _ _ _ _ _ _) as [[txs' sys'] s1].
  cbn [fst snd] in *. split; intros md Hmd.
  - destruct (H1 md Hmd) as [?|(k & tx & _ & ?)]; [by left|right; eauto].
  - destruct (H2 md Hmd) as [?|(k & tx & _ & ?)]; [by left|right; eauto].
Qed.

Section FetchAll.

Implicit Types s : MemoryStorage.

Lemma batchFetchTxsLoop_mono cfg now limit avoid dup keys txs sys s :
  (∀ md, md ∈ txs → md ∈ (batchFetchTxsLoop cfg now limit avoid dup keys txs sys s).1.1) ∧
  (∀ md, md ∈ sys → md ∈ (batchFetchTxsLoop cfg now limit avoid dup keys txs sys s).1.2).
Proof.
  revert txs sys s. induction keys as [|k keys IH]; intros txs sys s;
    cbn [batchFetchTxsLoop]; [done|].
  destruct (batchFetchTxsTurn_select cfg now limit avoid dup k txs sys s)
    as (_ & _ & _ & _ & Hcase).
  destruct (batchFetchTxsTurn cfg now limit avoid dup k txs sys s)
    as [stop [[txs' sys'] s']]. cbn [fst snd] in *.
  assert (Hgrow : (∀ md, md ∈ txs → md ∈ txs') ∧ (∀ md, md ∈ sys → md ∈ sys')).
  { destruct Hcase as [(_ & -> & -> & _)|(tx & _ & _ & -> & -> & _)]; [done|].
    destruct (systemTx tx); split; intros md Hmd; try done;
      apply elem_of_app; by left. }
  destruct Hgrow as [G1 G2]. destruct stop; cbn [fst snd]; [done|].
  destruct (IH txs' sys' s') as [H1 H2]. split; intros md Hmd; auto.
Qed.

Lemma batchFetchTxsLoop_exhaustive cfg now limit avoid dup s0 keys txs sys s :
  keyed (m_txsTable s0) →
  m_txsExpirationTime s = m_txsExpirationTime s0 →
  (∀ h, h ∈ m_invalidTxs s → h ∈ m_invalidTxs s0 ∨ (h ∉ keys)) →
  (∀ k, k ∈ keys → m_txsTable s !! k = m_txsTable s0 !! k) →
  NoDup keys →
  Z.of_nat (length (batchFetchTxsLoop cfg now limit avoid dup keys txs sys s).1.1)
  + Z.of_nat (length (batchFetchTxsLoop cfg now limit avoid dup keys txs sys s).1.2)
  < limit →
  ∀ k tx, k ∈ keys → m_txsTable s0 !! k = Some tx →
          selectable cfg now avoid dup s0 tx →
          metaDataOf tx
          ∈ (if systemTx tx
             then (batchFetchTxsLoop cfg now limit avoid dup keys txs sys s).1.2
             else (batchFetchTxsLoop cfg now limit avoid dup keys txs sys s).1.1).
Proof.
  intros Hkeyed Hexp Hinv Htab Hnd. revert txs sys s Hexp Hinv Htab.
  induction Hnd as [|k keys Hk Hnd IH]; intros txs sys s Hexp Hinv Htab Hlt k0 tx0 Hk0.
  { by apply not_elem_of_nil in Hk0. }
  revert Hlt. cbn [batchFetchTxsLoop].
  destruct (batchFetchTxsTurn_select cfg now limit avoid dup k txs sys s)
    as (Hexp' & _ & Hinv' & Htab' & Hcase).
  pose proof (batchFetchTxsLoop_mono cfg now limit avoid dup keys) as Hmono.
  destruct (batchFetchTxsTurn cfg now limit avoid dup k txs sys s)
    as [stop [[txs' sys'] s']]. cbn [fst snd] in *.
  specialize (Hmono txs' sys' s'). destruct Hmono as [M1 M2].
  assert (Hcur : ∀ tx, m_txsTable s0 !! k = Some tx →
                       selectable cfg now avoid dup s0 tx →
                       selectable cfg now avoid dup s tx).
  { intros tx Htx (H1 & H2 & H3 & H4).
    split; [|split; [done|split; [|done]]].
    - intros Hin. destruct (Hinv _ Hin) as [?|Hnot]; [done|].
      apply Hnot. rewrite (keyed_lookup _ _ _ Hkeyed Htx). apply list_elem_of_here.
    - unfold expired in *. by rewrite Hexp. }
  assert (Hinv2 : ∀ h, h ∈ m_invalidTxs s' → h ∈ m_invalidTxs s0 ∨ (h ∉ keys)).
  { intros h Hh. destruct (Hinv' h Hh) as [Hs|(tx & Htx & ->)].
    - destruct (Hinv h Hs) as [?|Hnot]; [by left|right].
      intros ?. apply Hnot. by apply list_elem_of_further.
    - right. rewrite Htab in Htx by apply list_elem_of_here.
      by rewrite (keyed_lookup _ _ _ Hkeyed Htx). }
  assert (Htab2 : ∀ k', k' ∈ keys → m_txsTable s' !! k' = m_txsTable s0 !! k').
  { intros k' Hk'. rewrite Htab' by (intros ->; done).
    apply Htab. by apply list_elem_of_further. }
  intros Hlt Htx0 Hsel0.
  assert (Hstop : stop = false).
  { destruct stop; [|done]. cbn [fst snd] in Hlt.
    destruct Hcase as [(? & _)|(tx & _ & _ & _ & _ & Hs)]; [done|].
    symmetry in Hs. apply Z.leb_le in Hs. lia. }
  subst stop.
  apply elem_of_cons in Hk0 as [->|Hk0].
  - destruct Hcase as [(_ & _ & _ & Hnot)|(tx & Htx & _ & -> & -> & _)].
    + exfalso. apply (Hnot tx0); [by rewrite Htab by apply list_elem_of_here|].
      by apply Hcur.
    + rewrite Htab, Htx0 in Htx by apply list_elem_of_here. injection Htx as <-.
      destruct (systemTx tx0); [apply M2|apply M1];
        apply elem_of_app; right; apply list_elem_of_here.
  - refine (IH txs' sys' s' _ Hinv2 Htab2 Hlt k0 tx0 Hk0 Htx0 Hsel0). congruence.
Qed.

End FetchAll.

(** X17.  When [batchFetchTxs] returns with the blocks below the limit, it
    has handed over every transaction of the table that met the conditions:
    nothing eligible is left behind. *)
Theorem batchFetchTxs_exhaustive
    (cfg : TxPoolConfig) (now : Z) (txs sys : list TransactionMetaData) (limit : Z)
    (avoid : option (gset N)) (dup : bool) (s : MemoryStorage)
    (k : N) (tx : Transaction) :
  keyed (m_txsTable s) →
  Z.of_nat (length (batchFetchTxs cfg now txs sys limit avoid dup s).1.1)
  + Z.of_nat (length (batchFetchTxs cfg now txs sys limit avoid dup s).1.2)
  < limit →
  m_txsTable s !! k = Some tx →
  selectable cfg now avoid dup s tx →
  metaDataOf tx ∈ (if systemTx tx
                   then (batchFetchTxs cfg now txs sys limit avoid dup s).1.2
                   else (batchFetchTxs cfg now txs sys limit avoid dup s).1.1).
Proof.
  intros Hkeyed Hlt Hk Hsel. unfold batchFetchTxs in *.
  pose proof (batchFetchTxsLoop_exhaustive cfg now limit avoid dup s (tableKeys s)
                txs sys s Hkeyed eq_refl) as H.
  destruct (batchFetchTxsLoop _ _ _ _ _ _ _ _ _) as [[txs' sys'] s1].
  cbn [fst snd] in *.
  apply (H (λ h Hh, or_introl Hh) (λ _ _, eq_refl) (NoDup_fst_map_to_list _) Hlt k tx);
    [|done|done].
  apply elem_of_tableKeys. eauto.
Qed.

(** [txAA] of scenario S2, fetched with the limit 10. *)
Lemma batchFetchTxs_exhaustive_witness :
  metaDataOf txAA1 ∈ (batchFetchTxs cfg2 1 [] [] 10 None true poolA).1.1.
Proof.
  apply (batchFetchTxs_exhaustive cfg2 1 [] [] 10 None true poolA 170%N txAA1).
  - apply (bool_decide_unpack _). by vm_compute.
  - by vm_compute.
  - by vm_compute.
  - unfold selectable. split; [|split; [done|split; [by vm_compute|]]].
    + intros H. vm_compute in H. discriminate.
    + split; [done|]. split; [done|]. intros a [=].
Defined.

(** ** The callbacks of expired transactions *)

Section Timeouts.

Implicit Types s : MemoryStorage.

Lemma callbacksCarry_nil st : callbacksCarry st [].
Proof. intros cb res H. by apply not_elem_of_nil in H. Qed.

Lemma callbacksCarry_cons st e evs :
  (∀ cb res, e = EvSubmitCallback cb res → r_status res = st) →
  callbacksCarry st evs → callbacksCarry st (e :: evs).
Proof.
  intros He Hevs cb res [E|Hin]%elem_of_cons; [by apply (He cb)|by apply (Hevs cb)].
Qed.

Lemma notify_events_cases s :
  events (notifyUnsealedTxsSize s) = events s ∨
  ∃ n, events (notifyUnsealedTxsSize s) = EvUnsealedTxsNotifier n :: events s.
Proof.
  unfold notifyUnsealedTxsSize, unSealedTxsSizeWithoutLock.
  destruct (m_unsealedTxsNotifier s); [|by left].
  right. destruct (tableSize s <? m_sealedTxsSize s); by eexists.
Qed.

Lemma removeInvalidTxs_fired lock s :
  ∃ fired, events (removeInvalidTxs lock s) = fired ++ events s ∧
           callbacksCarry TransactionPoolTimeout fired.
Proof.
  unfold removeInvalidTxs. destruct (decide _).
  { exists []. split; [done|apply callbacksCarry_nil]. }
  set (step := λ st txHash,
         (removeSubmittedTxWithoutLock
            (mkResult txHash TransactionPoolTimeout "" "" "") true st).2).
  assert (Hfold : ∃ fired, events (foldl step s (elements (m_invalidTxs s)))
                           = fired ++ events s ∧
                           callbacksCarry TransactionPoolTimeout fired).
  { apply (foldl_preserves
             (λ st, ∃ fired, events st = fired ++ events s ∧
                             callbacksCarry TransactionPoolTimeout fired)).
    - intros st x (fired & E & Hc). subst step. cbn beta.
      unfold removeSubmittedTxWithoutLock. cbn [r_txHash].
      pose proof (removeWithoutLock_events x st) as He.
      destruct (removeWithoutLock x st) as [[t|] s1]; cbn [fst snd] in *.
      + unfold notifyTxResult. simpl.
        destruct (submitCallback t) as [cb|]; simpl.
        * eexists (_ :: fired). rewrite He, E. split; [done|].
          apply callbacksCarry_cons; [|done]. by intros ? ? [= _ <-].
        * exists fired. by rewrite He.
      + exists fired. by rewrite He.
    - exists []. split; [done|apply callbacksCarry_nil]. }
  destruct Hfold as (fired & E & Hc). simpl.
  destruct (notify_events_cases (foldl step s (elements (m_invalidTxs s))))
    as [En|[m En]]; rewrite En, E.
  - eexists (_ :: fired). split; [done|]. by apply callbacksCarry_cons.
  - eexists (_ :: _ :: fired). split; [done|].
    apply callbacksCarry_cons; [done|]. by apply callbacksCarry_cons.
Qed.

Lemma cleanUpLoop_events cfg now keys n s :
  events (cleanUpLoop cfg now keys n s) = events s.
Proof.
  revert n s. induction keys as [|k keys IH]; intros n s; simpl; [done|].
  destruct (n <=? _); [|done].
  destruct (m_txsTable s !! k) as [tx|]; [|apply IH].
  destruct (bool_decide _); [apply IH|].
  destruct (_ && _); [apply IH|].
  destruct (expired now tx s); [|apply IH]. by rewrite IH.
Qed.

Lemma batchFetchTxsLoop_events cfg now limit avoid dup keys txs sys s :
  events (batchFetchTxsLoop cfg now limit avoid dup keys txs sys s).2 = events s.
Proof.
  apply (batchFetchTxsLoop_ind cfg now limit avoid dup
           (λ _ _ _ st, events st = events s) (λ _ _ st, events st = events s));
    [done| |done].
  intros k ks txs0 sys0 s0 txs' sys' s' Hq Hout. rewrite <- Hq.
  destruct Hout as [|tx _ _ _|tx _ _ _|tx txs' sys' _ _ _ _]; try done.
  by destruct (sealed tx).
Qed.

End Timeouts.

(** X18.  A submit callback that [batchFetchTxs] or a reaper tick invokes
    carries the status [TransactionPoolTimeout]: the two report nothing but
    the transactions they drop. *)
Theorem dropped_transactions_report_timeout
    (cfg : TxPoolConfig) (now : Z) (s : MemoryStorage) :
  callbacksCarry TransactionPoolTimeout
    (firedBetween s (cleanUpExpiredTransactions cfg now s)) ∧
  ∀ txs sys limit avoid dup,
    callbacksCarry TransactionPoolTimeout
      (firedBetween s (batchFetchTxs cfg now txs sys limit avoid dup s).2).
Proof.
  split.
  - unfold cleanUpExpiredTransactions, reaperScan.
    assert (Hnone : callbacksCarry TransactionPoolTimeout (firedBetween s s)).
    { rewrite (firedBetween_app s s []) by done. apply callbacksCarry_nil. }
    assert (Hscan : callbacksCarry TransactionPoolTimeout
              (firedBetween s (removeInvalidTxs false
                                 (cleanUpLoop cfg now (tableKeys s) 0 s)))).
    { destruct (removeInvalidTxs_fired false (cleanUpLoop cfg now (tableKeys s) 0 s))
        as (fired & E & Hc).
      rewrite cleanUpLoop_events in E. by rewrite (firedBetween_app s _ fired E). }
    destruct (m_txsCleanUpSwitch s) as [[]|]; try done;
      by destruct (tableSize s =? 0).
  - intros txs sys limit avoid dup. unfold batchFetchTxs.
    pose proof (batchFetchTxsLoop_events cfg now limit avoid dup (tableKeys s) txs sys s)
      as He.
    destruct (batchFetchTxsLoop _ _ _ _ _ _ _ _ _) as [[txs' sys'] s1].
    cbn [fst snd] in *.
    destruct (removeInvalidTxs_fired false (notifyUnsealedTxsSize s1)) as (fired & E & Hc).
    destruct (notify_events_cases s1) as [En|[m En]]; rewrite En, He in E.
    + by rewrite (firedBetween_app s _ fired E).
    + rewrite (firedBetween_app s _ (fired ++ [EvUnsealedTxsNotifier m])).
      * intros cb res [Hin|Hin]%elem_of_app; [by apply (Hc cb)|].
        by apply list_elem_of_singleton in Hin.
      * by rewrite E, <- app_assoc.
Qed.

(** ** Transactions of a proposal *)

Section Proposal.

Implicit Types s : MemoryStorage.

Lemma enforceSubmitTransaction_new cfg tx s :
  submittedToChain cfg tx ≠ NonceCheckFail →
  m_txsTable s !! hash tx = None →
  (enforceSubmitTransaction cfg tx s).1 = StatusNone ∧
  m_txsTable (enforceSubmitTransaction cfg tx s).2
  = <[hash tx := setSealed true tx]> (m_txsTable s) ∧
  (sealedCounterOk s →
   m_sealedTxsSize (enforceSubmitTransaction cfg tx s).2
   = wrap64 (m_sealedTxsSize s + 1)).
Proof.
  intros Hchain Hk. unfold enforceSubmitTransaction.
  rewrite decide_False by done. rewrite Hk.
  pose proof (insertWithoutLock_fresh tx s Hk) as [Hst Ht].
  pose proof (insertWithoutLock_new tx s) as Hnew.
  destruct (insertWithoutLock tx s) as [st s1]. cbn [fst snd] in *. subst st.
  cbn [fst snd]. split; [done|]. split.
  - simpl. rewrite Ht. apply insert_insert_eq.
  - intros Hok. destruct (Hnew Hok Hk) as (s' & [= <-] & _ & Hc).
    simpl. by rewrite Hc.
Qed.

Lemma enforceSubmitTransaction_unsealed cfg tx t s :
  submittedToChain cfg tx ≠ NonceCheckFail →
  m_txsTable s !! hash tx = Some t →
  sealed t = false →
  (enforceSubmitTransaction cfg tx s).1 = StatusNone ∧
  m_txsTable (enforceSubmitTransaction cfg tx s).2
  = <[hash tx := setBatchHash (batchHash tx) (setBatchId (batchId tx) (setSealed true t))]>
      (m_txsTable s) ∧
  m_sealedTxsSize (enforceSubmitTransaction cfg tx s).2
  = wrap64 (m_sealedTxsSize s + 1).
Proof.
  intros Hchain Hk Hs. unfold enforceSubmitTransaction.
  rewrite decide_False by done. rewrite Hk, Hs. by simpl.
Qed.

(** A sealed entry stays sealed, and an accepted transaction is sealed. *)
Lemma enforceSubmitTransaction_sealedAt cfg tx s :
  (∀ k, (∃ t, m_txsTable s !! k = Some t ∧ sealed t = true) →
        ∃ t, m_txsTable (enforceSubmitTransaction cfg tx s).2 !! k = Some t ∧
             sealed t = true) ∧
  ((enforceSubmitTransaction cfg tx s).1 = StatusNone →
   ∃ t, m_txsTable (enforceSubmitTransaction cfg tx s).2 !! hash tx = Some t ∧
        sealed t = true).
Proof.
  destruct (decide (submittedToChain cfg tx = NonceCheckFail)) as [Hc|Hc].
  { unfold enforceSubmitTransaction. rewrite decide_True by done. simpl.
    split; [done|]. intros [=]. }
  destruct (m_txsTable s !! hash tx) as [t|] eqn:Hk.
  - destruct (sealed t) eqn:Hs.
    + unfold enforceSubmitTransaction. rewrite decide_False by done.
      rewrite Hk, Hs. simpl.
      destruct (batchHash t =? emptyHash)%N.
      * simpl. split.
        -- intros k (t0 & Hk0 & Hs0). destruct (decide (k = hash tx)) as [->|Hne].
           ++ rewrite lookup_insert_eq. eauto.
           ++ rewrite lookup_insert_ne by done. eauto.
        -- intros _. rewrite lookup_insert_eq. eauto.
      * destruct (_ && _); simpl; (split; [done|]); [eauto|intros [=]].
    + destruct (enforceSubmitTransaction_unsealed cfg tx t s Hc Hk Hs) as (E1 & E2 & _).
      rewrite E2. split.
      * intros k (t0 & Hk0 & Hs0). destruct (decide (k = hash tx)) as [->|Hne].
        -- rewrite lookup_insert_eq. eauto.
        -- rewrite lookup_insert_ne by done. eauto.
      * intros _. rewrite lookup_insert_eq. eauto.
  - destruct (enforceSubmitTransaction_new cfg tx s Hc Hk) as (E1 & E2 & _).
    rewrite E2. split.
    + intros k (t0 & Hk0 & Hs0). destruct (decide (k = hash tx)) as [->|Hne].
      * rewrite lookup_insert_eq. eauto.
      * rewrite lookup_insert_ne by done. eauto.
    + intros _. rewrite lookup_insert_eq. eauto.
Qed.

Lemma batchVerifyAndSubmitLoop_sealedAt cfg txs s :
  (∀ k, (∃ t, m_txsTable s !! k = Some t ∧ sealed t = true) →
        ∃ t, m_txsTable (batchVerifyAndSubmitLoop cfg txs s).2 !! k = Some t ∧
             sealed t = true) ∧
  ((batchVerifyAndSubmitLoop cfg txs s).1 = true →
   ∀ tx, Some tx ∈ txs → invalid tx = false →
         ∃ t, m_txsTable (batchVerifyAndSubmitLoop cfg txs s).2 !! hash tx = Some t ∧
              sealed t = true).
Proof.
  revert s. induction txs as [|[tx|] txs IH]; intros s; cbn [batchVerifyAndSubmitLoop].
  - split; [done|]. intros _ tx H. by apply not_elem_of_nil in H.
  - destruct (invalid tx) eqn:Hinv.
    + destruct (IH s) as [K A]. split; [done|].
      intros Hok tx' [[= ->]|Hin]%elem_of_cons Hv; [congruence|by apply A].
    + destruct (enforceSubmitTransaction_sealedAt cfg tx s) as [K1 A1].
      destruct (enforceSubmitTransaction cfg tx s) as [st s1]. cbn [fst snd] in *.
      destruct st; try (cbn [fst snd]; split; [done|intros [=]]).
      destruct (IH s1) as [K A]. split; [by intros k Hk; apply K, K1|].
      intros Hok tx' [[= ->]|Hin]%elem_of_cons Hv; [|by apply A].
      by apply K, A1.
  - destruct (IH s) as [K A]. split; [done|].
    intros Hok tx' [[=]|Hin]%elem_of_cons Hv. by apply A.
Qed.

End Proposal.

(** X19.  [enforceSubmitTransaction] takes a transaction of a proposal that
    is not on chain into the pool whatever the pool's size: a new hash is
    inserted sealed, an unsealed transaction of the table is sealed under the
    proposal's batch; either way the answer is [None], only that hash
    changes, and the sealed counter grows by one. *)
Theorem enforceSubmitTransaction_seals
    (cfg : TxPoolConfig) (tx : Transaction) (s : MemoryStorage) :
  submittedToChain cfg tx ≠ NonceCheckFail →
  (∀ t, m_txsTable s !! hash tx = Some t → sealed t = false) →
  sealedCounterOk s →
  (enforceSubmitTransaction cfg tx s).1 = StatusNone ∧
  m_txsTable (enforceSubmitTransaction cfg tx s).2
  = <[hash tx := match m_txsTable s !! hash tx with
                 | Some t => setBatchHash (batchHash tx)
                               (setBatchId (batchId tx) (setSealed true t))
                 | None => setSealed true tx
                 end]> (m_txsTable s) ∧
  m_sealedTxsSize (enforceSubmitTransaction cfg tx s).2
  = wrap64 (m_sealedTxsSize s + 1).
Proof.
  intros Hc Hun Hok. destruct (m_txsTable s !! hash tx) as [t|] eqn:Hk.
  - by apply enforceSubmitTransaction_unsealed; [| |apply Hun].
  - destruct (enforceSubmitTransaction_new cfg tx s Hc Hk) as (E1 & E2 & E3). auto.
Qed.

(** The pool of scenario S1 is at its limit; a proposal brings [txCC], which
    is new to it. *)
Lemma enforceSubmitTransaction_seals_witness :
  (enforceSubmitTransaction cfg2 txCC poolAB).1 = StatusNone ∧
  m_txsTable (enforceSubmitTransaction cfg2 txCC poolAB).2
  = <[hash txCC := match m_txsTable poolAB !! hash txCC with
                   | Some t => setBatchHash (batchHash txCC)
                                 (setBatchId (batchId txCC) (setSealed true t))
                   | None => setSealed true txCC
                   end]> (m_txsTable poolAB) ∧
  m_sealedTxsSize (enforceSubmitTransaction cfg2 txCC poolAB).2
  = wrap64 (m_sealedTxsSize poolAB + 1).
Proof.
  apply (enforceSubmitTransaction_seals cfg2 txCC poolAB).
  - done.
  - intros t Ht. vm_compute in Ht. discriminate.
  - by vm_compute.
Defined.

(** X20.  When [batchVerifyAndSubmitTransaction] answers [true], every
    transaction of the batch (null and invalid entries apart) is in the
    table and sealed; whatever it answers, a transaction that was sealed
    before is sealed afterwards. *)
Theorem batchVerifyAndSubmitTransaction_seals_all
    (cfg : TxPoolConfig) (txs : list (option Transaction)) (s : MemoryStorage) :
  ((batchVerifyAndSubmitTransaction cfg txs s).1 = true →
   ∀ tx, Some tx ∈ txs → invalid tx = false →
         ∃ t, m_txsTable (batchVerifyAndSubmitTransaction cfg txs s).2 !! hash tx = Some t ∧
              sealed t = true) ∧
  (∀ k, (∃ t, m_txsTable s !! k = Some t ∧ sealed t = true) →
        ∃ t, m_txsTable (batchVerifyAndSubmitTransaction cfg txs s).2 !! k = Some t ∧
             sealed t = true).
Proof.
  unfold batchVerifyAndSubmitTransaction.
  destruct (batchVerifyAndSubmitLoop_sealedAt cfg txs s) as [K A].
  destruct (batchVerifyAndSubmitLoop cfg txs s) as [[] s1]; cbn [fst snd] in *.
  - rewrite notify_table. split; [intros _; by apply A|done].
  - split; [intros [=]|done].
Qed.

(** ** The sealed counter, read and reset *)

Section Counter.

Implicit Types s : MemoryStorage.

Lemma size_sealed_unsealed (m : gmap N Transaction) :
  size m = (sealedCount m + size (filter (λ kv, sealed kv.2 = false) m))%nat.
Proof.
  unfold sealedCount.
  rewrite <- (map_filter_union_complement (λ kv, sealed kv.2 = true) m) at 1.
  rewrite map_size_disj_union by apply map_disjoint_filter_complement.
  f_equal. f_equal. apply map_filter_ext. intros k t _. simpl.
  by destruct (sealed t).
Qed.

Lemma batchMarkAllTxs_tableSize flag s :
  tableSize (batchMarkAllTxs flag s) = tableSize s.
Proof. unfold tableSize. by rewrite batchMarkAllTxs_table, map_size_fmap. Qed.

Lemma fetchNewTxsLoop_grows limit keys acc s :
  (length acc ≤ length (fetchNewTxsLoop limit keys acc s).1)%nat.
Proof.
  revert acc s. induction keys as [|k keys IH]; intros acc s; simpl; [done|].
  destruct (m_txsTable s !! k) as [tx|]; [|apply IH].
  destruct (synced tx); [apply IH|].
  destruct (limit <=? _); simpl.
  - rewrite length_app. simpl. lia.
  - etransitivity; [|apply IH]. rewrite length_app. simpl. lia.
Qed.

Lemma fetchNewTxsLoop_all_synced limit keys acc s :
  (fetchNewTxsLoop limit keys acc s).1 = acc
  ↔ ∀ k t, k ∈ keys → m_txsTable s !! k = Some t → synced t = true.
Proof.
  revert acc s. induction keys as [|k keys IH]; intros acc s; simpl.
  { split; [|done]. intros _ k t H. by apply not_elem_of_nil in H. }
  destruct (m_txsTable s !! k) as [tx|] eqn:Hk.
  - destruct (synced tx) eqn:Hs.
    + rewrite IH. split.
      * intros H k0 t [->|Hin]%elem_of_cons Hk0; [congruence|by apply (H k0)].
      * intros H k0 t Hin. apply H. by apply list_elem_of_further.
    + split.
      * intros E. exfalso.
        assert (Hlen : (length acc < length acc)%nat); [|lia].
        rewrite <- E at 2. destruct (limit <=? _); simpl.
        -- rewrite length_app. simpl. lia.
        -- eapply Nat.lt_le_trans; [|apply fetchNewTxsLoop_grows].
           rewrite length_app. simpl. lia.
      * intros H. specialize (H k tx (list_elem_of_here _ _) Hk). congruence.
  - rewrite IH. split.
    + intros H k0 t [->|Hin]%elem_of_cons Hk0; [congruence|by apply (H k0)].
    + intros H k0 t Hin. apply H. by apply list_elem_of_further.
Qed.

(** Below the limit the loop visits every key. *)
Lemma fetchNewTxsLoop_drains limit keys acc s :
  NoDup keys →
  Z.of_nat (length acc + length keys) < limit →
  (∀ k t, k ∈ keys → m_txsTable (fetchNewTxsLoop limit keys acc s).2 !! k = Some t →
          synced t = true) ∧
  (∀ k, k ∉ keys →
        m_txsTable (fetchNewTxsLoop limit keys acc s).2 !! k = m_txsTable s !! k).
Proof.
  intros Hnd. revert acc s. induction Hnd as [|k keys Hk Hnd IH]; intros acc s Hlt; simpl.
  { split; [|done]. intros k t H. by apply not_elem_of_nil in H. }
  simpl in Hlt.
  destruct (m_txsTable s !! k) as [tx|] eqn:Hlk.
  - destruct (synced tx) eqn:Hs.
    + destruct (IH acc s) as [A B]; [lia|]. split.
      * intros k0 t [->|Hin]%elem_of_cons Hk0; [|by apply (A k0)].
        rewrite B in Hk0 by done. congruence.
      * intros k0 Hk0. apply B. rewrite not_elem_of_cons in Hk0. tauto.
    + destruct (Z.leb_spec limit (Z.of_nat (length (acc ++ [setSynced true tx]))))
        as [Hle|_].
      { rewrite length_app in Hle. simpl in Hle. lia. }
      destruct (IH (acc ++ [setSynced true tx]) (storeTx k (setSynced true tx) s))
        as [A B]; [rewrite length_app; simpl; lia|].
      split.
      * intros k0 t [->|Hin]%elem_of_cons Hk0; [|by apply (A k0)].
        rewrite B in Hk0 by done. simpl in Hk0. rewrite lookup_insert_eq in Hk0.
        by injection Hk0 as <-.
      * intros k0 Hk0. rewrite not_elem_of_cons in Hk0. destruct Hk0 as [Hne Hk0].
        rewrite B by done. simpl. by rewrite lookup_insert_ne.
  - destruct (IH acc s) as [A B]; [lia|]. split.
    + intros k0 t [->|Hin]%elem_of_cons Hk0; [|by apply (A k0)].
      rewrite B in Hk0 by done. congruence.
    + intros k0 Hk0. apply B. rewrite not_elem_of_cons in Hk0. tauto.
Qed.

Lemma foldl_markTx_skipped b h flag hs s :
  Forall (λ x, match m_txsTable s !! x with
               | None => True
               | Some t => flag = false ∧ sealed t = true ∧
                           (batchId t ≠ b ∨ batchHash t ≠ h)
               end) hs →
  foldl (markTx b h flag) s hs = s.
Proof.
  intros Hall. induction Hall as [|x hs Hx _ IH]; [done|].
  cbn [foldl].
  assert (Hskip : markTx b h flag s x = s); [|by rewrite Hskip].
  unfold markTx. destruct (m_txsTable s !! x) as [t|]; [|done].
  destruct Hx as (-> & -> & Hne).
  destruct (Z.eqb_spec (batchId t) b), (N.eqb_spec (batchHash t) h); simpl; try done.
  exfalso. by destruct Hne.
Qed.

End Counter.

(** X21.  [batchMarkAllTxs] sets the sealed counter outright, whatever it
    was before: afterwards every transaction carries the flag, the counter is
    the table size (sealing) or zero (unsealing), I2 holds, and the pool
    reports no unsealed transaction (sealing) or all of them (unsealing). *)
Theorem batchMarkAllTxs_resets_counter (flag : bool) (s : MemoryStorage) :
  tableSize s < 2 ^ 64 →
  sealedCounterOk (batchMarkAllTxs flag s) ∧
  (∀ k t, m_txsTable (batchMarkAllTxs flag s) !! k = Some t → sealed t = flag) ∧
  m_sealedTxsSize (batchMarkAllTxs flag s) = (if flag then tableSize s else 0) ∧
  (unSealedTxsSize (batchMarkAllTxs flag s)).1 = (if flag then 0 else tableSize s).
Proof.
  intros Hfit.
  pose proof (batchMarkAllTxs_sealedCounterOk flag s Hfit) as Hok.
  assert (Hall : ∀ k t, m_txsTable (batchMarkAllTxs flag s) !! k = Some t →
                        sealed t = flag).
  { intros k t. rewrite batchMarkAllTxs_table, lookup_fmap.
    destruct (m_txsTable s !! k); [|done]. simpl. intros [= <-]. by destruct flag. }
  assert (Hc : m_sealedTxsSize (batchMarkAllTxs flag s)
               = (if flag then tableSize s else 0)).
  { rewrite Hok. destruct flag.
    - rewrite sealedCount_all by exact Hall.
      rewrite batchMarkAllTxs_table, map_size_fmap. apply wrap64_small.
      unfold tableSize in *. lia.
    - rewrite sealedCount_none by exact Hall. done. }
  split; [done|]. split; [done|]. split; [done|].
  unfold unSealedTxsSize, unSealedTxsSizeWithoutLock.
  rewrite batchMarkAllTxs_tableSize, Hc. unfold tableSize. destruct flag.
  - rewrite Z.ltb_irrefl. simpl. lia.
  - destruct (Z.ltb_spec (Z.of_nat (size (m_txsTable s))) 0); [lia|]. simpl. lia.
Qed.

(** After [clear] on the pool without notifier the counter is stale;
    [batchMarkAllTxs(false)] brings it back to zero. *)
Lemma batchMarkAllTxs_resets_witness :
  sealedCounterOk (batchMarkAllTxs false (clear poolNoNotifier)) ∧
  (∀ k t, m_txsTable (batchMarkAllTxs false (clear poolNoNotifier)) !! k = Some t →
          sealed t = false) ∧
  m_sealedTxsSize (batchMarkAllTxs false (clear poolNoNotifier)) = 0 ∧
  (unSealedTxsSize (batchMarkAllTxs false (clear poolNoNotifier))).1
  = tableSize (clear poolNoNotifier).
Proof.
  apply (batchMarkAllTxs_resets_counter false (clear poolNoNotifier)).
  by vm_compute.
Defined.

(** X22.  While the sealed counter is right (I2), [unSealedTxsSize] returns
    the number of unsealed transactions of the table and changes nothing. *)
Theorem unSealedTxsSize_counts_unsealed (s : MemoryStorage) :
  sealedCounterOk s →
  tableSize s < 2 ^ 64 →
  unSealedTxsSize s
  = (Z.of_nat (size (filter (λ kv, sealed kv.2 = false) (m_txsTable s))), s).
Proof.
  intros Hok Hfit. unfold unSealedTxsSize, unSealedTxsSizeWithoutLock.
  pose proof (size_sealed_unsealed (m_txsTable s)) as Hsz.
  assert (Hc : m_sealedTxsSize s = Z.of_nat (sealedCount (m_txsTable s))).
  { rewrite Hok. apply wrap64_small. unfold tableSize in *. lia. }
  rewrite Hc. unfold tableSize.
  destruct (Z.ltb_spec (Z.of_nat (size (m_txsTable s)))
              (Z.of_nat (sealedCount (m_txsTable s)))); [lia|].
  f_equal. lia.
Qed.

(** The pool of scenario S1: two transactions, none sealed. *)
Lemma unSealedTxsSize_witness :
  unSealedTxsSize poolAB
  = (Z.of_nat (size (filter (λ kv, sealed kv.2 = false) (m_txsTable poolAB))), poolAB).
Proof.
  apply (unSealedTxsSize_counts_unsealed poolAB); by vm_compute.
Defined.

(** X23.  [fetchNewTxs] returns nothing exactly when every transaction of
    the table is already marked as synced, whatever the limit. *)
Theorem fetchNewTxs_empty_iff_all_synced (limit : Z) (s : MemoryStorage) :
  (fetchNewTxs limit s).1 = []
  ↔ ∀ k t, m_txsTable s !! k = Some t → synced t = true.
Proof.
  unfold fetchNewTxs. rewrite fetchNewTxsLoop_all_synced. split.
  - intros H k t Hk. apply (H k t); [|done]. apply elem_of_tableKeys. eauto.
  - intros H k t _ Hk. by apply (H k t).
Qed.

(** X24.  With a limit above the size of the table, [fetchNewTxs] hands out
    every transaction that was not synced: afterwards all are marked as
    synced, and a second call returns nothing. *)
Theorem fetchNewTxs_drains (limit limit' : Z) (s : MemoryStorage) :
  tableSize s < limit →
  (∀ k t, m_txsTable (fetchNewTxs limit s).2 !! k = Some t → synced t = true) ∧
  (fetchNewTxs limit' (fetchNewTxs limit s).2).1 = [].
Proof.
  intros Hlt.
  assert (Hall : ∀ k t, m_txsTable (fetchNewTxs limit s).2 !! k = Some t →
                        synced t = true).
  { unfold fetchNewTxs.
    destruct (fetchNewTxsLoop_drains limit (tableKeys s) [] s) as [A B].
    - apply NoDup_fst_map_to_list.
    - simpl. rewrite tableKeys_length. exact Hlt.
    - intros k t Hk. destruct (decide (k ∈ tableKeys s)) as [Hin|Hnin].
      + by apply (A k).
      + rewrite B in Hk by done. exfalso. apply Hnin, elem_of_tableKeys. eauto. }
  split; [exact Hall|].
  unfold fetchNewTxs at 1. apply fetchNewTxsLoop_all_synced.
  intros k t _. apply Hall.
Qed.

(** The pool of scenario S1 and the limit 5. *)
Lemma fetchNewTxs_drains_witness :
  (∀ k t, m_txsTable (fetchNewTxs 5 poolAB).2 !! k = Some t → synced t = true) ∧
  (fetchNewTxs 1 (fetchNewTxs 5 poolAB).2).1 = [].
Proof. apply (fetchNewTxs_drains 5 1 poolAB). by vm_compute. Defined.

(** X25.  [batchMarkTxs] skips a hash the table does not hold and, when it
    unseals, a transaction sealed under another proposal: a call that names
    only such hashes changes no transaction and no counter; it only notifies
    the sealer. *)
Theorem batchMarkTxs_skips
    (hs : list N) (b : Z) (h : N) (flag : bool) (s : MemoryStorage) :
  Forall (λ x, match m_txsTable s !! x with
               | None => True
               | Some t => flag = false ∧ sealed t = true ∧
                           (batchId t ≠ b ∨ batchHash t ≠ h)
               end) hs →
  batchMarkTxs hs b h flag s = notifyUnsealedTxsSize s.
Proof.
  intros Hall.
  assert (E : batchMarkTxsWithoutLock hs b h flag s = notifyUnsealedTxsSize s).
  { unfold batchMarkTxsWithoutLock. by rewrite foldl_markTx_skipped. }
  unfold batchMarkTxs. by destruct flag.
Qed.

(** [txCC] is not in the pool; [txAA] is sealed under [(7, 0xDE)] and the
    call unseals for [(8, 0xDE)]. *)
Lemma batchMarkTxs_skips_witness :
  batchMarkTxs [204%N; 170%N] 8 222%N false poolSealedA
  = notifyUnsealedTxsSize poolSealedA.
Proof.
  apply (batchMarkTxs_skips [204%N; 170%N] 8 222%N false poolSealedA).
  constructor; [by vm_compute|]. constructor; [|constructor].
  vm_compute. split; [done|]. split; [done|]. left. discriminate.
Defined.

(** ** Removal of a single submitted transaction *)

Section RemoveSubmitted.

Implicit Types s : MemoryStorage.

Lemma removeWithoutLock_table h s :
  m_txsTable (removeWithoutLock h s).2 = delete h (m_txsTable s).
Proof.
  unfold removeWithoutLock. destruct (m_txsTable s !! h) as [t|] eqn:Hk; simpl.
  - by destruct (sealed t).
  - symmetry. by apply delete_id.
Qed.

(** The calls [removeSubmittedTx] makes: the callback of the removed
    transaction (if it has one), after the notifier. *)
Lemma removeSubmittedTx_spec r s :
  (removeSubmittedTx r s).1 = setSubmitCallback None <$> m_txsTable s !! r_txHash r ∧
  m_txsTable (removeSubmittedTx r s).2 = delete (r_txHash r) (m_txsTable s) ∧
  ∃ f1, (∀ x, callbacksFor x f1 = 0%nat) ∧
        firedBetween s (removeSubmittedTx r s).2
        = match m_txsTable s !! r_txHash r with
          | Some t =>
              match submitCallback t with
              | Some cb =>
                  EvSubmitCallback cb
                    (mkResult (r_txHash r) (r_status r) (r_nonce r) (sender t) (to t))
                  :: f1
              | None => f1
              end
          | None => f1
          end.
Proof.
  unfold removeSubmittedTx, remove.
  pose proof (removeWithoutLock_table (r_txHash r) s) as Ht.
  pose proof (removeWithoutLock_events (r_txHash r) s) as He.
  pose proof (removeWithoutLock_result (r_txHash r) s) as Hr.
  destruct (removeWithoutLock (r_txHash r) s) as [tx s1]. cbn [fst snd] in *.
  subst tx.
  destruct (notify_events s1) as (f1 & E1 & H1). rewrite He in E1.
  destruct (m_txsTable s !! r_txHash r) as [t|] eqn:Hk; cbn [fst snd].
  - unfold notifyTxResult. simpl.
    destruct (submitCallback t) as [cb|] eqn:Hcb; simpl.
    + split; [done|]. split; [by rewrite notify_table|].
      exists f1. split; [done|].
      apply firedBetween_app. simpl. by rewrite E1.
    + split; [done|]. split; [by rewrite notify_table|].
      exists f1. split; [done|]. by apply firedBetween_app.
  - split; [done|]. split; [by rewrite notify_table|].
    exists f1. split; [done|]. by apply firedBetween_app.
Qed.

End RemoveSubmitted.

(** X26.  [removeSubmittedTx] takes the transaction of the result out of the
    table and returns it with its callback slot emptied.  If the slot held a
    callback, that callback and no other is invoked for the hash, once, with
    the status and nonce of the result and the sender and receiver of the
    transaction; for a hash the table does not hold the call returns null and
    invokes nothing, so a repeated call leaves the table as it is and fires
    no callback. *)
Theorem removeSubmittedTx_notifies_once
    (r : TransactionSubmitResult) (s : MemoryStorage) :
  (removeSubmittedTx r s).1 = setSubmitCallback None <$> m_txsTable s !! r_txHash r ∧
  m_txsTable (removeSubmittedTx r s).2 = delete (r_txHash r) (m_txsTable s) ∧
  callbacksFor (r_txHash r) (firedBetween s (removeSubmittedTx r s).2)
  = match m_txsTable s !! r_txHash r with
    | Some t => if submitCallback t is Some _ then 1%nat else 0%nat
    | None => 0%nat
    end ∧
  calledFor (r_txHash r) (firedBetween s (removeSubmittedTx r s).2)
  = match m_txsTable s !! r_txHash r with
    | Some t => match submitCallback t with Some cb => [cb] | None => [] end
    | None => []
    end ∧
  (∀ t cb, m_txsTable s !! r_txHash r = Some t → submitCallback t = Some cb →
           EvSubmitCallback cb
             (mkResult (r_txHash r) (r_status r) (r_nonce r) (sender t) (to t))
           ∈ firedBetween s (removeSubmittedTx r s).2) ∧
  (removeSubmittedTx r (removeSubmittedTx r s).2).1 = None ∧
  m_txsTable (removeSubmittedTx r (removeSubmittedTx r s).2).2
  = m_txsTable (removeSubmittedTx r s).2 ∧
  (∀ x, callbacksFor x (firedBetween (removeSubmittedTx r s).2
                          (removeSubmittedTx r (removeSubmittedTx r s).2).2) = 0%nat).
Proof.
  destruct (removeSubmittedTx_spec r s) as (R1 & T1 & f1 & N1 & E1).
  destruct (removeSubmittedTx_spec r (removeSubmittedTx r s).2)
    as (R2 & T2 & f2 & N2 & E2).
  assert (Hgone : m_txsTable (removeSubmittedTx r s).2 !! r_txHash r = None)
    by (rewrite T1; apply lookup_delete_eq).
  rewrite Hgone in R2, E2.
  assert (Hcount : callbacksFor (r_txHash r) (firedBetween s (removeSubmittedTx r s).2)
                   = match m_txsTable s !! r_txHash r with
                     | Some t => if submitCallback t is Some _ then 1%nat else 0%nat
                     | None => 0%nat
                     end).
  { rewrite E1. destruct (m_txsTable s !! r_txHash r) as [t|]; [|apply N1].
    destruct (submitCallback t); [|apply N1].
    simpl. by rewrite N.eqb_refl, N1. }
  split; [done|]. split; [done|]. split; [exact Hcount|]. split; [|split].
  - destruct (m_txsTable s !! r_txHash r) as [t|] eqn:Hk;
      [|by apply calledFor_none].
    destruct (submitCallback t) as [cb|] eqn:Hcb; [|by apply calledFor_none].
    apply (calledFor_single _ cb
             (mkResult (r_txHash r) (r_status r) (r_nonce r) (sender t) (to t)));
      [exact Hcount| |done].
    rewrite E1. apply list_elem_of_here.
  - intros t cb Hk Hcb. rewrite E1, Hk, Hcb. apply list_elem_of_here.
  - split; [done|]. split; [rewrite T2; by apply delete_id|].
    intros x. rewrite E2. apply N2.
Qed.

(** ** Sealing for a proposal and unsealing again *)

(** X27.  Round trip of a proposal that fails: [batchMarkTxs] with the seal
    flag set and then, for the same hashes and the same batch, with the flag
    cleared.  When the transactions were unsealed before, the sealed counter
    is back at its value, no transaction is sealed that was not, and the
    transactions of the proposal keep its batch identity: the round trip does
    not restore their [batchId] and [batchHash]. *)
Theorem seal_then_unseal_round_trip
    (hs : list N) (b : Z) (h : N) (s : MemoryStorage) :
  sealedCounterOk s →
  (∀ x t, x ∈ hs → m_txsTable s !! x = Some t → sealed t = false) →
  m_sealedTxsSize (batchMarkTxs hs b h false (batchMarkTxs hs b h true s))
  = m_sealedTxsSize s ∧
  ∀ x, m_txsTable (batchMarkTxs hs b h false (batchMarkTxs hs b h true s)) !! x
       = if decide (x ∈ hs)
         then (λ t, setBatchHash h (setBatchId b t)) <$> m_txsTable s !! x
         else m_txsTable s !! x.
Proof.
  intros Hok Hun.
  assert (Hl : ∀ x,
    m_txsTable (batchMarkTxs hs b h false (batchMarkTxs hs b h true s)) !! x
    = if decide (x ∈ hs)
      then (λ t, setBatchHash h (setBatchId b t)) <$> m_txsTable s !! x
      else m_txsTable s !! x).
  { intros x. rewrite !batchMarkTxs_lookup. destruct (decide (x ∈ hs)) as [Hin|]; [|done].
    destruct (m_txsTable s !! x) as [t|] eqn:Hk; [|done].
    pose proof (Hun x t Hin Hk) as Hs. simpl. f_equal.
    unfold marked. simpl. rewrite Z.eqb_refl, N.eqb_refl. simpl.
    destruct t. simpl in *. by subst. }
  split; [|exact Hl].
  pose proof (batchMarkTxs_sealedCounterOk hs b h false _
                (batchMarkTxs_sealedCounterOk hs b h true s Hok)) as Hok2.
  rewrite Hok2, Hok. f_equal. f_equal.
  set (g := λ t : Transaction, if sealed t then t else setBatchHash h (setBatchId b t)).
  assert (Hidem : ∀ t, g (g t) = g t).
  { intros t. unfold g. destruct (sealed t) eqn:Hs; [by rewrite Hs|].
    simpl. by rewrite Hs. }
  assert (Hsealed : ∀ t, sealed (g t) = sealed t).
  { intros t. unfold g. by destruct (sealed t) eqn:Hs. }
  rewrite <- (sealedCount_foldl_alter g hs (m_txsTable s) Hsealed).
  f_equal. apply map_eq. intros x.
  rewrite Hl, lookup_foldl_alter by exact Hidem.
  destruct (decide (x ∈ hs)) as [Hin|]; [|done].
  destruct (m_txsTable s !! x) as [t|] eqn:Hk; [|done].
  simpl. unfold g. by rewrite (Hun x t Hin Hk).
Qed.

(** The pool of scenario S1 and a proposal [(7, 0xDE)] on [txAA]. *)
Lemma seal_then_unseal_witness :
  m_sealedTxsSize (batchMarkTxs [170%N] 7 222%N false
                     (batchMarkTxs [170%N] 7 222%N true poolAB))
  = m_sealedTxsSize poolAB ∧
  ∀ x, m_txsTable (batchMarkTxs [170%N] 7 222%N false
                     (batchMarkTxs [170%N] 7 222%N true poolAB)) !! x
       = if decide (x ∈ [170%N])
         then (λ t, setBatchHash 222%N (setBatchId 7 t)) <$> m_txsTable poolAB !! x
         else m_txsTable poolAB !! x.
Proof.
  apply (seal_then_unseal_round_trip [170%N] 7 222%N poolAB).
  - by vm_compute.
  - intros x t ->%list_elem_of_singleton Ht. vm_compute in Ht.
    by injection Ht as <-.
Defined.

(** ** Instances of the counter invariant and of the gossip lemmas *)

(** I2 on the pool of scenario S1. *)
Lemma sealed_counter_preserved_witness :
  (∀ now tx cb check lock, sealed tx = false →
     sealedCounterOk (verifyAndSubmitTransaction cfg2 now tx cb check lock poolAB).2) ∧
  (∀ now txs, Forall (λ tx, ∀ t, tx = Some t → sealed t = false) txs →
     sealedCounterOk (batchImportTxs cfg2 now txs poolAB)) ∧
  (∀ txs, sealedCounterOk (batchVerifyAndSubmitTransaction cfg2 txs poolAB).2) ∧
  (∀ now txs sys limit avoid dup,
     sealedCounterOk (batchFetchTxs cfg2 now txs sys limit avoid dup poolAB).2) ∧
  (∀ hs b h flag, sealedCounterOk (batchMarkTxs hs b h flag poolAB)) ∧
  (∀ flag, tableSize poolAB < 2 ^ 64 → sealedCounterOk (batchMarkAllTxs flag poolAB)) ∧
  (∀ h, sealedCounterOk (remove h poolAB).2) ∧
  (∀ now b rs, sealedCounterOk (batchRemove now b rs poolAB)) ∧
  (∀ now, sealedCounterOk (cleanUpExpiredTransactions cfg2 now poolAB)) ∧
  (m_unsealedTxsNotifier poolAB = true → sealedCounterOk (clear poolAB)).
Proof. apply (sealed_counter_preserved cfg2 poolAB). by vm_compute. Defined.

(** Two calls with the limit 1 on the pool of scenario S1 hand out [txAA]
    and then [txBB]. *)
Lemma fetchNewTxs_twice_witness :
  hash (setSynced true txAA1) ≠ hash (setSynced true (setSubmitCallback (Some 2%N) txBB)).
Proof.
  apply (fetchNewTxs_twice_disjoint 1 1 poolAB).
  - apply (bool_decide_unpack _). by vm_compute.
  - replace (fetchNewTxs 1 poolAB).1 with [setSynced true txAA1] by (by vm_compute).
    apply list_elem_of_here.
  - replace (fetchNewTxs 1 (fetchNewTxs 1 poolAB).2).1
      with [setSynced true (setSubmitCallback (Some 2%N) txBB)] by (by vm_compute).
    apply list_elem_of_here.
Defined.

(** The pool of scenario S2, and the unsealing under [(7, 0xDE)]. *)
Lemma fetch_then_stale_unseal_witness :
  m_sealedTxsSize
    (batchMarkTxs
       (hashesOf (batchFetchTxs cfg2 1 [] [] 10 None true poolA).1.1
                 (batchFetchTxs cfg2 1 [] [] 10 None true poolA).1.2)
       7 222%N false
       (batchFetchTxs cfg2 1 [] [] 10 None true poolA).2)
  = m_sealedTxsSize (batchFetchTxs cfg2 1 [] [] 10 None true poolA).2.
Proof.
  apply (fetch_then_stale_unseal_keeps_counter cfg2 1 10 None true 7 222%N poolA).
  - apply (bool_decide_unpack _). by vm_compute.
  - by vm_compute.
  - discriminate.
Defined.
